(** * foo_spotify: the identifier model and the Web API client core

  A shallow embedding of
    - [src/foo_spotify/backend/spotify_object.cpp]: the modules
      [SpotifyObject] and [SpotifyFilteredTrack];
    - [src/foo_spotify/backend/webapi_backend.cpp]: the module
      [WebApi_Backend], over the JSON values, the decoded objects of
      [webapi_objects/] and the HTTP messages it works with;
  followed by the properties of the component specification that concern
  them.  The definitions come first, the theorems after them. *)

From stdpp Require Import gmap strings list pretty.
From Stdlib Require Import ZArith Ascii String.

Local Open Scope string_scope.
Local Open Scope list_scope.

(** ** Exceptions

  The C++ code signals failure by throwing.  [qwr::QwrException] carries a
  message; the other constructors stand for exceptions thrown by the
  libraries the code calls (the HTTP transport, the JSON decoder) and for
  a failed [assert]. *)

Inductive exn : Type :=
| QwrException (msg : string)
| HttpException
| JsonException (msg : string)
| AssertionFailure (msg : string).

Inductive outcome (A : Type) : Type :=
| Ok (a : A)
| Throw (e : exn)
| Diverges.

Arguments Ok {A} a.
Arguments Throw {A} e.
Arguments Diverges {A}.

(** ** String views *)

Module StringView.

(** [std::string_view::_Starts_with] *)
Fixpoint starts_with (s p : string) {struct p} : bool :=
  match p, s with
  | EmptyString, _ => true
  | String c p', String d s' => if Ascii.eqb c d then starts_with s' p' else false
  | String _ _, EmptyString => false
  end.

(** [std::string_view::remove_prefix] *)
Fixpoint remove_prefix (n : nat) (s : string) : string :=
  match n, s with
  | O, _ => s
  | S n', String _ s' => remove_prefix n' s'
  | S _, EmptyString => EmptyString
  end.

(** [std::string_view::find(char)]; [None] is [npos]. *)
Fixpoint find (s : string) (c : ascii) : option nat :=
  match s with
  | EmptyString => None
  | String d s' => if Ascii.eqb d c then Some O else S <$> find s' c
  end.

(** [std::string_view::substr(0, n)] *)
Fixpoint substr0 (n : nat) (s : string) : string :=
  match n, s with
  | S n', String c s' => String c (substr0 n' s')
  | _, _ => EmptyString
  end.

(** [std::string_view::empty] *)
Definition empty (s : string) : bool :=
  match s with EmptyString => true | _ => false end.

(** The character [c] occurs in [s]. *)
Fixpoint contains (c : ascii) (s : string) : bool :=
  match s with
  | EmptyString => false
  | String d s' => Ascii.eqb d c || contains c s'
  end.

(** Modelled from the spec: [qwr::string::Split] is declared in
    [<qwr/string_helpers.h>], a header of the [qwr] helper library.
    The specification speaks of the input being split on the separator into
    its parts, so the model cuts at every occurrence of [sep] and keeps
    every field, also the empty ones. *)
Fixpoint Split (s : string) (sep : ascii) : list string :=
  match s with
  | EmptyString => [EmptyString]
  | String c s' =>
      if Ascii.eqb c sep then EmptyString :: Split s' sep
      else match Split s' sep with
           | [] => [String c EmptyString]
           | w :: ws => String c w :: ws
           end
  end.

(** Modelled from the spec: [qwr::string::Join], from the same header: the
    parts separated by [sep]. *)
Fixpoint Join (parts : list string) (sep : ascii) : string :=
  match parts with
  | [] => EmptyString
  | [p] => p
  | p :: ps => p +:+ String sep (Join ps sep)
  end.

(** The propositional reading of a prefix. *)
Definition has_prefix (p s : string) : Prop := ∃ t, s = p +:+ t.

End StringView.

Import StringView.

(** ** The identifier model: [spotify_object.cpp] *)

Module SpotifyObject.

Record t : Type := mk { type : string; id : string }.

Definition schemaPrefix : string := "sptf://".
Definition urlPrefix : string := "https://open.spotify.com/".

Definition IsValidType (type : string) : bool :=
  String.eqb type "track" || String.eqb type "album" || String.eqb type "playlist".

(** [qwr::QwrException::ExpectTrue( cond, msg )] followed by the rest of
    the constructor. *)
Definition ExpectTrue {A} (cond : bool) (msg : string) (k : outcome A) : outcome A :=
  if cond then k else Throw (QwrException msg).

(** [SpotifyObject::SpotifyObject( std::string_view input )] *)
Definition parse (input : string) : outcome t :=
  let input :=
    if starts_with input schemaPrefix
    then remove_prefix (String.length schemaPrefix) input
    else input in
  if starts_with input urlPrefix then
    let input := remove_prefix (String.length urlPrefix) input in
    let ret := Split input "/" in
    ExpectTrue (Nat.eqb (List.length ret) 2) "Invalid URL" (
      let localType := nth 0 ret EmptyString in
      ExpectTrue (IsValidType localType) ("Unsupported Spotify object: " +:+ localType) (
        let localId :=
          let localId := nth 1 ret EmptyString in
          match find localId "?" with
          | None => localId
          | Some pos => substr0 pos localId
          end in
        ExpectTrue (negb (empty localId)) ("Invalid Spotify object id: " +:+ localId) (
          Ok {| type := localType; id := localId |})))
  else
    let ret := Split input ":" in
    ExpectTrue (Nat.eqb (List.length ret) 3) "Invalid URI" (
      ExpectTrue (String.eqb (nth 0 ret EmptyString) "spotify") "Invalid URI" (
        let localType := nth 1 ret EmptyString in
        ExpectTrue (IsValidType localType) ("Unsupported Spotify object: " +:+ localType) (
          let localId := nth 2 ret EmptyString in
          ExpectTrue (negb (empty localId)) ("Invalid Spotify object id: " +:+ localId) (
            Ok {| type := localType; id := localId |})))).

(** [SpotifyObject::SpotifyObject( std::string_view type, std::string_view id )] *)
Definition make (type id : string) : outcome t :=
  ExpectTrue (IsValidType type) ("Unsupported Spotify object: " +:+ type) (
    Ok {| type := type; id := id |}).

(** [SpotifyObject::IsValid] *)
Definition IsValid (input : string) : bool :=
  match parse input with
  | Ok _ => true
  | _ => false
  end.

Definition ToUri (o : t) : string :=
  "spotify:" +:+ type o +:+ ":" +:+ id o.

Definition ToUrl (o : t) : string :=
  "https://open.spotify.com/" +:+ type o +:+ "/" +:+ id o.

Definition ToSchema (o : t) : string :=
  "sptf://spotify:" +:+ type o +:+ ":" +:+ id o.

(** The input once the optional [sptf://] has been removed. *)
Definition without_schema (input : string) : string :=
  if starts_with input schemaPrefix
  then remove_prefix (String.length schemaPrefix) input
  else input.

(** The input is of the URL form. *)
Definition url_form (input : string) : bool :=
  starts_with (without_schema input) urlPrefix.

(** What the specification demands of every constructed object. *)
Definition invariant (o : t) : Prop :=
  type o ≠ EmptyString ∧ id o ≠ EmptyString ∧
  (type o = "track" ∨ type o = "album" ∨ type o = "playlist") ∧
  contains "?" (id o) = false ∧ contains "/" (id o) = false.

End SpotifyObject.

Module SpotifyFilteredTrack.

Import SpotifyObject.

(** [SpotifyFilteredTrack::SpotifyFilteredTrack( std::string_view id )] *)
Definition make (id : string) : outcome SpotifyObject.t := SpotifyObject.make "track" id.

(** [SpotifyFilteredTrack::IsValid] *)
Definition IsValid (input : string) (usePurePathOnly : bool) : bool :=
  if starts_with input schemaPrefix then
    starts_with (remove_prefix (String.length schemaPrefix) input) "spotify:track:"
  else if usePurePathOnly then false
  else starts_with input "spotify:track:".

End SpotifyFilteredTrack.

(** ** JSON values, as [nlohmann::json] holds them *)

Module Json.

#[local] Unset Elimination Schemes.
Inductive json : Type :=
| JNull
| JBool (b : bool)
| JNumber (n : Z)
| JString (s : string)
| JArray (elems : list json)
| JObject (members : list (string * json)).
#[local] Set Elimination Schemes.

Definition is_object (j : json) : bool :=
  match j with JObject _ => true | _ => false end.

Definition is_null (j : json) : bool :=
  match j with JNull => true | _ => false end.

Fixpoint lookup_member (key : string) (members : list (string * json)) : option json :=
  match members with
  | [] => None
  | (k, v) :: rest => if String.eqb k key then Some v else lookup_member key rest
  end.

(** [json::find( key )]; [None] is [cend()]. *)
Definition find (j : json) (key : string) : option json :=
  match j with
  | JObject members => lookup_member key members
  | _ => None
  end.

(** [j.at( key )]: throws when [j] is no object or has no such member. *)
Definition at_ (j : json) (key : string) : outcome json :=
  match find j key with
  | Some v => Ok v
  | None => Throw (JsonException ("key not found: " +:+ key))
  end.

Definition get_string (j : json) : outcome string :=
  match j with
  | JString s => Ok s
  | _ => Throw (JsonException "type must be string")
  end.

Definition get_number (j : json) : outcome Z :=
  match j with
  | JNumber n => Ok n
  | _ => Throw (JsonException "type must be number")
  end.

(** [j.get<uint32_t>()]: the number is cast to an unsigned number of 32
    bits, which wraps around, and a boolean is cast as a number is. *)
Definition get_uint32 (j : json) : outcome Z :=
  match j with
  | JNumber n => Ok (n mod 2 ^ 32)%Z
  | JBool b => Ok (if b then 1 else 0)%Z
  | _ => Throw (JsonException "type must be number")
  end.

Definition get_array (j : json) : outcome (list json) :=
  match j with
  | JArray elems => Ok elems
  | _ => Throw (JsonException "type must be array")
  end.

Definition obind {A B} (c : outcome A) (k : A → outcome B) : outcome B :=
  match c with
  | Ok a => k a
  | Throw e => Throw e
  | Diverges => Diverges
  end.

(** [j.get<std::vector<T>>()]: the elements decoded from left to right. *)
Fixpoint get_elems {A} (decode : json → outcome A) (elems : list json) : outcome (list A) :=
  match elems with
  | [] => Ok []
  | e :: rest =>
      obind (decode e) (λ a, obind (get_elems decode rest) (λ r, Ok (a :: r)))
  end.

Definition get_vector {A} (decode : json → outcome A) (j : json) : outcome (list A) :=
  obind (get_array j) (get_elems decode).

(** An optional member: absent or [null] is [std::nullopt]. *)
Definition get_optional {A} (decode : json → outcome A) (j : json) (key : string)
  : outcome (option A) :=
  match find j key with
  | None | Some JNull => Ok None
  | Some v => obind (decode v) (λ a, Ok (Some a))
  end.

(** *** [dump]: the text of a value

    [basic_json::dump( indent )] with an indent above zero: every member
    and every element on a line of its own, moved in by [indent] more
    blanks than the value it is in; an empty object is [{}] and an empty
    array [[]].  An object holds its members by key, so they come in the
    order of their keys, and of two members with one key the one [find]
    sees.  The strings of a value that was parsed are valid UTF-8, so the
    bytes of a string are written as they are, but for the quote, the
    backslash and the control characters. *)

Definition quote : string := String "034" EmptyString.

Definition newline : string := String "010" EmptyString.

Definition hex_digit (n : N) : ascii :=
  if (n <? 10)%N then ascii_of_N (48 + n) else ascii_of_N (87 + n).

Definition escape_char (c : ascii) : string :=
  let n := N_of_ascii c in
  if (n =? 8)%N then "\b"
  else if (n =? 9)%N then "\t"
  else if (n =? 10)%N then "\n"
  else if (n =? 12)%N then "\f"
  else if (n =? 13)%N then "\r"
  else if (n =? 34)%N then "\" +:+ quote
  else if (n =? 92)%N then "\\"
  else if (n <? 32)%N
       then "\u00" +:+ String (hex_digit (n / 16)) (String (hex_digit (n mod 16)) EmptyString)
  else String c EmptyString.

Fixpoint escape (s : string) : string :=
  match s with
  | EmptyString => EmptyString
  | String c rest => escape_char c +:+ escape rest
  end.

Fixpoint blanks (n : nat) : string :=
  match n with
  | O => EmptyString
  | S n' => String " " (blanks n')
  end.

Fixpoint join_rows (sep : string) (rows : list string) : string :=
  match rows with
  | [] => EmptyString
  | [row] => row
  | row :: rest => row +:+ sep +:+ join_rows sep rest
  end.

(** The rows of an object or an array between its brackets. *)
Definition dump_rows (opening closing : string) (indent_step current_indent : nat)
    (rows : list string) : string :=
  match rows with
  | [] => opening +:+ closing
  | _ =>
      opening +:+ newline
      +:+ join_rows ("," +:+ newline)
            (map (λ row, blanks (current_indent + indent_step) +:+ row) rows)
      +:+ newline +:+ blanks current_indent +:+ closing
  end.

Fixpoint insert_by_key (key text : string) (members : list (string * string))
  : list (string * string) :=
  match members with
  | [] => [(key, text)]
  | (k, t) :: rest =>
      match String.compare key k with
      | Lt => (key, text) :: members
      | Eq => members
      | Gt => (k, t) :: insert_by_key key text rest
      end
  end.

Definition by_key (members : list (string * string)) : list (string * string) :=
  fold_left (λ acc member, insert_by_key member.1 member.2 acc) members [].

Fixpoint dump_value (indent_step current_indent : nat) (j : json) {struct j} : string :=
  match j with
  | JNull => "null"
  | JBool b => if b then "true" else "false"
  | JNumber n => pretty n
  | JString s => quote +:+ escape s +:+ quote
  | JArray elems =>
      dump_rows "[" "]" indent_step current_indent
        ((fix rows (l : list json) : list string :=
            match l with
            | [] => []
            | e :: rest =>
                dump_value indent_step (current_indent + indent_step) e :: rows rest
            end) elems)
  | JObject members =>
      dump_rows "{" "}" indent_step current_indent
        (map (λ member : string * string,
                quote +:+ escape member.1 +:+ quote +:+ ": " +:+ member.2)
           (by_key
              ((fix rows (l : list (string * json)) : list (string * string) :=
                  match l with
                  | [] => []
                  | (k, v) :: rest =>
                      (k, dump_value indent_step (current_indent + indent_step) v)
                      :: rows rest
                  end) members)))
  end.

Definition dump (indent : nat) (j : json) : string := dump_value indent 0 j.

End Json.

Import Json.

(** ** The decoded Web API objects *)

Module WebApi_Track.

(** [struct WebApi_Track] of [webapi_track.h].  The structs behind
    [album], [artists], [linked_from] and [restrictions] are only declared
    there, so these members keep the JSON they were read from.  The three
    numbers are [uint32_t]: they are below [2 ^ 32] in every track that is
    decoded. *)
Record t : Type := mk {
  album : json;
  artists : list json;
  disc_number : Z;
  duration_ms : Z;
  id : string;
  linked_from : option json;
  restrictions : option json;
  name : string;
  preview_url : option string;
  track_number : Z
}.

(** Modelled from the spec: [from_json( const nlohmann::json&, WebApi_Track& )] is
    declared in [webapi_track.h] and defined in a file that is missing.  The
    record mirrors the catalog schema: the members that are not optional
    are required and of the type the struct gives them. *)
Definition from_json (j : json) : outcome t :=
  obind (at_ j "album") (λ album,
  obind (obind (at_ j "artists") get_array) (λ artists,
  obind (obind (at_ j "disc_number") get_uint32) (λ disc_number,
  obind (obind (at_ j "duration_ms") get_uint32) (λ duration_ms,
  obind (obind (at_ j "id") get_string) (λ id,
  obind (get_optional Ok j "linked_from") (λ linked_from,
  obind (get_optional Ok j "restrictions") (λ restrictions,
  obind (obind (at_ j "name") get_string) (λ name,
  obind (get_optional get_string j "preview_url") (λ preview_url,
  obind (obind (at_ j "track_number") get_uint32) (λ track_number,
  Ok {| album := album; artists := artists; disc_number := disc_number;
        duration_ms := duration_ms; id := id; linked_from := linked_from;
        restrictions := restrictions; name := name; preview_url := preview_url;
        track_number := track_number |})))))))))).

End WebApi_Track.

Module WebApi_LocalTrack.

(** Modelled from the spec: [struct WebApi_LocalTrack] lives in
    [webapi_media_objects.h], which is missing; a local track keeps the
    JSON object it was read from. *)
Record t : Type := mk { raw : json }.

Definition from_json (j : json) : outcome t :=
  if is_object j then Ok {| raw := j |}
  else Throw (JsonException "type must be object").

End WebApi_LocalTrack.

Module WebApi_PlaylistTrack.

(** Modelled from the spec: [struct WebApi_PlaylistTrack] lives in
    [webapi_media_objects.h], which is missing.  Its [track] member is the
    tagged union of a track and a local track, told apart at decode time by
    the [is_local] member. *)
Record t : Type := mk { track : WebApi_Track.t + WebApi_LocalTrack.t }.

Definition from_json (j : json) : outcome t :=
  obind (at_ j "track") (λ tj,
    match find tj "is_local" with
    | Some (JBool true) =>
        obind (WebApi_LocalTrack.from_json tj) (λ l, Ok {| track := inr l |})
    | _ =>
        obind (WebApi_Track.from_json tj) (λ tr, Ok {| track := inl tr |})
    end).

End WebApi_PlaylistTrack.

Module WebApi_User.

(** Modelled from the spec: [struct WebApi_User] lives in [webapi_user.h],
    which is missing.  The backend reads its optional [country]. *)
Record t : Type := mk {
  country : option string;
  display_name : option string;
  id : string
}.

Definition from_json (j : json) : outcome t :=
  obind (get_optional get_string j "country") (λ country,
  obind (get_optional get_string j "display_name") (λ display_name,
  obind (obind (at_ j "id") get_string) (λ id,
  Ok {| country := country; display_name := display_name; id := id |}))).

End WebApi_User.

Module WebApi_PagingObject.

(** Modelled from the spec: [struct WebApi_PagingObject] lives in
    [webapi_paging_object.h], which is missing.  The specification gives the
    envelope as [{items, next: URL | null, total, limit, offset}]. *)
Record t : Type := mk {
  items : json;
  next : option string;
  total : Z;
  limit : Z;
  offset : Z
}.

Definition from_json (j : json) : outcome t :=
  obind (at_ j "items") (λ items,
  obind (get_optional get_string j "next") (λ next,
  obind (obind (at_ j "total") get_number) (λ total,
  obind (obind (at_ j "limit") get_number) (λ limit,
  obind (obind (at_ j "offset") get_number) (λ offset,
  Ok {| items := items; next := next; total := total; limit := limit;
        offset := offset |}))))).

End WebApi_PagingObject.

(** ** HTTP messages, as [web::http] holds them *)

Record http_request : Type := {
  method : string;
  request_uri : string;
  request_headers : list (string * string)
}.

(** [body] is what [nlohmann::json::parse] makes of the response text: [None]
    when the text is no JSON.  [to_string] is the text that
    [http_response::to_string()] gives for the response. *)
Record http_response : Type := {
  status_code : Z;
  reason_phrase : string;
  headers : list (string * string);
  body : option json;
  to_string : string
}.

Section Http.

Definition to_lower (c : ascii) : ascii :=
  let n := nat_of_ascii c in
  if (65 <=? n)%nat && (n <=? 90)%nat then ascii_of_nat (n + 32) else c.

Fixpoint lower (s : string) : string :=
  match s with
  | EmptyString => EmptyString
  | String c s' => String (to_lower c) (lower s')
  end.

(** [http_headers::find]: header names are compared without regard to
    case. *)
Fixpoint find_header (hs : list (string * string)) (name : string) : option string :=
  match hs with
  | [] => None
  | (k, v) :: rest =>
      if String.eqb (lower k) (lower name) then Some v else find_header rest name
  end.

Definition digit (c : ascii) : option Z :=
  let n := nat_of_ascii c in
  if (48 <=? n)%nat && (n <=? 57)%nat then Some (Z.of_nat (n - 48)) else None.

Fixpoint read_digits (acc : Z) (s : string) : Z :=
  match s with
  | EmptyString => acc
  | String c s' =>
      match digit c with
      | Some d => read_digits (acc * 10 + d) s'
      | None => acc
      end
  end.

(** Modelled from the spec: [qwr::string::GetNumber<uint32_t>] is declared
    in [<qwr/string_helpers.h>], which is missing.  The text is read as an
    unsigned decimal number of 32 bits: the digits the text starts with;
    there is no number when it starts with no digit or when the number does
    not fit. *)
Definition GetNumber (s : string) : option Z :=
  match s with
  | EmptyString => None
  | String c _ =>
      match digit c with
      | None => None
      | Some _ =>
          let v := read_digits 0 s in
          if (v <=? 4294967295)%Z then Some v else None
      end
  end.

(** [web::uri_builder]: the path and the query collected so far.
    Percent-encoding is left out: it is the identity on the letters, digits
    and commas the backend puts into its requests. *)
Record uri_builder : Type := { ub_path : string; ub_query : string }.

Definition new_builder : uri_builder := {| ub_path := EmptyString; ub_query := EmptyString |}.

Definition append_path (b : uri_builder) (p : string) : uri_builder :=
  {| ub_path := ub_path b +:+ "/" +:+ p; ub_query := ub_query b |}.

Definition append_query (b : uri_builder) (name value : string) : uri_builder :=
  {| ub_path := ub_path b;
     ub_query := if empty (ub_query b) then name +:+ "=" +:+ value
                 else ub_query b +:+ "&" +:+ name +:+ "=" +:+ value |}.

Definition to_uri (b : uri_builder) : string :=
  if empty (ub_query b) then ub_path b else ub_path b +:+ "?" +:+ ub_query b.

End Http.

(** ** The backend: [webapi_backend.cpp] *)

Module WebApi_Backend.

(** Everything a call of the backend reads or changes.
    - [server]: the answers of the transport to the requests still to come,
      one handler per request, oldest first; a handler that gives [None],
      or no handler at all, is a transport failure.
    - [sent]: the requests handed to [client_.request], oldest first.
    - [slept]: the durations, in milliseconds, given to [SleepFor].
    - [abort_oracle], [abort_polls]: the host's abort callback; each look at
      it reads the oracle at the number of looks made before.
    - [access_token]: what the authorizer has to give.
    - [trackCache], [userCache]: the object caches. *)
Record World : Type := mkWorld {
  server : list (http_request → option http_response);
  sent : list http_request;
  slept : list Z;
  abort_oracle : nat → bool;
  abort_polls : nat;
  access_token : option string;
  trackCache : gmap string WebApi_Track.t;
  userCache : option WebApi_User.t
}.

Definition set_transport (srv : list (http_request → option http_response))
    (snt : list http_request) (w : World) : World :=
  mkWorld srv snt (slept w) (abort_oracle w) (abort_polls w) (access_token w)
          (trackCache w) (userCache w).

Definition set_slept (sl : list Z) (polls : nat) (w : World) : World :=
  mkWorld (server w) (sent w) sl (abort_oracle w) polls (access_token w)
          (trackCache w) (userCache w).

Definition set_abort_polls (polls : nat) (w : World) : World :=
  mkWorld (server w) (sent w) (slept w) (abort_oracle w) polls (access_token w)
          (trackCache w) (userCache w).

Definition set_trackCache (c : gmap string WebApi_Track.t) (w : World) : World :=
  mkWorld (server w) (sent w) (slept w) (abort_oracle w) (abort_polls w) (access_token w)
          c (userCache w).

Definition set_userCache (u : option WebApi_User.t) (w : World) : World :=
  mkWorld (server w) (sent w) (slept w) (abort_oracle w) (abort_polls w) (access_token w)
          (trackCache w) u.

(** A computation of the backend: it ends in a value or an exception, or
    runs out of fuel, and leaves a world behind in each case. *)
Definition M (A : Type) : Type := World → outcome A * World.

Definition ret {A} (a : A) : M A := λ w, (Ok a, w).
Definition throw {A} (e : exn) : M A := λ w, (Throw e, w).
Definition diverge {A} : M A := λ w, (Diverges, w).

Definition bind {A B} (c : M A) (k : A → M B) : M B :=
  λ w, match c w with
       | (Ok a, w') => k a w'
       | (Throw e, w') => (Throw e, w')
       | (Diverges, w') => (Diverges, w')
       end.

Definition gets {A} (f : World → A) : M A := λ w, (Ok (f w), w).
Definition modify (f : World → World) : M unit := λ w, (Ok tt, f w).

(** A decoder's outcome, inside a computation. *)
Definition lift {A} (o : outcome A) : M A := λ w, (o, w).

Notation "'let*' x ':=' c 'in' k" := (bind c (λ x, k))
  (at level 10, x name, c at level 100, k at level 200).
Notation "c ';;' k" := (bind c (λ _, k))
  (at level 100, k at level 200, right associativity).

(** [qwr::QwrException::ExpectTrue] *)
Definition ExpectTrue (cond : bool) (msg : string) : M unit :=
  if cond then ret tt else throw (QwrException msg).

(** *** The collaborators *)

(** Modelled from the spec: [url::spotifyApi] is declared in
    [<component_urls.h>], which is missing; the specification gives the
    base URI. *)
Definition spotifyApi : string := "https://api.spotify.com/v1/".

(** [client_.request( req, token ).get()] *)
Definition client_request (req : http_request) : M http_response :=
  λ w, match server w with
       | [] => (Throw HttpException, set_transport [] (sent w ++ [req]) w)
       | h :: rest =>
           match h req with
           | Some response => (Ok response, set_transport rest (sent w ++ [req]) w)
           | None => (Throw HttpException, set_transport rest (sent w ++ [req]) w)
           end
       end.

(** [abort.is_aborting()] *)
Definition is_aborting : M bool :=
  λ w, (Ok (abort_oracle w (abort_polls w)), set_abort_polls (S (abort_polls w)) w).

(** Modelled from the spec: [SleepFor] lives in [<utils/sleeper.h>], which
    is missing.  The sleep is cancellation-aware: it tells whether it ran
    to its end. *)
Definition SleepFor (ms : Z) : M bool :=
  λ w, (Ok (negb (abort_oracle w (abort_polls w))),
        set_slept (slept w ++ [ms]) (S (abort_polls w)) w).

(** Modelled from the spec: [WebApiAuthorizer::GetAccessToken] lives in
    [<backend/webapi_auth.h>], which is missing.  It gives the bearer token
    or fails. *)
Definition GetAccessToken : M string :=
  λ w, match access_token w with
       | Some token => (Ok token, w)
       | None => (Throw (QwrException "AuthRequired"), w)
       end.

(** Modelled from the spec: the object cache lives in a header that is
    missing.  The specification gives its operations: [IsCached(key)],
    [Get(key)], and [Put(value)] and [PutMany(values)], keyed by the id of
    the value. *)
Definition IsCached (cache : gmap string WebApi_Track.t) (id : string) : bool :=
  bool_decide (is_Some (cache !! id)).

Definition GetObjectFromCache (cache : gmap string WebApi_Track.t) (id : string)
  : option WebApi_Track.t := cache !! id.

Definition CacheObject (track : WebApi_Track.t) (cache : gmap string WebApi_Track.t)
  : gmap string WebApi_Track.t := <[WebApi_Track.id track := track]> cache.

Definition CacheObjects (tracks : list WebApi_Track.t) (cache : gmap string WebApi_Track.t)
  : gmap string WebApi_Track.t := foldl (λ c track, CacheObject track c) cache tracks.

(** *** [GetResponse], [ParseResponse], [GetJsonResponse] *)

(** The body of the loop [for ( size_t i = 0; i < 3; ++i )], with [n] the
    number of rounds still to go and [response] the response of the round
    before. *)
Fixpoint retry_loop (n : nat) (req : http_request) (response : http_response)
  : M http_response :=
  match n with
  | O => ret response
  | S n' =>
      let* response := client_request req in
      if negb (status_code response =? 429)%Z then ret response
      else
        match find_header (headers response) "Retry-After" with
        | None =>
            throw (QwrException
              "Request failed with 429 error, but does not contain a `Retry-After` header")
        | Some retryHeader =>
            match GetNumber retryHeader with
            | None =>
                throw (QwrException
                  "Request failed with 429 error, but does not contain a valid number in `Retry-After` header")
            | Some retryInMs =>
                let retryIn := (retryInMs + 1000)%Z in
                let* ran := SleepFor retryIn in
                if negb ran then ret response
                else retry_loop n' req response
            end
        end
  end.

(** The request as [GetResponse] sets it up. *)
Definition make_request (adjustedRequestUri token : string) : http_request :=
  {| method := "GET";
     request_uri := adjustedRequestUri;
     request_headers := [("Authorization", "Bearer " +:+ token);
                         ("Accept", "application/json");
                         ("Content-Type", "application/json")] |}.

Definition adjust_uri (requestUri : string) : string :=
  if starts_with requestUri spotifyApi
  then remove_prefix (String.length spotifyApi) requestUri
  else requestUri.

(** A default-made [web::http::http_response]. *)
Definition no_response : http_response :=
  {| status_code := 0; reason_phrase := EmptyString; headers := []; body := None;
     to_string := EmptyString |}.

(** [WebApi_Backend::GetResponse].  The console output is left out, and so
    is the wait for the rate limiter, which takes time and nothing else. *)
Definition GetResponse (requestUri : string) : M http_response :=
  let adjustedRequestUri := adjust_uri requestUri in
  let* token := GetAccessToken in
  let req := make_request adjustedRequestUri token in
  let* aborting := is_aborting in
  ExpectTrue (negb aborting) "Abort was signaled, canceling request..." ;;
  retry_loop 3 req no_response.

(** The lambda in [ParseResponse] that gives the additional data of the
    message: the body as indented JSON, or, when the body is no JSON, the
    response as text. *)
Definition additional_data (response : http_response) : string :=
  match body response with
  | Some responseJson => dump 2 responseJson
  | None => to_string response
  end.

(** The message of the exception for a response whose status is not 200:
    the format [{}: {}\nAdditional data: {}\n] filled in. *)
Definition error_message (response : http_response) : string :=
  pretty (status_code response) +:+ ": " +:+ reason_phrase response +:+ newline
  +:+ "Additional data: " +:+ additional_data response +:+ newline.

(** [WebApi_Backend::ParseResponse].  The console output is left out. *)
Definition ParseResponse (response : http_response) : M json :=
  if negb (status_code response =? 200)%Z
  then throw (QwrException (error_message response))
  else
    match body response with
    | None => throw (JsonException "parse error")
    | Some responseJson =>
        ExpectTrue (is_object responseJson)
          "Malformed track data response response: json is not an object" ;;
        ret responseJson
    end.

(** [WebApi_Backend::GetJsonResponse] *)
Definition GetJsonResponse (requestUri : string) : M json :=
  let* response := GetResponse requestUri in
  ParseResponse response.


(** *** The operations on users and tracks *)

(** [WebApi_Backend::GetUser] *)
Definition GetUser : M WebApi_User.t :=
  let* userOpt := gets userCache in
  match userOpt with
  | Some user => ret user
  | None =>
      let builder := append_path new_builder "me" in
      let* responseJson := GetJsonResponse (to_uri builder) in
      let* user := lift (WebApi_User.from_json responseJson) in
      modify (set_userCache (Some user)) ;;
      ret user
  end.

(** The loop of [RefreshCacheForTracks] runs over
    [uniqueIds | remove_if( IsCached ) | chunk( kMaxItemsPerRequest )], and
    these views are lazy: nothing is filtered or cut before the loop.  The
    predicate of [remove_if] reads [trackCache_] each time a position of the
    view is moved forward, and the body of the loop writes [trackCache_]
    between two such moves.  A position in the [remove_if] view is modelled
    by the ids from that position on.  The [chunk] view over a forward range
    keeps the position its chunk starts at: reading the chunk walks a copy of
    that position, and going to the next chunk, after the body of the loop has
    run, steps the kept position forward [kMaxItemsPerRequest] times.  The ids
    are walked in the order of [uniqueIds], which for a
    [std::unordered_set] is any order; the model takes the order of
    [elements]. *)

(** [remove_if_view::satisfy_forward]: skip the ids that are cached. *)
Fixpoint satisfy_forward (cache : gmap string WebApi_Track.t) (it : list string)
  : list string :=
  match it with
  | [] => []
  | id :: rest => if IsCached cache id then satisfy_forward cache rest else it
  end.

(** [++it] on a position of the [remove_if] view. *)
Definition filter_next (cache : gmap string WebApi_Track.t) (it : list string)
  : list string :=
  match it with
  | [] => []
  | _ :: rest => satisfy_forward cache rest
  end.

(** Reading a chunk: [views::take( subrange( it, end ), n )], walked by
    [ranges::to_vector]. *)
Fixpoint read_chunk (cache : gmap string WebApi_Track.t) (n : nat) (it : list string)
  : list string :=
  match n, it with
  | S n', id :: _ => id :: read_chunk cache n' (filter_next cache it)
  | _, _ => []
  end.

(** Moving to the next chunk: [ranges::advance( it, n, end )]. *)
Fixpoint advance (cache : gmap string WebApi_Track.t) (n : nat) (it : list string)
  : list string :=
  match n, it with
  | S n', _ :: _ => advance cache n' (filter_next cache it)
  | _, _ => it
  end.

Definition kMaxItemsPerRequest_tracks : nat := 50.

(** The loop of [RefreshCacheForTracks] from the position [it] on.  Every
    round moves the position forward, so [fuel] rounds are enough when
    [fuel] is the number of ids left. *)
Fixpoint RefreshCacheForTracks_loop (fuel : nat) (it : list string) : M unit :=
  match it with
  | [] => ret tt
  | _ :: _ =>
      match fuel with
      | O => diverge
      | S fuel' =>
          let* cache := gets trackCache in
          let trackIdsChunk := read_chunk cache kMaxItemsPerRequest_tracks it in
          let trackIdsStr := Join trackIdsChunk "," in
          let builder := append_query (append_path new_builder "tracks") "ids" trackIdsStr in
          let* responseJson := GetJsonResponse (to_uri builder) in
          match find responseJson "tracks" with
          | None =>
              throw (QwrException "Malformed track data response response: missing `tracks`")
          | Some tracksJson =>
              let* tracks := lift (get_vector WebApi_Track.from_json tracksJson) in
              modify (λ w, set_trackCache (CacheObjects tracks (trackCache w)) w) ;;
              let* cache := gets trackCache in
              RefreshCacheForTracks_loop fuel' (advance cache kMaxItemsPerRequest_tracks it)
          end
      end
  end.

(** [WebApi_Backend::RefreshCacheForTracks] *)
Definition RefreshCacheForTracks (trackIds : list string) : M unit :=
  let uniqueIds := elements (list_to_set trackIds : gset string) in
  let* cache := gets trackCache in
  RefreshCacheForTracks_loop (List.length uniqueIds) (satisfy_forward cache uniqueIds).

(** [WebApi_Backend::GetTrack] *)
Definition GetTrack (trackId : string) (useRelink : bool) : M WebApi_Track.t :=
  let* cache := gets trackCache in
  match GetObjectFromCache cache trackId, useRelink with
  | Some track, false => ret track
  | _, _ =>
      let builder := append_path (append_path new_builder "tracks") trackId in
      let* builder :=
        if useRelink then
          let* user := GetUser in
          match WebApi_User.country user with
          | Some country => ret (append_query builder "market" country)
          | None => ret builder
          end
        else ret builder in
      let* responseJson := GetJsonResponse (to_uri builder) in
      let* track := lift (WebApi_Track.from_json responseJson) in
      (if negb useRelink
       then modify (λ w, set_trackCache (CacheObject track (trackCache w)) w)
       else ret tt) ;;
      ret track
  end.

(** The transform of [GetTracks], one id after the other. *)
Fixpoint from_cache (trackIds : list string) : M (list WebApi_Track.t) :=
  match trackIds with
  | [] => ret []
  | id :: rest =>
      let* cache := gets trackCache in
      if negb (IsCached cache id)
      then throw (AssertionFailure "trackCache_.IsCached( id )")
      else
        match GetObjectFromCache cache id with
        | None => throw (AssertionFailure "trackCache_.IsCached( id )")
        | Some track =>
            let* tracks := from_cache rest in
            ret (track :: tracks)
        end
  end.

(** [WebApi_Backend::GetTracks] *)
Definition GetTracks (trackIds : list string) : M (list WebApi_Track.t) :=
  RefreshCacheForTracks trackIds ;;
  from_cache trackIds.

Definition kMaxItemsPerRequest_playlist : nat := 100.

(** The [std::visit] over the items of a page: tracks to the one vector,
    local tracks to the other. *)
Fixpoint visit_items (playlistTracks : list WebApi_PlaylistTrack.t)
    (tracks : list WebApi_Track.t) (localTracks : list WebApi_LocalTrack.t)
  : list WebApi_Track.t * list WebApi_LocalTrack.t :=
  match playlistTracks with
  | [] => (tracks, localTracks)
  | playlistTrack :: rest =>
      match WebApi_PlaylistTrack.track playlistTrack with
      | inl track => visit_items rest (tracks ++ [track]) localTracks
      | inr localTrack => visit_items rest tracks (localTracks ++ [localTrack])
      end
  end.

(** The loop [while ( true )] of [GetTracksFromPlaylist]. *)
Fixpoint GetTracksFromPlaylist_loop (fuel : nat) (requestUri : string)
    (tracks : list WebApi_Track.t) (localTracks : list WebApi_LocalTrack.t)
  : M (list WebApi_Track.t * list WebApi_LocalTrack.t) :=
  match fuel with
  | O => diverge
  | S fuel' =>
      let* responseJson := GetJsonResponse requestUri in
      let* pPagingObject := lift (WebApi_PagingObject.from_json responseJson) in
      let* playlistTracks :=
        lift (get_vector WebApi_PlaylistTrack.from_json
                (WebApi_PagingObject.items pPagingObject)) in
      let '(tracks, localTracks) := visit_items playlistTracks tracks localTracks in
      match WebApi_PagingObject.next pPagingObject with
      | None => ret (tracks, localTracks)
      | Some next => GetTracksFromPlaylist_loop fuel' next tracks localTracks
      end
  end.

(** [WebApi_Backend::GetTracksFromPlaylist] *)
Definition GetTracksFromPlaylist (fuel : nat) (playlistId : string)
  : M (list WebApi_Track.t * list WebApi_LocalTrack.t) :=
  let requestUri :=
    to_uri (append_query
              (append_path new_builder ("playlists/" +:+ playlistId +:+ "/tracks"))
              "limit" (pretty kMaxItemsPerRequest_playlist)) in
  let* result := GetTracksFromPlaylist_loop fuel requestUri [] [] in
  let '(tracks, localTracks) := result in
  modify (λ w, set_trackCache (CacheObjects tracks (trackCache w)) w) ;;
  ret (tracks, localTracks).

(** [WebApi_Backend::GetTopTracksForArtist] *)
Definition GetTopTracksForArtist (artistId : string) : M (list WebApi_Track.t) :=
  let* user := GetUser in
  let countryOpt := WebApi_User.country user in
  match countryOpt with
  | None =>
      throw (QwrException
        "Adding artist top tracks requires `user-read-private` permission.
Re-login to update your permission scope.")
  | Some country =>
      let builder :=
        append_query
          (append_path (append_path (append_path new_builder "artists") artistId)
                       "top-tracks")
          "market" country in
      let* responseJson := GetJsonResponse (to_uri builder) in
      match find responseJson "tracks" with
      | None =>
          throw (QwrException "Malformed track data response response: missing `tracks`")
      | Some tracksJson =>
          let* tracks := lift (get_vector WebApi_Track.from_json tracksJson) in
          modify (λ w, set_trackCache (CacheObjects tracks (trackCache w)) w) ;;
          ret tracks
      end
  end.

End WebApi_Backend.

(** ** Concrete servers and inputs for the scenarios of the specification *)

Module Scenario.

Import WebApi_Backend.

(** A catalog track object with the given id, as the server sends it. *)
Definition track_json (id : string) : json :=
  JObject [("album", JObject [("name", JString "album")]);
           ("artists", JArray []);
           ("disc_number", JNumber 1);
           ("duration_ms", JNumber 1000);
           ("id", JString id);
           ("name", JString id);
           ("track_number", JNumber 1)].

(** The track [track_json id] decodes to. *)
Definition track_of (id : string) : WebApi_Track.t :=
  {| WebApi_Track.album := JObject [("name", JString "album")];
     WebApi_Track.artists := [];
     WebApi_Track.disc_number := 1;
     WebApi_Track.duration_ms := 1000;
     WebApi_Track.id := id;
     WebApi_Track.linked_from := None;
     WebApi_Track.restrictions := None;
     WebApi_Track.name := id;
     WebApi_Track.preview_url := None;
     WebApi_Track.track_number := 1 |}.

Definition ok_response (j : json) : http_response :=
  {| status_code := 200; reason_phrase := "OK"; headers := []; body := Some j;
     to_string := "HTTP/1.1 200 OK" |}.

Definition rate_limited (retry_after : string) : http_response :=
  {| status_code := 429; reason_phrase := "Too Many Requests";
     headers := [("Retry-After", retry_after)]; body := None;
     to_string := "HTTP/1.1 429 Too Many Requests" |}.

(** A handler that answers whatever is asked with [response]. *)
Definition always (response : http_response) : http_request → option http_response :=
  λ _, Some response.

(** A server of the several-tracks endpoint that does what is asked of it:
    it sends one track for each id of the [ids] parameter, in the order of
    the request. *)
Definition tracks_endpoint : http_request → option http_response :=
  λ req,
    let ids := Split (remove_prefix (String.length "/tracks?ids=") (request_uri req)) "," in
    Some (ok_response (JObject [("tracks", JArray (map track_json ids))])).

(** A world with nothing cached, a token at hand, and a host that never
    aborts. *)
Definition fresh (srv : list (http_request → option http_response)) : World :=
  {| server := srv; sent := []; slept := []; abort_oracle := λ _, false;
     abort_polls := 0; access_token := Some "token";
     trackCache := ∅; userCache := None |}.

(** A user with the given country in the profile. *)
Definition user_with (country : option string) : WebApi_User.t :=
  {| WebApi_User.country := country; WebApi_User.display_name := None;
     WebApi_User.id := "me" |}.

(** An older copy of the track [id], as the cache may hold it. *)
Definition stale_track (id : string) : WebApi_Track.t :=
  {| WebApi_Track.album := JNull;
     WebApi_Track.artists := [];
     WebApi_Track.disc_number := 1;
     WebApi_Track.duration_ms := 1;
     WebApi_Track.id := id;
     WebApi_Track.linked_from := None;
     WebApi_Track.restrictions := None;
     WebApi_Track.name := "stale";
     WebApi_Track.preview_url := None;
     WebApi_Track.track_number := 1 |}.

(** A world in which the user is known, the track [x] is cached in an older
    copy, and the server answers with the track [x]. *)
Definition relink_world (country : option string) : World :=
  {| server := [always (ok_response (track_json "x"))];
     sent := []; slept := []; abort_oracle := λ _, false;
     abort_polls := 0; access_token := Some "token";
     trackCache := {[ "x" := stale_track "x" ]};
     userCache := Some (user_with country) |}.

(** A world in which the user is known and the server answers with the
    tracks [a] and [b]. *)
Definition artist_world (country : option string) : World :=
  {| server := [always (ok_response (JObject [("tracks", JArray [track_json "a"; track_json "b"])]))];
     sent := []; slept := []; abort_oracle := λ _, false;
     abort_polls := 0; access_token := Some "token";
     trackCache := ∅;
     userCache := Some (user_with country) |}.

(** The id number [n], for [n] below 260: a letter and a digit. *)
Definition id_of (n : nat) : string :=
  String (ascii_of_nat (65 + n / 10)) (String (ascii_of_nat (48 + n mod 10)) EmptyString).

(** 120 ids, 100 of them different: the scenario S5. *)
Definition ids120 : list string := map id_of (seq 0 100) ++ map id_of (seq 0 20).

(** 51 ids, all different. *)
Definition ids51 : list string := map id_of (seq 0 51).

(** A handler that answers the request for [uri] with [response] and fails
    on any other request. *)
Definition serve_at (uri : string) (response : http_response)
  : http_request → option http_response :=
  λ req, if String.eqb (request_uri req) uri then Some response else None.

(** A local track, as the server sends it. *)
Definition local_json (n : nat) : json :=
  JObject [("is_local", JBool true); ("name", JString (id_of n))].

(** Item number [n] of the playlist of scenario S6: every tenth item is a
    local track. *)
Definition playlist_item_json (n : nat) : json :=
  JObject [("track", if (n mod 10 =? 9)%nat then local_json n else track_json (id_of n))].

Definition playlist_item (n : nat) : WebApi_PlaylistTrack.t :=
  {| WebApi_PlaylistTrack.track :=
       if (n mod 10 =? 9)%nat
       then inr {| WebApi_LocalTrack.raw := local_json n |}
       else inl (track_of (id_of n)) |}.

(** The page with the items [from], [from + 1], ... ([count] of them). *)
Definition page_json (from count : nat) (next : option string) : json :=
  JObject [("items", JArray (map playlist_item_json (seq from count)));
           ("next", match next with Some uri => JString uri | None => JNull end);
           ("total", JNumber 230);
           ("limit", JNumber 100);
           ("offset", JNumber (Z.of_nat from))].

Definition next_link (offset : string) : string :=
  "https://api.spotify.com/v1/playlists/p/tracks?offset=" +:+ offset +:+ "&limit=100".

(** The server of scenario S6: the playlist [p] of 230 items in pages of
    100, 100 and 30. *)
Definition playlist_server : list (http_request → option http_response) :=
  [serve_at "/playlists/p/tracks?limit=100"
     (ok_response (page_json 0 100 (Some (next_link "100"))));
   serve_at "playlists/p/tracks?offset=100&limit=100"
     (ok_response (page_json 100 100 (Some (next_link "200"))));
   serve_at "playlists/p/tracks?offset=200&limit=100"
     (ok_response (page_json 200 30 None))].

(** A playlist of three items in pages of two and one. *)
Definition small_playlist_server : list (http_request → option http_response) :=
  [serve_at "/playlists/q/tracks?limit=100"
     (ok_response (page_json 8 2 (Some "https://api.spotify.com/v1/playlists/q/tracks?offset=2")));
   serve_at "playlists/q/tracks?offset=2"
     (ok_response (page_json 10 1 None))].

(** A server of the several-tracks endpoint that leaves out every track it
    is asked for. *)
Definition forgetful_endpoint : http_request → option http_response :=
  always (ok_response (JObject [("tracks", JArray [])])).

(** The number of ids in the [ids] parameter of a request to the
    several-tracks endpoint. *)
Definition ids_asked (req : http_request) : nat :=
  List.length (Split (remove_prefix (String.length "/tracks?ids=") (request_uri req)) ",").

End Scenario.

(** ** Notions used to state the properties of the backend *)

Module Policy.

Import WebApi_Backend.

(** The host never signals an abort. *)
Definition quiet (w : World) : Prop := ∀ n, abort_oracle w n = false.

(** The number in the [Retry-After] header of a response, when there is
    one. *)
Definition retry_after (response : http_response) : option Z :=
  match find_header (headers response) "Retry-After" with
  | Some retryHeader => GetNumber retryHeader
  | None => None
  end.

(** A 429 response with a number in its [Retry-After] header. *)
Definition throttled (response : http_response) : Prop :=
  status_code response = 429%Z ∧ is_Some (retry_after response).

(** The time, in milliseconds, the engine sleeps after [response]. *)
Definition delay (response : http_response) : Z :=
  match retry_after response with
  | Some retryInMs => (retryInMs + 1000)%Z
  | None => 0%Z
  end.

(** The handlers [hs] answer the request [req] with the responses [rs],
    one each. *)
Definition answers (req : http_request) (hs : list (http_request → option http_response))
    (rs : list http_response) : Prop :=
  Forall2 (λ h r, h req = Some r) hs rs.

(** The world after [k] requests [req], answered by the first [k] handlers,
    with the sleeps [delays] in between: [rest] are the handlers left. *)
Definition after_requests (w : World) (rest : list (http_request → option http_response))
    (req : http_request) (k : nat) (delays : list Z) : World :=
  mkWorld rest (sent w ++ replicate k req) (slept w ++ delays) (abort_oracle w)
          (abort_polls w + List.length delays) (access_token w)
          (trackCache w) (userCache w).

(** The sleeps of a run of [GetResponse] that got the responses [pre] and
    then [last]: one after each 429. *)
Definition sleeps (pre : list http_response) (last : http_response) : list Z :=
  map delay pre ++ (if (status_code last =? 429)%Z then [delay last] else []).

(** From [w] to [w'] at most [k] requests were sent, and neither the
    track cache nor the token nor the host's oracle changed. *)
Definition frame (k : nat) (w w' : World) : Prop :=
  (List.length (sent w') ≤ List.length (sent w) + k)%nat ∧
  (List.length (sent w) ≤ List.length (sent w'))%nat ∧
  trackCache w' = trackCache w ∧
  access_token w' = access_token w ∧ abort_oracle w' = abort_oracle w.

(** The message [GetResponse] throws for a 429 response it cannot use. *)
Definition retry_after_error (response : http_response) : exn :=
  match find_header (headers response) "Retry-After" with
  | None =>
      QwrException "Request failed with 429 error, but does not contain a `Retry-After` header"
  | Some _ =>
      QwrException "Request failed with 429 error, but does not contain a valid number in `Retry-After` header"
  end.

(** The URI [GetTrack] asks for when relinking, by the country of the
    user. *)
Definition relink_uri (trackId : string) (country : option string) : string :=
  let builder := append_path (append_path new_builder "tracks") trackId in
  to_uri (match country with
          | Some c => append_query builder "market" c
          | None => builder
          end).

(** The URI [GetTopTracksForArtist] asks for. *)
Definition top_tracks_uri (artistId country : string) : string :=
  to_uri (append_query
            (append_path (append_path (append_path new_builder "artists") artistId)
                         "top-tracks")
            "market" country).

(** The URI of the first page of a playlist. *)
Definition playlist_uri (playlistId : string) : string :=
  to_uri (append_query
            (append_path new_builder ("playlists/" +:+ playlistId +:+ "/tracks"))
            "limit" (pretty kMaxItemsPerRequest_playlist)).

(** The response is a 200 whose body is a JSON object. *)
Definition ok_with (response : http_response) (j : json) : Prop :=
  status_code response = 200%Z ∧ body response = Some j ∧ is_object j = true.

(** The response is a page of a playlist with the items [items] and the
    link [next]. *)
Definition page_of (response : http_response) (items : list WebApi_PlaylistTrack.t)
    (next : option string) : Prop :=
  ∃ j pg, ok_with response j ∧
          WebApi_PagingObject.from_json j = Ok pg ∧
          WebApi_PagingObject.next pg = next ∧
          get_vector WebApi_PlaylistTrack.from_json (WebApi_PagingObject.items pg) = Ok items.

(** The handlers [hs] serve the pages [pages] of a playlist to a client
    that starts at [uri] and follows the links: [uris] are the URIs asked
    for, and the last page has no link. *)
Inductive paged (token : string)
  : string → list (http_request → option http_response) →
    list (list WebApi_PlaylistTrack.t) → list string → Prop :=
| paged_last uri h response items :
    h (make_request (adjust_uri uri) token) = Some response →
    page_of response items None →
    paged token uri [h] [items] [uri]
| paged_more uri h response items next hs pages uris :
    h (make_request (adjust_uri uri) token) = Some response →
    page_of response items (Some next) →
    paged token next hs pages uris →
    paged token uri (h :: hs) (items :: pages) (uri :: uris).

(** The tracks and the local tracks among the items, in their order. *)
Definition tracks_of (items : list WebApi_PlaylistTrack.t) : list WebApi_Track.t :=
  omap (λ p, match WebApi_PlaylistTrack.track p with inl t => Some t | inr _ => None end) items.

Definition local_tracks_of (items : list WebApi_PlaylistTrack.t) : list WebApi_LocalTrack.t :=
  omap (λ p, match WebApi_PlaylistTrack.track p with inl _ => None | inr l => Some l end) items.

(** The world after the requests for [uris], one after the other, all
    answered at once. *)
Definition after_pages (w : World) (rest : list (http_request → option http_response))
    (token : string) (uris : list string) : World :=
  mkWorld rest (sent w ++ map (λ uri, make_request (adjust_uri uri) token) uris)
          (slept w) (abort_oracle w) (abort_polls w + List.length uris) (access_token w)
          (trackCache w) (userCache w).

(** The URI [RefreshCacheForTracks] asks for to get the tracks [chunk]. *)
Definition tracks_uri (chunk : list string) : string :=
  to_uri (append_query (append_path new_builder "tracks") "ids" (Join chunk ",")).

(** Every track in the cache is kept under its own id. *)
Definition cache_by_id (cache : gmap string WebApi_Track.t) : Prop :=
  ∀ key track, cache !! key = Some track → WebApi_Track.id track = key.

(** The ids of [trackIds], each once, that are not cached. *)
Definition missing_ids (trackIds : list string) (cache : gmap string WebApi_Track.t)
  : list string :=
  filter (λ id, IsCached cache id = false) (elements (list_to_set trackIds : gset string)).

(** Modelled from the spec: the batch fetch pattern as the specification
    words it: the ids made a set, the cached ones removed, the rest cut into
    chunks of at most [n]. *)
Fixpoint chunks_upto (fuel n : nat) (ids : list string) : list (list string) :=
  match fuel, ids with
  | S fuel', _ :: _ => take n ids :: chunks_upto fuel' n (drop n ids)
  | _, _ => []
  end.

Definition batch_plan_spec (trackIds : list string) (cache : gmap string WebApi_Track.t)
  : list (list string) :=
  let uniqueIds := elements (list_to_set trackIds : gset string) in
  let missing := filter (λ id, IsCached cache id = false) uniqueIds in
  chunks_upto (List.length missing) kMaxItemsPerRequest_tracks missing.

End Policy.

(** ** More of [spotify_object.cpp]: the printers of a filtered track *)

Module FilteredTrack.

(** A [SpotifyFilteredTrack] holds one member, [object_]. *)
Record t : Type := mk { object_ : SpotifyObject.t }.

(** [SpotifyFilteredTrack::SpotifyFilteredTrack( std::string_view id )] *)
Definition make (id : string) : outcome t :=
  match SpotifyObject.make "track" id with
  | Ok o => Ok {| object_ := o |}
  | Throw e => Throw e
  | Diverges => Diverges
  end.

(** [SpotifyFilteredTrack::ToUri], [ToUrl], [ToSchema] *)
Definition ToUri (f : t) : string := SpotifyObject.ToUri (object_ f).
Definition ToUrl (f : t) : string := SpotifyObject.ToUrl (object_ f).
Definition ToSchema (f : t) : string := SpotifyObject.ToSchema (object_ f).

End FilteredTrack.

(** ** Notions used to state further properties of the backend *)

(** The ids of [l] that [cache] does not hold. *)
Abbreviation uncached cache l :=
  (filter (λ id, WebApi_Backend.IsCached cache id = false) l).

(** ** More of the decoded objects: [webapi_track.h] *)

Module WebApi_Track_Simplified.

(** [struct WebApi_Track_Simplified] of [webapi_track.h].  As in
    [WebApi_Track.t], the members whose structs are only declared keep the
    JSON they were read from. *)
Record t : Type := mk {
  artists : list json;
  disc_number : Z;
  duration_ms : Z;
  id : string;
  linked_from : option json;
  restrictions : option json;
  name : string;
  preview_url : option string;
  track_number : Z
}.

(** Modelled from the spec: [from_json( const nlohmann::json&,
    WebApi_Track_Simplified& )] is declared in [webapi_track.h] and defined
    in a file that is missing.  As for [WebApi_Track]: the members that are
    not optional are required and of the type the struct gives them. *)
Definition from_json (j : json) : outcome t :=
  obind (obind (at_ j "artists") get_array) (λ artists,
  obind (obind (at_ j "disc_number") get_uint32) (λ disc_number,
  obind (obind (at_ j "duration_ms") get_uint32) (λ duration_ms,
  obind (obind (at_ j "id") get_string) (λ id,
  obind (get_optional Ok j "linked_from") (λ linked_from,
  obind (get_optional Ok j "restrictions") (λ restrictions,
  obind (obind (at_ j "name") get_string) (λ name,
  obind (get_optional get_string j "preview_url") (λ preview_url,
  obind (obind (at_ j "track_number") get_uint32) (λ track_number,
  Ok {| artists := artists; disc_number := disc_number;
        duration_ms := duration_ms; id := id; linked_from := linked_from;
        restrictions := restrictions; name := name; preview_url := preview_url;
        track_number := track_number |}))))))))).

(** Modelled from the spec: the constructor
    [WebApi_Track( std::unique_ptr<WebApi_Track_Simplified>,
    std::shared_ptr<const WebApi_Album_Simplified> )] is declared in
    [webapi_track.h] and defined in a file that is missing.  The track takes
    over the members of the simplified track and holds the album. *)
Definition to_track (trackSimplified : t) (albumSimplified : json) : WebApi_Track.t :=
  {| WebApi_Track.album := albumSimplified;
     WebApi_Track.artists := artists trackSimplified;
     WebApi_Track.disc_number := disc_number trackSimplified;
     WebApi_Track.duration_ms := duration_ms trackSimplified;
     WebApi_Track.id := id trackSimplified;
     WebApi_Track.linked_from := linked_from trackSimplified;
     WebApi_Track.restrictions := restrictions trackSimplified;
     WebApi_Track.name := name trackSimplified;
     WebApi_Track.preview_url := preview_url trackSimplified;
     WebApi_Track.track_number := track_number trackSimplified |}.

End WebApi_Track_Simplified.

(** ** More of the backend: [GetTracksFromAlbum] *)

Module AlbumTracks.

Import WebApi_Backend.

(** Modelled from the spec: [responseJson.get_to( album )] decodes a
    [WebApi_Album_Simplified], whose struct and decoder are missing; as in
    [WebApi_Track.t] the album keeps the JSON object it is read from. *)
Definition album_from_json (j : json) : outcome json := Ok j.

(** The lambda that gets the JSON of the next paging object: the first one
    comes with the album, the others from the link of the page before. *)
Definition next_paging_json (albumId : string) (album : json) (requestUri : string)
  : M (json * json) :=
  if empty requestUri then
    let builder := append_path new_builder ("albums/" +:+ albumId) in
    let* responseJson := GetJsonResponse (to_uri builder) in
    let* album := lift (album_from_json responseJson) in
    match find responseJson "tracks" with
    | None => throw (QwrException "Malformed track data response: missing `tracks`")
    | Some tracks => ret (album, tracks)
    end
  else
    let* responseJson := GetJsonResponse requestUri in
    ret (album, responseJson).

(** The loop [while ( true )] of [GetTracksFromAlbum]; [album] starts as the
    null pointer and [requestUri] as the empty URI. *)
Fixpoint GetTracksFromAlbum_loop (fuel : nat) (albumId : string) (album : json)
    (requestUri : string) (ret_ : list WebApi_Track_Simplified.t)
  : M (json * list WebApi_Track_Simplified.t) :=
  match fuel with
  | O => diverge
  | S fuel' =>
      let* p := next_paging_json albumId album requestUri in
      let '(album, responseJson) := p in
      let* pPagingObject := lift (WebApi_PagingObject.from_json responseJson) in
      let* newData :=
        lift (get_vector WebApi_Track_Simplified.from_json
                (WebApi_PagingObject.items pPagingObject)) in
      let ret_ := ret_ ++ newData in
      match WebApi_PagingObject.next pPagingObject with
      | None => ret (album, ret_)
      | Some next => GetTracksFromAlbum_loop fuel' albumId album next ret_
      end
  end.

(** [WebApi_Backend::GetTracksFromAlbum] *)
Definition GetTracksFromAlbum (fuel : nat) (albumId : string) : M (list WebApi_Track.t) :=
  let* result := GetTracksFromAlbum_loop fuel albumId JNull EmptyString [] in
  let '(album, ret_) := result in
  let newRet := map (λ elem, WebApi_Track_Simplified.to_track elem album) ret_ in
  modify (λ w, set_trackCache (CacheObjects newRet (trackCache w)) w) ;;
  ret newRet.

(** The URI of an album. *)
Definition album_uri (albumId : string) : string :=
  to_uri (append_path new_builder ("albums/" +:+ albumId)).

(** The JSON value is a page of simplified tracks with the items [items] and
    the link [next]. *)
Definition simplified_page (j : json) (items : list WebApi_Track_Simplified.t)
    (next : option string) : Prop :=
  ∃ pg, WebApi_PagingObject.from_json j = Ok pg ∧
        WebApi_PagingObject.next pg = next ∧
        get_vector WebApi_Track_Simplified.from_json (WebApi_PagingObject.items pg) = Ok items.

(** The handlers [hs] serve the pages [pages] that follow the link [next]:
    [uris] are the URIs asked for, none of them empty, and the last page
    has no link. *)
Inductive album_rest (token : string)
  : option string → list (http_request → option http_response) →
    list (list WebApi_Track_Simplified.t) → list string → Prop :=
| album_rest_done : album_rest token None [] [] []
| album_rest_more uri h response j items next hs pages uris :
    uri ≠ EmptyString →
    h (make_request (adjust_uri uri) token) = Some response →
    Policy.ok_with response j →
    simplified_page j items next →
    album_rest token next hs pages uris →
    album_rest token (Some uri) (h :: hs) (items :: pages) (uri :: uris).

End AlbumTracks.

Module AlbumScenario.

Import WebApi_Backend Scenario.

(** A track of an album, as the album endpoints send it: a catalog track
    without its album. *)
Definition simplified_json (id : string) : json :=
  JObject [("artists", JArray []);
           ("disc_number", JNumber 1);
           ("duration_ms", JNumber 1000);
           ("id", JString id);
           ("name", JString id);
           ("track_number", JNumber 1)].

(** The track [simplified_json id] decodes to. *)
Definition simplified_of (id : string) : WebApi_Track_Simplified.t :=
  {| WebApi_Track_Simplified.artists := [];
     WebApi_Track_Simplified.disc_number := 1;
     WebApi_Track_Simplified.duration_ms := 1000;
     WebApi_Track_Simplified.id := id;
     WebApi_Track_Simplified.linked_from := None;
     WebApi_Track_Simplified.restrictions := None;
     WebApi_Track_Simplified.name := id;
     WebApi_Track_Simplified.preview_url := None;
     WebApi_Track_Simplified.track_number := 1 |}.

(** A page of album tracks. *)
Definition album_page_json (ids : list string) (next : option string) : json :=
  JObject [("items", JArray (map simplified_json ids));
           ("next", match next with Some uri => JString uri | None => JNull end);
           ("total", JNumber 3);
           ("limit", JNumber 2);
           ("offset", JNumber 0)].

(** The album [a] with its first two tracks and a link to the third. *)
Definition album_json : json :=
  JObject [("name", JString "a");
           ("tracks",
            album_page_json ["t1"; "t2"]
              (Some "https://api.spotify.com/v1/albums/a/tracks?offset=2"))].

(** A server of the album [a]: the album with the first page, then the
    second page at the link of the first. *)
Definition album_server : list (http_request → option http_response) :=
  [serve_at "/albums/a" (ok_response album_json);
   serve_at "albums/a/tracks?offset=2" (ok_response (album_page_json ["t3"] None))].

End AlbumScenario.

(** ** The login part of the preferences page: [ui_preferences.cpp] *)

Module Preferences.

(** The enumerators of [LoginStatus] that [ui_preferences.cpp] uses. *)
Inductive LoginStatus : Type :=
| fetching_login_status
| logged_out
| login_in_progress
| logged_in.

(** What the page reads and writes of a button: whether it is enabled, and
    its text. *)
Record CButton : Type := mkButton {
  IsWindowEnabled : bool;
  btn_text : string
}.

Definition EnableWindow (b : bool) (btn : CButton) : CButton :=
  {| IsWindowEnabled := b; btn_text := btn_text btn |}.

Definition SetWindowText (s : string) (btn : CButton) : CButton :=
  {| IsWindowEnabled := IsWindowEnabled btn; btn_text := s |}.

(** The members of [Preferences] that the login handlers use; a static
    text is the string it shows. *)
Record t : Type := mk {
  libSpotifyStatus_ : LoginStatus;
  webApiStatus_ : LoginStatus;
  btnLibSpotify_ : CButton;
  btnWebApi_ : CButton;
  textLibSpotify_ : string;
  textWebApi_ : string
}.

(** [Preferences::UpdateBackendUi]; [getUserNameFn] is what the callback
    returns when it is called. *)
Definition UpdateBackendUi (loginStatus : LoginStatus) (btn : CButton) (text : string)
    (getUserNameFn : string) : CButton * string :=
  match loginStatus with
  | fetching_login_status =>
      let btn := if IsWindowEnabled btn then EnableWindow false btn else btn in
      (SetWindowText "Log in" btn, "status: verifying login status")
  | logged_out =>
      let btn := if negb (IsWindowEnabled btn) then EnableWindow true btn else btn in
      (SetWindowText "Log in" btn, "status: logged out")
  | login_in_progress =>
      let btn := if IsWindowEnabled btn then EnableWindow false btn else btn in
      (SetWindowText "Log in" btn, "status: login in progress...")
  | logged_in =>
      let btn := if negb (IsWindowEnabled btn) then EnableWindow true btn else btn in
      (SetWindowText "Log out" btn, "status: logged in as `" +:+ getUserNameFn +:+ "`")
  end.

(** [Preferences::UpdateLibSpotifyUi] *)
Definition UpdateLibSpotifyUi (getUsername : string) (p : t) : t :=
  let '(btn, text) :=
    UpdateBackendUi (libSpotifyStatus_ p) (btnLibSpotify_ p) (textLibSpotify_ p) getUsername in
  {| libSpotifyStatus_ := libSpotifyStatus_ p; webApiStatus_ := webApiStatus_ p;
     btnLibSpotify_ := btn; btnWebApi_ := btnWebApi_ p;
     textLibSpotify_ := text; textWebApi_ := textWebApi_ p |}.

(** [Preferences::UpdateWebApiUi] *)
Definition UpdateWebApiUi (getUsername : string) (p : t) : t :=
  let '(btn, text) :=
    UpdateBackendUi (webApiStatus_ p) (btnWebApi_ p) (textWebApi_ p) getUsername in
  {| libSpotifyStatus_ := libSpotifyStatus_ p; webApiStatus_ := webApiStatus_ p;
     btnLibSpotify_ := btnLibSpotify_ p; btnWebApi_ := btn;
     textLibSpotify_ := textLibSpotify_ p; textWebApi_ := text |}.

Definition set_libSpotifyStatus (s : LoginStatus) (p : t) : t :=
  {| libSpotifyStatus_ := s; webApiStatus_ := webApiStatus_ p;
     btnLibSpotify_ := btnLibSpotify_ p; btnWebApi_ := btnWebApi_ p;
     textLibSpotify_ := textLibSpotify_ p; textWebApi_ := textWebApi_ p |}.

Definition set_webApiStatus (s : LoginStatus) (p : t) : t :=
  {| libSpotifyStatus_ := libSpotifyStatus_ p; webApiStatus_ := s;
     btnLibSpotify_ := btnLibSpotify_ p; btnWebApi_ := btnWebApi_ p;
     textLibSpotify_ := textLibSpotify_ p; textWebApi_ := textWebApi_ p |}.

(** [Preferences::OnLibSpotifyLoginClick]; [loginWithUI] is the result of
    [LoginWithUI] when it is called. *)
Definition OnLibSpotifyLoginClick (loginWithUI : bool) (getUsername : string) (p : t) : t :=
  let p :=
    match libSpotifyStatus_ p with
    | logged_out => set_libSpotifyStatus (if loginWithUI then logged_in else logged_out) p
    | _ => set_libSpotifyStatus logged_out p
    end in
  UpdateLibSpotifyUi getUsername p.

(** [Preferences::OnWebApiLoginClick]; [authenticateThrows] says whether
    [AuthenticateClean] throws when it is called. *)
Definition OnWebApiLoginClick (authenticateThrows : bool) (getUsername : string) (p : t) : t :=
  match webApiStatus_ p with
  | logged_out =>
      let p := UpdateWebApiUi getUsername (set_webApiStatus login_in_progress p) in
      if authenticateThrows
      then UpdateWebApiUi getUsername (set_webApiStatus logged_out p)
      else p
  | _ => UpdateWebApiUi getUsername (set_webApiStatus logged_out p)
  end.

(** [Preferences::OnWebApiLoginResponse]; [isAuthenticated] is the result
    of [IsAuthenticated]. *)
Definition OnWebApiLoginResponse (isAuthenticated : bool) (getUsername : string) (p : t) : t :=
  UpdateWebApiUi getUsername
    (set_webApiStatus (if isAuthenticated then logged_in else logged_out) p).

(** [Preferences::OnStatusUpdateFinish] *)
Definition OnStatusUpdateFinish (wParam lParam : bool) (lsUsername waUsername : string)
    (p : t) : t :=
  let p := set_libSpotifyStatus (if wParam then logged_in else logged_out) p in
  let p := set_webApiStatus (if lParam then logged_in else logged_out) p in
  UpdateWebApiUi waUsername (UpdateLibSpotifyUi lsUsername p).

(** The messages of the login part of the page, each with what the
    backends answer while it is handled. *)
Inductive message : Type :=
| LibSpotifyLoginClick (loginWithUI : bool) (getUsername : string)
| WebApiLoginClick (authenticateThrows : bool) (getUsername : string)
| WebApiLoginResponse (isAuthenticated : bool) (getUsername : string)
| StatusUpdateFinish (wParam lParam : bool) (lsUsername waUsername : string).

Definition handle (p : t) (m : message) : t :=
  match m with
  | LibSpotifyLoginClick loginWithUI getUsername =>
      OnLibSpotifyLoginClick loginWithUI getUsername p
  | WebApiLoginClick authenticateThrows getUsername =>
      OnWebApiLoginClick authenticateThrows getUsername p
  | WebApiLoginResponse isAuthenticated getUsername =>
      OnWebApiLoginResponse isAuthenticated getUsername p
  | StatusUpdateFinish wParam lParam lsUsername waUsername =>
      OnStatusUpdateFinish wParam lParam lsUsername waUsername p
  end.

(** What [OnInitDialog] does to the login part: it ends with the two
    updates.  The messages are handled one after the other. *)
Definition OnInitDialog (lsUsername waUsername : string) (p : t) : t :=
  UpdateWebApiUi waUsername (UpdateLibSpotifyUi lsUsername p).

Definition run (p : t) (messages : list message) : t := fold_left handle messages p.

(** A button shows the status: it can be clicked exactly when the status is
    settled, and it offers to log out exactly when logged in. *)
Definition shows (status : LoginStatus) (btn : CButton) (text : string) : Prop :=
  (IsWindowEnabled btn = true ↔ status = logged_out ∨ status = logged_in) ∧
  (btn_text btn = "Log out" ↔ status = logged_in) ∧
  (btn_text btn = "Log in" ↔ status ≠ logged_in) ∧
  (text = "status: logged out" ↔ status = logged_out).

(** Both buttons show the status of their backends. *)
Definition page_shows (p : t) : Prop :=
  shows (libSpotifyStatus_ p) (btnLibSpotify_ p) (textLibSpotify_ p) ∧
  shows (webApiStatus_ p) (btnWebApi_ p) (textWebApi_ p).

End Preferences.

(** * Properties of the identifier model *)

#[local] Arguments String.append !s1 s2 : simpl nomatch.

Section StringViewFacts.

Lemma starts_with_spec s p : starts_with s p = true ↔ has_prefix p s.
Proof.
  revert s. induction p as [|c p IH]; intros s; simpl.
  - split; [intros _; exists s; reflexivity | done].
  - destruct s as [|d s]; simpl.
    + split; [done | intros [t Ht]; discriminate].
    + destruct (Ascii.eqb_spec c d) as [->|Hne].
      * rewrite IH. split; intros [t Ht]; exists t; simpl in *; congruence.
      * split; [done | intros [t Ht]; simpl in Ht; congruence].
Qed.

Lemma starts_with_app p t : starts_with (p +:+ t) p = true.
Proof. apply starts_with_spec. by exists t. Qed.

Lemma remove_prefix_app p t : remove_prefix (String.length p) (p +:+ t) = t.
Proof. induction p; simpl; auto. Qed.

Lemma Split_not_nil s sep : Split s sep ≠ [].
Proof.
  destruct s as [|c s]; simpl; [done|].
  destruct (Ascii.eqb c sep); [done|]. by destruct (Split s sep).
Qed.

Lemma Split_no_sep s sep : contains sep s = false → Split s sep = [s].
Proof.
  induction s as [|c s IH]; simpl; [done|].
  intros [Hc Hs]%orb_false_elim. rewrite Hc, IH; done.
Qed.

Lemma Split_app_sep a b sep :
  contains sep a = false → Split (a +:+ String sep b) sep = a :: Split b sep.
Proof.
  induction a as [|c a IH]; simpl.
  - intros _. by rewrite Ascii.eqb_refl.
  - intros [Hc Ha]%orb_false_elim. rewrite Hc, IH; done.
Qed.

(** A split with a single field means the separator does not occur. *)
Lemma Split_singleton s sep : List.length (Split s sep) = 1 → contains sep s = false.
Proof.
  induction s as [|c s IH]; simpl; [done|].
  destruct (Ascii.eqb c sep) eqn:Hc; simpl.
  - intros H. pose proof (Split_not_nil s sep). destruct (Split s sep); simpl in *; [done | lia].
  - destruct (Split s sep) eqn:E; simpl in *; [by destruct (Split_not_nil s sep) | auto].
Qed.

Lemma Split_fields_no_sep s sep : Forall (λ w, contains sep w = false) (Split s sep).
Proof.
  induction s as [|c s IH]; simpl.
  - by constructor.
  - destruct (Ascii.eqb c sep) eqn:Hc.
    + by constructor.
    + destruct (Split s sep) as [|w ws]; [by constructor; [simpl; rewrite Hc|]|].
      inversion_clear IH. constructor; [simpl; by rewrite Hc | done].
Qed.

Lemma find_None s c : StringView.find s c = None ↔ contains c s = false.
Proof.
  induction s as [|d s IH]; simpl; [done|].
  destruct (Ascii.eqb d c); simpl; [done|].
  rewrite <- IH. destruct (StringView.find s c); simpl; split; congruence.
Qed.

Lemma substr0_find s c pos :
  StringView.find s c = Some pos →
  contains c (substr0 pos s) = false ∧ String.length (substr0 pos s) < String.length s.
Proof.
  revert pos. induction s as [|d s IH]; simpl; [done|].
  intros pos. destruct (Ascii.eqb d c) eqn:Hd.
  - intros [= <-]. simpl. split; [done | lia].
  - destruct (StringView.find s c) as [q|]; simpl; [|done].
    intros [= <-]. simpl. rewrite Hd. destruct (IH q eq_refl). split; [done | lia].
Qed.

Lemma append_assoc (a b c : string) : (a +:+ b) +:+ c = a +:+ (b +:+ c).
Proof. induction a as [|d a IH]; simpl; [done | by rewrite IH]. Qed.

Lemma contains_app c a b : contains c (a +:+ b) = contains c a || contains c b.
Proof. induction a as [|d a IH]; simpl; [done|]. by rewrite IH, orb_assoc. Qed.

Lemma nth_Forall {A} (P : A → Prop) l n d : Forall P l → n < List.length l → P (nth n l d).
Proof.
  intros HF. revert n. induction HF; intros [|n]; simpl; try lia; auto.
  intros. apply IHHF. lia.
Qed.

End StringViewFacts.

Section SpotifyObjectFacts.

Import SpotifyObject.

Lemma IsValidType_cases ty :
  IsValidType ty = true ↔ ty = "track" ∨ ty = "album" ∨ ty = "playlist".
Proof.
  unfold IsValidType. rewrite !orb_true_iff, !String.eqb_eq. tauto.
Qed.

Lemma IsValidType_no_sep ty :
  IsValidType ty = true →
  ty ≠ EmptyString ∧ contains ":" ty = false ∧ contains "/" ty = false.
Proof. intros [-> | [-> | ->]]%IsValidType_cases; done. Qed.

(** Parsing what [ToUri] printed: the fields come back as they were. *)
Lemma Split_ToUri o :
  IsValidType (type o) = true →
  Split (ToUri o) ":" = "spotify" :: type o :: Split (id o) ":".
Proof.
  intros Hty. destruct (IsValidType_no_sep _ Hty) as (_ & Hc & _).
  unfold ToUri.
  change ("spotify:" +:+ type o +:+ ":" +:+ id o)
    with ("spotify" +:+ String ":" (type o +:+ String ":" (id o))).
  rewrite Split_app_sep by done. by rewrite Split_app_sep.
Qed.

Lemma parse_uri_form ty rest :
  IsValidType ty = true →
  parse ("spotify:" +:+ ty +:+ rest) =
    let ret := Split ("spotify:" +:+ ty +:+ rest) ":" in
    ExpectTrue (Nat.eqb (List.length ret) 3) "Invalid URI" (
      ExpectTrue (String.eqb (nth 0 ret EmptyString) "spotify") "Invalid URI" (
        ExpectTrue (IsValidType (nth 1 ret EmptyString))
          ("Unsupported Spotify object: " +:+ nth 1 ret EmptyString) (
          ExpectTrue (negb (empty (nth 2 ret EmptyString)))
            ("Invalid Spotify object id: " +:+ nth 2 ret EmptyString) (
            Ok {| type := nth 1 ret EmptyString; id := nth 2 ret EmptyString |})))).
Proof. intros [-> | [-> | ->]]%IsValidType_cases; reflexivity. Qed.

Lemma parse_schema_form ty rest :
  parse ("sptf://spotify:" +:+ ty +:+ rest) = parse ("spotify:" +:+ ty +:+ rest).
Proof. reflexivity. Qed.

Lemma roundtrip_uri o :
  IsValidType (type o) = true →
  (parse (ToUri o) = Ok o ↔ id o ≠ EmptyString ∧ contains ":" (id o) = false).
Proof.
  intros Hty. unfold ToUri at 1. rewrite parse_uri_form by done.
  fold (ToUri o). rewrite Split_ToUri by done. cbn zeta.
  split.
  - intros H. unfold ExpectTrue in H.
    destruct (Nat.eqb_spec (List.length ("spotify" :: type o :: Split (id o) ":")) 3)
      as [Hlen|]; [|done].
    simpl in Hlen. assert (Hone : List.length (Split (id o) ":") = 1) by lia.
    apply Split_singleton in Hone. split; [|done].
    rewrite (Split_no_sep _ _ Hone) in H. simpl in H. rewrite Hty in H.
    destruct (id o); simpl in H; done.
  - intros [Hne Hc]. rewrite (Split_no_sep _ _ Hc). simpl.
    unfold ExpectTrue. rewrite Hty. destruct o as [ty i]; simpl in *.
    destruct i; simpl; done.
Qed.

Lemma roundtrip_schema o :
  IsValidType (type o) = true →
  (parse (ToSchema o) = Ok o ↔ id o ≠ EmptyString ∧ contains ":" (id o) = false).
Proof.
  intros Hty. rewrite <- (roundtrip_uri o Hty).
  unfold ToSchema, ToUri. by rewrite parse_schema_form.
Qed.

Lemma parse_url_form rest :
  parse ("https://open.spotify.com/" +:+ rest) =
    let ret := Split rest "/" in
    ExpectTrue (Nat.eqb (List.length ret) 2) "Invalid URL" (
      let localType := nth 0 ret EmptyString in
      ExpectTrue (IsValidType localType) ("Unsupported Spotify object: " +:+ localType) (
        let localId :=
          match StringView.find (nth 1 ret EmptyString) "?" with
          | None => nth 1 ret EmptyString
          | Some pos => substr0 pos (nth 1 ret EmptyString)
          end in
        ExpectTrue (negb (empty localId)) ("Invalid Spotify object id: " +:+ localId) (
          Ok {| type := localType; id := localId |}))).
Proof. reflexivity. Qed.

Lemma roundtrip_url o :
  IsValidType (type o) = true →
  (parse (ToUrl o) = Ok o ↔
   id o ≠ EmptyString ∧ contains "/" (id o) = false ∧ contains "?" (id o) = false).
Proof.
  intros Hty. destruct (IsValidType_no_sep _ Hty) as (_ & _ & Hs).
  unfold ToUrl. rewrite parse_url_form.
  change (type o +:+ "/" +:+ id o) with (type o +:+ String "/" (id o)).
  rewrite Split_app_sep by done. cbn zeta.
  split.
  - intros H. unfold ExpectTrue in H.
    destruct (Nat.eqb_spec (List.length (type o :: Split (id o) "/")) 2) as [Hlen|]; [|done].
    simpl in Hlen. assert (Hone : List.length (Split (id o) "/") = 1) by lia.
    apply Split_singleton in Hone.
    rewrite (Split_no_sep _ _ Hone) in H. simpl in H. rewrite Hty in H.
    destruct (StringView.find (id o) "?") as [pos|] eqn:Hf.
    + destruct (substr0_find _ _ _ Hf) as [_ Hlt].
      destruct (empty (substr0 pos (id o))); simpl in H; [done|].
      injection H as H. destruct o as [ty i]; simpl in *.
      injection H as H. rewrite H in Hlt. lia.
    + apply find_None in Hf. destruct (id o); simpl in *; done.
  - intros (Hne & Hsl & Hq). rewrite (Split_no_sep _ _ Hsl). simpl.
    apply find_None in Hq. rewrite Hq. unfold ExpectTrue. rewrite Hty.
    destruct o as [ty i]; simpl in *. destruct i; simpl; done.
Qed.

End SpotifyObjectFacts.

Section IdentifierClaims.

Import SpotifyObject.

Lemma contains_substr0 c n s : contains c s = false → contains c (substr0 n s) = false.
Proof.
  revert n. induction s as [|d s IH]; intros [|n]; simpl; try done.
  intros [Hd Hs]%orb_false_elim. rewrite Hd. simpl. auto.
Qed.

Lemma ExpectTrue_Ok {A} cond msg (k : outcome A) a :
  ExpectTrue cond msg k = Ok a → cond = true ∧ k = Ok a.
Proof. destruct cond; simpl; [done | discriminate]. Qed.

Lemma empty_false s : negb (empty s) = true → s ≠ EmptyString.
Proof. by destruct s. Qed.

(** C1, as amended: for an object [o] of a supported type, parsing [ToUri o]
    gives [o] back exactly when the id of [o] is not empty and has no colon
    in it, the same holds of [ToSchema o], and parsing [ToUrl o] gives [o]
    back exactly when the id is not empty and has neither a slash nor a
    question mark in it.  The track of the specification's scenario is
    parsed to its type and id and printed back to the three strings the
    specification lists. *)
Theorem format_parse_roundtrip (o : t) (Hty : IsValidType (type o) = true) :
  (parse (ToUri o) = Ok o ↔ id o ≠ EmptyString ∧ contains ":" (id o) = false) ∧
  (parse (ToSchema o) = Ok o ↔ id o ≠ EmptyString ∧ contains ":" (id o) = false) ∧
  (parse (ToUrl o) = Ok o ↔
     id o ≠ EmptyString ∧ contains "/" (id o) = false ∧ contains "?" (id o) = false) ∧
  (let s1 := {| type := "track"; id := "4cOdK2wGLETKBW3PvgPWqT" |} in
   parse "spotify:track:4cOdK2wGLETKBW3PvgPWqT" = Ok s1 ∧
   ToUri s1 = "spotify:track:4cOdK2wGLETKBW3PvgPWqT" ∧
   ToUrl s1 = "https://open.spotify.com/track/4cOdK2wGLETKBW3PvgPWqT" ∧
   ToSchema s1 = "sptf://spotify:track:4cOdK2wGLETKBW3PvgPWqT" ∧
   parse (ToUri s1) = Ok s1 ∧ parse (ToUrl s1) = Ok s1 ∧ parse (ToSchema s1) = Ok s1).
Proof.
  split; [by apply roundtrip_uri|].
  split; [by apply roundtrip_schema|].
  split; [by apply roundtrip_url|].
  cbv zeta. repeat split; vm_compute; reflexivity.
Qed.

Lemma format_parse_roundtrip_witness :
  let o := {| type := "album"; id := "1DFixLWuPkv3KT3TnV35m3" |} in
  IsValidType (type o) = true ∧
  parse (ToUri o) = Ok o ∧ parse (ToSchema o) = Ok o ∧ parse (ToUrl o) = Ok o.
Proof.
  intros o.
  destruct (format_parse_roundtrip o eq_refl) as (Huri & Hschema & Hurl & _).
  split; [reflexivity|].
  split; [apply Huri; split; [discriminate | reflexivity]|].
  split; [apply Hschema; split; [discriminate | reflexivity]|].
  apply Hurl; split; [discriminate | split; reflexivity].
Defined.

(** C1 as stated fails: the two-argument constructor accepts the id
    [a:b], and neither [ToUri] nor [ToSchema] of that object parses; the
    URI parser accepts the id [a/b?c], and [ToUrl] of that object does not
    parse. *)
Lemma format_parse_roundtrip_counterexample :
  let o := {| type := "track"; id := "a:b" |} in
  let p := {| type := "track"; id := "a/b?c" |} in
  make "track" "a:b" = Ok o ∧
  parse (ToUri o) = Throw (QwrException "Invalid URI") ∧
  parse (ToSchema o) = Throw (QwrException "Invalid URI") ∧
  parse "spotify:track:a/b?c" = Ok p ∧
  parse (ToUrl p) = Throw (QwrException "Invalid URL") ∧
  ¬ (∀ o : t, IsValidType (type o) = true →
       parse (ToUri o) = Ok o ∧ parse (ToUrl o) = Ok o ∧ parse (ToSchema o) = Ok o).
Proof.
  cbv zeta. repeat split; try (vm_compute; reflexivity).
  intros H. destruct (H {| type := "track"; id := "a:b" |} eq_refl) as [Hu _].
  vm_compute in Hu. discriminate.
Qed.

(** C7, as amended: an object made by either constructor has one of the
    three supported types, so its type is not empty.  An object made by
    parsing has an id that is not empty; parsed from the URL form its id has
    no question mark and no slash, parsed from the URI form its id has no
    colon. *)
Theorem constructed_object_invariant (o : t) :
  (∀ ty i, make ty i = Ok o →
     (type o = "track" ∨ type o = "album" ∨ type o = "playlist") ∧
     type o ≠ EmptyString ∧ type o = ty) ∧
  (∀ input, parse input = Ok o →
     (type o = "track" ∨ type o = "album" ∨ type o = "playlist") ∧
     type o ≠ EmptyString ∧ id o ≠ EmptyString ∧
     (url_form input = true →
        contains "?" (id o) = false ∧ contains "/" (id o) = false) ∧
     (url_form input = false → contains ":" (id o) = false)).
Proof.
  split.
  - intros ty i H. unfold make in H. apply ExpectTrue_Ok in H as [Hty [= <-]]. simpl.
    split; [by apply IsValidType_cases|].
    split; [by apply IsValidType_no_sep | done].
  - intros input H. unfold parse in H. fold (without_schema input) in H.
    unfold url_form. destruct (starts_with (without_schema input) urlPrefix).
    + cbv zeta in H.
      set (ret := Split _ "/") in H.
      apply ExpectTrue_Ok in H as [Hlen H]. apply Nat.eqb_eq in Hlen.
      apply ExpectTrue_Ok in H as [Hty H].
      apply ExpectTrue_Ok in H as [Hne H]. injection H as <-. simpl.
      split; [by apply IsValidType_cases|].
      split; [by apply IsValidType_no_sep|].
      split; [by apply empty_false|].
      split; [|done]. intros _.
      assert (Hsl : contains "/" (nth 1 ret EmptyString) = false).
      { apply (nth_Forall (λ w, contains "/" w = false)); [apply Split_fields_no_sep | lia]. }
      destruct (StringView.find (nth 1 ret EmptyString) "?") as [pos|] eqn:Hf.
      * split; [by apply (substr0_find _ _ _ Hf) | by apply contains_substr0].
      * split; [by apply find_None | done].
    + set (ret := Split _ ":") in H.
      apply ExpectTrue_Ok in H as [Hlen H]. apply Nat.eqb_eq in Hlen.
      apply ExpectTrue_Ok in H as [_ H].
      apply ExpectTrue_Ok in H as [Hty H].
      apply ExpectTrue_Ok in H as [Hne H]. injection H as <-. simpl.
      split; [by apply IsValidType_cases|].
      split; [by apply IsValidType_no_sep|].
      split; [by apply empty_false|].
      split; [done|]. intros _.
      apply (nth_Forall (λ w, contains ":" w = false)); [apply Split_fields_no_sep | lia].
Qed.

Lemma constructed_object_invariant_witness :
  let o := {| type := "album"; id := "1DFixLWuPkv3KT3TnV35m3" |} in
  make "album" "1DFixLWuPkv3KT3TnV35m3" = Ok o ∧
  parse "https://open.spotify.com/album/1DFixLWuPkv3KT3TnV35m3?si=abc" = Ok o ∧
  type o ≠ EmptyString ∧ id o ≠ EmptyString ∧
  contains "?" (id o) = false ∧ contains "/" (id o) = false.
Proof.
  intros o.
  destruct (constructed_object_invariant o) as [Hmake Hparse].
  destruct (Hmake "album" "1DFixLWuPkv3KT3TnV35m3" eq_refl) as (_ & Hty & _).
  destruct (Hparse "https://open.spotify.com/album/1DFixLWuPkv3KT3TnV35m3?si=abc" eq_refl)
    as (_ & _ & Hid & Hurl & _).
  destruct (Hurl eq_refl) as [Hq Hs].
  repeat split; assumption.
Defined.

(** C7 as stated fails: the two-argument constructor makes an object with
    an empty id, and the URI parser makes one whose id has a slash and a
    question mark in it. *)
Lemma constructed_object_invariant_counterexample :
  (∃ o, make "track" EmptyString = Ok o ∧ ¬ invariant o) ∧
  (∃ o, parse "spotify:track:a/b?c" = Ok o ∧ ¬ invariant o).
Proof.
  split.
  - exists {| type := "track"; id := EmptyString |}. split; [reflexivity|].
    intros (_ & Hid & _). by apply Hid.
  - exists {| type := "track"; id := "a/b?c" |}. split; [reflexivity|].
    intros (_ & _ & _ & _ & Hs). vm_compute in Hs. discriminate.
Qed.

(** C9: with [usePurePathOnly] set, [SpotifyFilteredTrack::IsValid] holds
    exactly of the inputs that are [sptf://] followed by a string that
    starts with [spotify:track:]; without it, the [sptf://] is optional: it
    is removed when it is there, and what remains must start with
    [spotify:track:]. *)
Theorem filtered_track_IsValid_spec (input : string) :
  (SpotifyFilteredTrack.IsValid input true = true ↔
     ∃ rest, input = "sptf://" +:+ rest ∧ has_prefix "spotify:track:" rest) ∧
  (SpotifyFilteredTrack.IsValid input false = true ↔
     (∃ rest, input = "sptf://" +:+ rest ∧ has_prefix "spotify:track:" rest) ∨
     (¬ has_prefix "sptf://" input ∧ has_prefix "spotify:track:" input)) ∧
  SpotifyFilteredTrack.IsValid input false =
    starts_with (without_schema input) "spotify:track:".
Proof.
  assert (Hstrip : ∀ b,
    starts_with input schemaPrefix = true →
    (SpotifyFilteredTrack.IsValid input b = true ↔
     ∃ rest, input = "sptf://" +:+ rest ∧ has_prefix "spotify:track:" rest)).
  { intros b Hp. unfold SpotifyFilteredTrack.IsValid. rewrite Hp.
    apply starts_with_spec in Hp as [rest ->].
    rewrite (remove_prefix_app schemaPrefix rest), starts_with_spec.
    split.
    - intros H. by exists rest.
    - intros (rest' & Heq & H). by injection Heq as ->. }
  destruct (starts_with input schemaPrefix) eqn:Hp.
  - split; [by apply Hstrip|]. split.
    + rewrite (Hstrip false eq_refl). split; [by left|].
      intros [H | [Hn _]]; [done|]. destruct Hn. by apply starts_with_spec.
    + unfold SpotifyFilteredTrack.IsValid, without_schema. by rewrite Hp.
  - assert (Hno : ¬ has_prefix "sptf://" input).
    { intros H%starts_with_spec. unfold schemaPrefix in Hp. congruence. }
    unfold SpotifyFilteredTrack.IsValid, without_schema. rewrite Hp.
    split; [|split; [|done]].
    + split; [done|]. intros (rest & -> & _). destruct Hno. by exists rest.
    + rewrite starts_with_spec. split; [by right|].
      intros [(rest & -> & _) | [_ H]]; [|done]. destruct Hno. by exists rest.
Qed.

End IdentifierClaims.

(** * Properties of the backend *)

Section EngineFacts.

Import WebApi_Backend Policy.

Lemma bind_Ok {A B} (c : M A) (k : A → M B) w a w' :
  c w = (Ok a, w') → bind c k w = k a w'.
Proof. intros H. unfold bind. by rewrite H. Qed.

Lemma bind_Throw {A B} (c : M A) (k : A → M B) w e w' :
  c w = (Throw e, w') → bind c k w = (Throw e, w').
Proof. intros H. unfold bind. by rewrite H. Qed.

Lemma last_cons_default {A} (l : list A) (a d : A) :
  List.last (a :: l) d = List.last l a.
Proof.
  revert a d. induction l as [|b l IH]; intros a d; [done|].
  change (List.last (a :: b :: l) d) with (List.last (b :: l) d).
  by rewrite (IH b d), (IH b a).
Qed.

(** The rounds of the retry loop that end in a sleep. *)
Lemma retry_loop_throttled pre :
  ∀ n req r0 w hs rest,
    quiet w →
    server w = hs ++ rest →
    answers req hs pre →
    Forall throttled pre →
    (List.length pre ≤ n)%nat →
    retry_loop n req r0 w =
      retry_loop (n - List.length pre) req (List.last pre r0)
        (after_requests w rest req (List.length pre) (map delay pre)).
Proof.
  induction pre as [|r pre IH]; intros n req r0 w hs rest Hq Hsrv Hans Hthr Hlen.
  - inversion Hans; subst. simpl in *. rewrite Nat.sub_0_r.
    f_equal. destruct w; unfold after_requests; simpl in *.
    rewrite !app_nil_r, Nat.add_0_r. by subst.
  - inversion Hans as [|h r' hs' pre' Hh Hans']; subst.
    inversion Hthr as [|? ? [Hst [ms Hms]] Hthr']; subst.
    destruct n as [|n]; [simpl in Hlen; lia|].
    cbn [retry_loop].
    assert (Hreq : client_request req w
                   = (Ok r, set_transport (hs' ++ rest) (sent w ++ [req]) w)).
    { unfold client_request. rewrite Hsrv. simpl. by rewrite Hh. }
    rewrite (bind_Ok _ _ _ _ _ Hreq). rewrite Hst.
    change (negb (429 =? 429)%Z) with false. cbv beta iota.
    unfold retry_after in Hms.
    destruct (find_header (headers r) "Retry-After") as [hdr|] eqn:Hhdr; [|done].
    rewrite Hms.
    unfold bind at 1, SleepFor. cbn [abort_oracle set_transport abort_polls].
    rewrite Hq. cbn [negb]. cbv beta iota.
    rewrite (IH n req r _ hs' rest); [| done | done | done | done | simpl in Hlen; lia].
    rewrite (last_cons_default pre r r0). cbn [List.length Nat.sub map].
    f_equal.
    unfold after_requests, set_slept, set_transport. cbn.
    assert (Hd : delay r = (ms + 1000)%Z) by (unfold delay, retry_after; by rewrite Hhdr, Hms).
    rewrite Hd, <- !app_assoc. cbn [app]. f_equal. lia.
Qed.


Lemma after_requests_twice w rest1 rest req k1 k2 d1 d2 :
  after_requests (after_requests w rest1 req k1 d1) rest req k2 d2 =
  after_requests w rest req (k1 + k2) (d1 ++ d2).
Proof.
  unfold after_requests. cbn. rewrite <- !app_assoc, <- replicate_add.
  rewrite length_app. f_equal. lia.
Qed.

Lemma retry_loop_done n req r0 w h rest r :
  server w = h :: rest →
  h req = Some r →
  status_code r ≠ 429%Z →
  retry_loop (S n) req r0 w = (Ok r, after_requests w rest req 1 []).
Proof.
  intros Hsrv Hh Hst. cbn [retry_loop].
  assert (Hreq : client_request req w = (Ok r, set_transport rest (sent w ++ [req]) w)).
  { unfold client_request. by rewrite Hsrv, Hh. }
  rewrite (bind_Ok _ _ _ _ _ Hreq).
  apply Z.eqb_neq in Hst. rewrite Hst. cbn [negb]. unfold ret. f_equal.
  unfold after_requests, set_transport. cbn. by rewrite app_nil_r, Nat.add_0_r.
Qed.

Lemma retry_loop_unusable n req r0 w h rest r :
  server w = h :: rest →
  h req = Some r →
  status_code r = 429%Z →
  retry_after r = None →
  retry_loop (S n) req r0 w = (Throw (retry_after_error r), after_requests w rest req 1 []).
Proof.
  intros Hsrv Hh Hst Hra. cbn [retry_loop].
  assert (Hreq : client_request req w = (Ok r, set_transport rest (sent w ++ [req]) w)).
  { unfold client_request. by rewrite Hsrv, Hh. }
  rewrite (bind_Ok _ _ _ _ _ Hreq). rewrite Hst.
  change (negb (429 =? 429)%Z) with false. cbv beta iota.
  assert (Hw : set_transport rest (sent w ++ [req]) w = after_requests w rest req 1 []).
  { unfold after_requests, set_transport. cbn. by rewrite app_nil_r, Nat.add_0_r. }
  unfold retry_after in Hra. unfold retry_after_error.
  destruct (find_header (headers r) "Retry-After") as [hdr|].
  - rewrite Hra. unfold throw. by rewrite Hw.
  - unfold throw. by rewrite Hw.
Qed.

(** What [GetResponse] does before its loop. *)
Lemma GetResponse_loop w requestUri token :
  access_token w = Some token →
  abort_oracle w (abort_polls w) = false →
  GetResponse requestUri w =
    retry_loop 3 (make_request (adjust_uri requestUri) token) no_response
      (set_abort_polls (S (abort_polls w)) w).
Proof.
  intros Htok Hab. unfold GetResponse, GetAccessToken, bind, is_aborting.
  rewrite Htok, Hab. reflexivity.
Qed.

Lemma frame_refl k w : frame k w w.
Proof. unfold frame. repeat split; lia. Qed.

Lemma frame_trans k1 k2 w1 w2 w3 :
  frame k1 w1 w2 → frame k2 w2 w3 → frame (k1 + k2) w1 w3.
Proof. unfold frame. intros (?&?&?&?&?) (?&?&?&?&?). repeat split; (lia || congruence). Qed.

Lemma frame_weaken k k' w w' : (k ≤ k')%nat → frame k w w' → frame k' w w'.
Proof. unfold frame. intros ? (?&?&?&?&?). repeat split; (lia || congruence). Qed.

Lemma frame_request srv req w : frame 1 w (set_transport srv (sent w ++ [req]) w).
Proof. unfold frame. cbn. rewrite length_app. cbn. repeat split; lia. Qed.

Lemma frame_slept sl polls w : frame 0 w (set_slept sl polls w).
Proof. unfold frame. cbn. repeat split; lia. Qed.

Lemma frame_polls polls w : frame 0 w (set_abort_polls polls w).
Proof. unfold frame. cbn. repeat split; lia. Qed.

(** The loop sends no more requests than it has rounds, and touches
    neither the caches nor the token nor the host's oracle. *)
Lemma retry_loop_frame n :
  ∀ req r0 w res w', retry_loop n req r0 w = (res, w') → frame n w w'.
Proof.
  induction n as [|n IH]; intros req r0 w res w' H.
  - injection H as _ <-. apply frame_refl.
  - cbn [retry_loop] in H. unfold bind at 1, client_request in H.
    pose proof (frame_request) as Hreq.
    destruct (server w) as [|h rest].
    { injection H as _ <-. eapply frame_weaken; [|apply Hreq]. lia. }
    destruct (h req) as [r|];
      [|injection H as _ <-; eapply frame_weaken; [|apply Hreq]; lia].
    destruct (negb (status_code r =? 429)%Z).
    { injection H as _ <-. eapply frame_weaken; [|apply Hreq]. lia. }
    destruct (find_header (headers r) "Retry-After") as [hdr|];
      [|injection H as _ <-; eapply frame_weaken; [|apply Hreq]; lia].
    destruct (GetNumber hdr) as [ms|];
      [|injection H as _ <-; eapply frame_weaken; [|apply Hreq]; lia].
    unfold bind, SleepFor in H.
    destruct (negb (negb _)).
    { injection H as _ <-. apply (frame_trans 1 n _ _ _ (Hreq rest req w)).
      eapply frame_weaken; [|apply frame_slept]. lia. }
    apply IH in H. apply (frame_trans 1 n _ _ _ (Hreq rest req w)).
    eapply (frame_trans 0 n); [apply frame_slept | exact H].
Qed.

Lemma GetResponse_frame requestUri w res w' :
  GetResponse requestUri w = (res, w') → frame 3 w w'.
Proof.
  unfold GetResponse, GetAccessToken, bind at 1.
  destruct (access_token w) as [token|] eqn:Htok;
    [|intros [= _ <-]; apply frame_weaken with 0%nat; [lia | apply frame_refl]].
  unfold bind at 1, is_aborting.
  destruct (abort_oracle w (abort_polls w)).
  { intros [= _ <-]. apply frame_weaken with 0%nat; [lia | apply frame_polls]. }
  unfold bind, ExpectTrue, ret. cbn [negb]. intros H%retry_loop_frame.
  apply (frame_trans 0 3 _ _ _ (frame_polls _ w) H).
Qed.

End EngineFacts.

Section RetryClaims.

Import WebApi_Backend Policy Scenario.

Lemma quiet_polls polls w : quiet w → quiet (set_abort_polls polls w).
Proof. intros H n. apply H. Qed.

Lemma answers_snoc req hs pre last :
  answers req hs (pre ++ [last]) →
  ∃ hs' h, hs = hs' ++ [h] ∧ answers req hs' pre ∧ h req = Some last.
Proof.
  intros H. apply Forall2_app_inv_r in H as (hs' & hl & Hpre & Hl & ->).
  inversion Hl as [|h r hl' l' Hh Hnil]; subst. inversion Hnil; subst.
  by exists hs', h.
Qed.

(** C2: [GetResponse] with a token at hand and a host that does not abort,
    when the server answers [pre] and then [last], where [pre] are at most
    two 429 responses with a number in [Retry-After], and [last] is either
    no 429 or the third 429 in a row: the call returns [last]; it has sent
    one request for each of these responses and none after [last], so it
    retries on 429 only and stops after three attempts; after each 429 it
    has slept the number in [Retry-After], taken as milliseconds, plus
    1000.  No call of [GetResponse], whatever happens, sends more than
    three requests.  In the scenario S4 (429 with [Retry-After: 250], then
    200 with an object) two requests are sent, there is one sleep of 1250
    ms, and the object is returned. *)
Theorem GetResponse_retry_policy (w : World) (requestUri token : string)
    (hs rest : list (http_request → option http_response))
    (pre : list http_response) (last : http_response)
    (Htok : access_token w = Some token)
    (Hquiet : quiet w)
    (Hsrv : server w = hs ++ rest)
    (Hans : answers (make_request (adjust_uri requestUri) token) hs (pre ++ [last]))
    (Hpre : Forall throttled pre)
    (Hlen : (List.length pre ≤ 2)%nat)
    (Hlast : status_code last ≠ 429%Z ∨ (List.length pre = 2%nat ∧ throttled last)) :
  GetResponse requestUri w =
    (Ok last,
     after_requests (set_abort_polls (S (abort_polls w)) w) rest
       (make_request (adjust_uri requestUri) token)
       (S (List.length pre)) (sleeps pre last)) ∧
  (S (List.length pre) ≤ 3)%nat ∧
  (∀ w0 uri0,
     (List.length (sent (GetResponse uri0 w0).2) ≤ List.length (sent w0) + 3)%nat) ∧
  (let w1 := fresh [always (rate_limited "250"); always (ok_response (track_json "x"))] in
   (GetJsonResponse "/tracks/x" w1).1 = Ok (track_json "x") ∧
   List.length (sent (GetJsonResponse "/tracks/x" w1).2) = 2%nat ∧
   slept (GetJsonResponse "/tracks/x" w1).2 = [1250%Z]).
Proof.
  split; [|split; [lia|split]].
  - rewrite (GetResponse_loop w requestUri token Htok (Hquiet _)).
    set (req := make_request (adjust_uri requestUri) token) in *.
    set (w1 := set_abort_polls (S (abort_polls w)) w).
    assert (Hq1 : quiet w1) by by apply quiet_polls.
    destruct Hlast as [Hne | [Hl2 Hthr]].
    + apply answers_snoc in Hans as (hs' & h & -> & Hans & Hh).
      rewrite (retry_loop_throttled pre 3 req no_response w1 hs' (h :: rest));
        [| done | by rewrite <- app_assoc in Hsrv | done | done | lia].
      destruct (3 - List.length pre)%nat as [|m] eqn:Hm; [lia|].
      rewrite (retry_loop_done m req _ _ h rest last); [| done | done | done].
      rewrite after_requests_twice. unfold sleeps.
      apply Z.eqb_neq in Hne. rewrite Hne. rewrite app_nil_r.
      by rewrite Nat.add_1_r.
    + rewrite (retry_loop_throttled (pre ++ [last]) 3 req no_response w1 hs rest);
        [| done | done | done | | rewrite length_app; simpl; lia].
      2:{ apply Forall_app. split; [done | by constructor]. }
      rewrite length_app. cbn [List.length]. rewrite Hl2. cbn [Nat.add Nat.sub retry_loop].
      unfold ret. rewrite last_last. unfold sleeps.
      destruct Hthr as [-> _]. change (429 =? 429)%Z with true. cbv iota.
      by rewrite map_app.
  - intros w0 uri0. destruct (GetResponse uri0 w0) as [res w'] eqn:E.
    apply GetResponse_frame in E. apply E.
  - cbv zeta. repeat split; vm_compute; reflexivity.
Qed.

Lemma GetResponse_retry_policy_witness :
  let w := fresh [always (rate_limited "250"); always (ok_response (track_json "x"))] in
  let req := make_request "/tracks/x" "token" in
  GetResponse "/tracks/x" w =
    (Ok (ok_response (track_json "x")),
     after_requests (set_abort_polls 1 w) [] req 2 [1250%Z]).
Proof.
  intros w req.
  refine (proj1 (GetResponse_retry_policy w "/tracks/x" "token"
            [always (rate_limited "250"); always (ok_response (track_json "x"))] []
            [rate_limited "250"] (ok_response (track_json "x")) _ _ _ _ _ _ _)).
  - reflexivity.
  - intros n. reflexivity.
  - reflexivity.
  - repeat constructor.
  - constructor; [|constructor]. split; [reflexivity | by eexists].
  - simpl. lia.
  - left. discriminate.
Defined.

(** C8: [GetResponse] with a token at hand and a host that does not abort,
    when the server answers at most two 429 responses with a number in
    [Retry-After] and then a 429 response [bad] whose [Retry-After] is
    missing or holds no number: the call throws a [QwrException] at once;
    the sleeps are those after the earlier responses, there is none after
    [bad], and no request is sent after the one [bad] answered. *)
Theorem GetResponse_unusable_retry_after (w : World) (requestUri token : string)
    (hs rest : list (http_request → option http_response))
    (pre : list http_response) (bad : http_response)
    (Htok : access_token w = Some token)
    (Hquiet : quiet w)
    (Hsrv : server w = hs ++ rest)
    (Hans : answers (make_request (adjust_uri requestUri) token) hs (pre ++ [bad]))
    (Hpre : Forall throttled pre)
    (Hlen : (List.length pre ≤ 2)%nat)
    (Hst : status_code bad = 429%Z)
    (Hra : retry_after bad = None) :
  GetResponse requestUri w =
    (Throw (retry_after_error bad),
     after_requests (set_abort_polls (S (abort_polls w)) w) rest
       (make_request (adjust_uri requestUri) token)
       (S (List.length pre)) (map delay pre)) ∧
  (∃ msg, retry_after_error bad = QwrException msg) ∧
  slept (GetResponse requestUri w).2 = slept w ++ map delay pre ∧
  sent (GetResponse requestUri w).2 =
    sent w ++ replicate (S (List.length pre)) (make_request (adjust_uri requestUri) token) ∧
  server (GetResponse requestUri w).2 = rest.
Proof.
  assert (Hrun : GetResponse requestUri w =
    (Throw (retry_after_error bad),
     after_requests (set_abort_polls (S (abort_polls w)) w) rest
       (make_request (adjust_uri requestUri) token)
       (S (List.length pre)) (map delay pre))).
  { rewrite (GetResponse_loop w requestUri token Htok (Hquiet _)).
    set (req := make_request (adjust_uri requestUri) token) in *.
    set (w1 := set_abort_polls (S (abort_polls w)) w).
    assert (Hq1 : quiet w1) by by apply quiet_polls.
    apply answers_snoc in Hans as (hs' & h & -> & Hans & Hh).
    rewrite (retry_loop_throttled pre 3 req no_response w1 hs' (h :: rest));
      [| done | by rewrite <- app_assoc in Hsrv | done | done | lia].
    destruct (3 - List.length pre)%nat as [|m] eqn:Hm; [lia|].
    rewrite (retry_loop_unusable m req _ _ h rest bad); [| done | done | done | done].
    rewrite after_requests_twice. by rewrite app_nil_r, Nat.add_1_r. }
  split; [exact Hrun|]. split.
  - unfold retry_after_error. destruct (find_header _ _); by eexists.
  - rewrite Hrun. repeat split.
Qed.

Lemma GetResponse_unusable_retry_after_witness :
  let missing := {| status_code := 429; reason_phrase := "Too Many Requests";
                    headers := []; body := None;
                    to_string := "HTTP/1.1 429 Too Many Requests" |} in
  let w := fresh [always missing; always (ok_response (track_json "x"))] in
  (GetResponse "/tracks/x" w).1 =
    Throw (QwrException
      "Request failed with 429 error, but does not contain a `Retry-After` header") ∧
  slept (GetResponse "/tracks/x" w).2 = [] ∧
  List.length (sent (GetResponse "/tracks/x" w).2) = 1%nat.
Proof.
  intros missing w.
  destruct (GetResponse_unusable_retry_after w "/tracks/x" "token"
              [always missing] [always (ok_response (track_json "x"))] [] missing)
    as (Hrun & _ & Hslept & Hsent & _).
  - reflexivity.
  - intros n. reflexivity.
  - reflexivity.
  - repeat constructor.
  - constructor.
  - simpl. lia.
  - reflexivity.
  - reflexivity.
  - split; [by rewrite Hrun | split; [by rewrite Hslept | by rewrite Hsent]].
Defined.

End RetryClaims.

Section RequestFacts.

Import WebApi_Backend Policy.

Lemma bind_cases {A B} (c : M A) (k : A → M B) w res w' :
  bind c k w = (res, w') →
  (∃ a w1, c w = (Ok a, w1) ∧ k a w1 = (res, w')) ∨
  ((∀ b, res ≠ Ok b) ∧ ∃ r1, c w = (r1, w') ∧ ∀ a, r1 ≠ Ok a).
Proof.
  unfold bind. destruct (c w) as [[a|e|] w1]; intros H.
  - left. by exists a, w1.
  - right. injection H as <- <-. split; [done|]. by eexists.
  - right. injection H as <- <-. split; [done|]. by eexists.
Qed.

(** A single answered request. *)
Lemma GetResponse_once w requestUri token h rest response :
  access_token w = Some token →
  abort_oracle w (abort_polls w) = false →
  server w = h :: rest →
  h (make_request (adjust_uri requestUri) token) = Some response →
  status_code response ≠ 429%Z →
  GetResponse requestUri w =
    (Ok response,
     after_requests (set_abort_polls (S (abort_polls w)) w) rest
       (make_request (adjust_uri requestUri) token) 1 []).
Proof.
  intros Htok Hab Hsrv Hh Hst.
  rewrite (GetResponse_loop w requestUri token Htok Hab).
  by apply retry_loop_done with h.
Qed.

Lemma GetJsonResponse_once w requestUri token h rest response j :
  access_token w = Some token →
  abort_oracle w (abort_polls w) = false →
  server w = h :: rest →
  h (make_request (adjust_uri requestUri) token) = Some response →
  ok_with response j →
  GetJsonResponse requestUri w =
    (Ok j,
     after_requests (set_abort_polls (S (abort_polls w)) w) rest
       (make_request (adjust_uri requestUri) token) 1 []).
Proof.
  intros Htok Hab Hsrv Hh (Hst & Hbody & Hobj).
  unfold GetJsonResponse.
  rewrite (bind_Ok _ _ _ _ _
             (GetResponse_once w requestUri token h rest response Htok Hab Hsrv Hh
                ltac:(rewrite Hst; discriminate))).
  unfold ParseResponse. rewrite Hst, Hbody. cbn [Z.eqb negb Pos.eqb].
  unfold bind, ExpectTrue. by rewrite Hobj.
Qed.

(** A round of the loop that ends well has sent a request. *)
Lemma retry_loop_Ok_sent n req r0 w response w' :
  retry_loop (S n) req r0 w = (Ok response, w') →
  (List.length (sent w) < List.length (sent w'))%nat.
Proof.
  cbn [retry_loop]. intros H.
  apply bind_cases in H as [(r & w1 & Hreq & H) | [Hno _]]; [|by destruct (Hno response)].
  assert (Hlt : (List.length (sent w) < List.length (sent w1))%nat).
  { unfold client_request in Hreq. destruct (server w) as [|h rest]; [done|].
    destruct (h req); [|done]. injection Hreq as _ <-. cbn. rewrite length_app. simpl. lia. }
  assert (Hmono : (List.length (sent w1) ≤ List.length (sent w'))%nat).
  { destruct (negb (status_code r =? 429)%Z); [injection H as _ <-; lia|].
    destruct (find_header (headers r) "Retry-After") as [hdr|]; [|done].
    destruct (GetNumber hdr) as [ms|]; [|done].
    unfold bind, SleepFor in H.
    destruct (negb (negb _)); [injection H as _ <-; cbn; lia|].
    apply retry_loop_frame in H. destruct H as (_ & H & _). cbn in H. lia. }
  lia.
Qed.

Lemma GetResponse_Ok_sent requestUri w response w' :
  GetResponse requestUri w = (Ok response, w') →
  (List.length (sent w) < List.length (sent w'))%nat.
Proof.
  unfold GetResponse. intros H.
  apply bind_cases in H as [(token & w1 & Htok & H) | [Hno _]]; [|by destruct (Hno response)].
  unfold GetAccessToken in Htok. destruct (access_token w); [|done]. injection Htok as _ <-.
  apply bind_cases in H as [(ab & w1 & Hab & H) | [Hno _]]; [|by destruct (Hno response)].
  injection Hab as _ <-.
  apply bind_cases in H as [([] & w2 & Hexp & H) | [Hno _]]; [|by destruct (Hno response)].
  unfold ExpectTrue in Hexp. destruct (negb _); [|done]. injection Hexp as <-.
  apply retry_loop_Ok_sent in H. cbn in H. lia.
Qed.

Lemma ParseResponse_world response w res w' :
  ParseResponse response w = (res, w') → w' = w.
Proof.
  unfold ParseResponse. destruct (negb _); [by intros [= _ <-]|].
  destruct (body response) as [j|]; [|by intros [= _ <-]].
  unfold bind, ExpectTrue. destruct (is_object j); by intros [= _ <-].
Qed.

Lemma GetJsonResponse_frame requestUri w res w' :
  GetJsonResponse requestUri w = (res, w') →
  frame 3 w w' ∧ userCache w' = userCache w ∧
  (∀ j, res = Ok j → (List.length (sent w) < List.length (sent w'))%nat).
Proof.
  unfold GetJsonResponse. intros H.
  assert (Huc : ∀ r1 w1, GetResponse requestUri w = (r1, w1) → userCache w1 = userCache w).
  { clear. intros r1 w1. unfold GetResponse, GetAccessToken, bind at 1.
    destruct (access_token w); [|by intros [= _ <-]].
    unfold bind at 1, is_aborting. destruct (abort_oracle w (abort_polls w)).
    { by intros [= _ <-]. }
    unfold bind, ExpectTrue, ret. cbn [negb].
    assert (G : ∀ n req r0 w0 r1 w1, retry_loop n req r0 w0 = (r1, w1) →
                  userCache w1 = userCache w0).
    { clear. induction n as [|n IH]; intros req r0 w0 r1 w1 H; [by injection H as _ <-|].
      cbn [retry_loop] in H. unfold bind at 1, client_request in H.
      destruct (server w0) as [|h rest]; [by injection H as _ <-|].
      destruct (h req) as [r|]; [|by injection H as _ <-].
      destruct (negb (status_code r =? 429)%Z); [by injection H as _ <-|].
      destruct (find_header (headers r) "Retry-After") as [hdr|]; [|by injection H as _ <-].
      destruct (GetNumber hdr) as [ms|]; [|by injection H as _ <-].
      unfold bind, SleepFor in H. destruct (negb (negb _)); [by injection H as _ <-|].
      by apply IH in H. }
    intros H. by apply G in H. }
  apply bind_cases in H as [(response & w1 & Hresp & H) | [Hno (r1 & Hresp & _)]].
  - apply ParseResponse_world in H as ->.
    split; [by apply GetResponse_frame in Hresp|]. split; [by apply Huc in Hresp|].
    intros _ _. by apply GetResponse_Ok_sent in Hresp.
  - split; [by apply GetResponse_frame in Hresp|]. split; [by apply Huc in Hresp|].
    intros j ->. by destruct (Hno j).
Qed.

Lemma frame_userCache u w : frame 0 w (set_userCache u w).
Proof. unfold frame. cbn. repeat split; lia. Qed.

Lemma frame_trackCache_sent c w :
  sent (set_trackCache c w) = sent w ∧ server (set_trackCache c w) = server w.
Proof. done. Qed.

(** [GetUser] sends at most the requests of one [GetResponse] and leaves the
    track cache alone. *)
Lemma GetUser_frame w res w' : GetUser w = (res, w') → frame 3 w w'.
Proof.
  unfold GetUser, bind at 1, gets.
  destruct (userCache w) as [u|].
  { intros [= _ <-]. apply frame_weaken with 0%nat; [lia | apply frame_refl]. }
  intros H.
  apply bind_cases in H as [(j & w1 & Hj & H) | [_ (r1 & Hj & _)]];
    [|by apply GetJsonResponse_frame in Hj as [? _]].
  apply GetJsonResponse_frame in Hj as [Hf _].
  unfold bind, lift in H. destruct (WebApi_User.from_json j) as [u| |].
  - injection H as _ <-.
    apply (frame_trans 3 0 _ _ _ Hf (frame_userCache _ _)).
  - by injection H as _ <-.
  - by injection H as _ <-.
Qed.

End RequestFacts.
Section EngineLemmas.

Import WebApi_Backend Policy Scenario.

Lemma read_digits_nonneg s : ∀ acc, (0 ≤ acc)%Z → (0 ≤ read_digits acc s)%Z.
Proof.
  induction s as [|c s IH]; intros acc Hacc; [done|]. cbn [read_digits].
  destruct (digit c) as [d|] eqn:Hd; [|done].
  apply IH. unfold digit in Hd. destruct (_ && _); [|done]. injection Hd as <-. lia.
Qed.

(** [GetNumber<uint32_t>] gives a number of 32 bits. *)
Lemma GetNumber_range s v : GetNumber s = Some v → (0 ≤ v ≤ 4294967295)%Z.
Proof.
  unfold GetNumber. destruct s as [|c s]; [done|].
  pose proof (read_digits_nonneg (String c s) 0 ltac:(lia)) as Hnn.
  destruct (digit c); [|done]. cbv zeta.
  destruct (Z.leb_spec (read_digits 0 (String c s)) 4294967295); [|done].
  intros [= <-]. split; done.
Qed.

(** What a run of the retry loop leaves in the logs: up to [n] copies of the
    one request, and a sleep of at least a second after some of them. *)
Lemma retry_loop_logs n :
  ∀ req r0 w res w',
    retry_loop n req r0 w = (res, w') →
    ∃ k delays,
      (k ≤ n)%nat ∧
      sent w' = sent w ++ replicate k req ∧
      slept w' = slept w ++ delays ∧
      (List.length delays ≤ k)%nat ∧
      Forall (λ d, (1000 ≤ d ≤ 4294968295)%Z) delays ∧
      (n ≠ 0%nat → (∃ r, res = Ok r) → (1 ≤ k)%nat).
Proof.
  induction n as [|n IH]; intros req r0 w res w' H.
  - injection H as _ <-. exists 0%nat, []. rewrite !app_nil_r. repeat split; (done || lia).
  - cbn [retry_loop] in H. unfold bind at 1, client_request in H.
    assert (Hone : ∀ srv o,
      ∃ k delays, (k ≤ S n)%nat ∧
        sent (set_transport srv (sent w ++ [req]) w) = sent w ++ replicate k req ∧
        slept (set_transport srv (sent w ++ [req]) w) = slept w ++ delays ∧
        (List.length delays ≤ k)%nat ∧
        Forall (λ d, (1000 ≤ d ≤ 4294968295)%Z) delays ∧
        (S n ≠ 0%nat → (∃ r : http_response, o = Ok r) → (1 ≤ k)%nat)).
    { intros srv o. exists 1%nat, []. cbn. rewrite app_nil_r. repeat split; (done || lia). }
    destruct (server w) as [|h rest]; [injection H as <- <-; apply Hone|].
    destruct (h req) as [r|]; [|injection H as <- <-; apply Hone].
    destruct (negb (status_code r =? 429)%Z); [injection H as <- <-; apply Hone|].
    destruct (find_header (headers r) "Retry-After") as [hdr|];
      [|injection H as <- <-; apply Hone].
    destruct (GetNumber hdr) as [ms|] eqn:Hms; [|injection H as <- <-; apply Hone].
    apply GetNumber_range in Hms.
    unfold bind, SleepFor in H.
    destruct (negb (negb _)).
    { injection H as <- <-. exists 1%nat, [(ms + 1000)%Z]. cbn.
      repeat split; try (done || lia). constructor; [lia | constructor]. }
    apply IH in H as (k & delays & Hk & Hsent & Hslept & Hlen & Hall & _).
    cbn in Hsent, Hslept.
    exists (S k), ((ms + 1000)%Z :: delays). cbn [replicate List.length].
    repeat split; try lia.
    + rewrite Hsent, <- app_assoc. reflexivity.
    + rewrite Hslept, <- app_assoc. reflexivity.
    + constructor; [lia | done].
Qed.

(** A response the loop returns was given by the server to the request. *)
Lemma retry_loop_Ok_from_server n :
  ∀ req r0 w r w',
    retry_loop n req r0 w = (Ok r, w') →
    r = r0 ∨ ∃ h, h ∈ server w ∧ h req = Some r.
Proof.
  induction n as [|n IH]; intros req r0 w r w' H.
  - injection H as <- _. by left.
  - right. cbn [retry_loop] in H. unfold bind at 1, client_request in H.
    destruct (server w) as [|h rest] eqn:Hsrv; [done|].
    destruct (h req) as [r1|] eqn:Hh; [|done].
    assert (Hhere : ∃ h0, h0 ∈ h :: rest ∧ h0 req = Some r1).
    { exists h. split; [apply list_elem_of_here | done]. }
    destruct (negb (status_code r1 =? 429)%Z); [by injection H as <- _|].
    destruct (find_header (headers r1) "Retry-After") as [hdr|]; [|done].
    destruct (GetNumber hdr) as [ms|]; [|done].
    unfold bind, SleepFor in H.
    destruct (negb (negb _)); [by injection H as <- _|].
    apply IH in H as [-> | (h' & Hin & Hh')]; [done|].
    exists h'. split; [|done]. cbn in Hin. by apply list_elem_of_further.
Qed.

(** What a call of [GetJsonResponse] that returns a value has done: the
    value is the body of a response with status 200 that the server gave to
    the request of the call, and one to three copies of that request were
    sent. *)
Lemma GetJsonResponse_Ok_inv requestUri w j w' :
  GetJsonResponse requestUri w = (Ok j, w') →
  ∃ token h response k,
    access_token w = Some token ∧
    h ∈ server w ∧
    h (make_request (adjust_uri requestUri) token) = Some response ∧
    ok_with response j ∧
    (1 ≤ k ≤ 3)%nat ∧
    sent w' = sent w ++ replicate k (make_request (adjust_uri requestUri) token).
Proof.
  intros Hrun. unfold GetJsonResponse in Hrun.
  apply bind_cases in Hrun as [(response & w1 & Hresp & Hparse) | [Hno _]];
    [|by destruct (Hno j)].
  pose proof (ParseResponse_world _ _ _ _ Hparse) as ->.
  assert (Hok : ok_with response j).
  { unfold ParseResponse in Hparse.
    destruct (status_code response =? 200)%Z eqn:Hst; [|done]. cbn [negb] in Hparse.
    apply Z.eqb_eq in Hst.
    destruct (body response) as [j'|] eqn:Hb; [|done].
    unfold bind, ExpectTrue in Hparse. destruct (is_object j') eqn:Ho; [|done].
    injection Hparse as ->. done. }
  unfold GetResponse, GetAccessToken, bind at 1 in Hresp.
  destruct (access_token w) as [token|] eqn:Htok; [|done].
  unfold bind at 1, is_aborting in Hresp.
  destruct (abort_oracle w (abort_polls w)); [done|].
  unfold bind, ExpectTrue, ret in Hresp. cbn [negb] in Hresp.
  pose proof Hresp as Hlogs.
  apply retry_loop_Ok_from_server in Hresp as [-> | (h & Hin & Hh)];
    [by destruct Hok as (? & ? & ?)|].
  apply retry_loop_logs in Hlogs as (k & delays & Hk & Hsent & _ & _ & _ & Hone).
  exists token, h, response, k. cbn in Hin, Hsent.
  split; [done|]. split; [done|]. split; [done|]. split; [done|].
  split; [|done]. split; [|done]. apply Hone; [done | by eexists].
Qed.

(** Whatever a call of [GetJsonResponse] ends in, it has sent up to three
    copies of its one request and nothing else. *)
Lemma GetJsonResponse_requests requestUri w token res w' :
  access_token w = Some token →
  GetJsonResponse requestUri w = (res, w') →
  ∃ k, (k ≤ 3)%nat ∧
       sent w' = sent w ++ replicate k (make_request (adjust_uri requestUri) token).
Proof.
  intros Htok Hrun.
  assert (Hresp : ∀ r1 w1, GetResponse requestUri w = (r1, w1) →
            ∃ k, (k ≤ 3)%nat ∧
                 sent w1 = sent w ++ replicate k (make_request (adjust_uri requestUri) token)).
  { intros r1 w1. unfold GetResponse, GetAccessToken, bind at 1. rewrite Htok.
    unfold bind at 1, is_aborting. destruct (abort_oracle w (abort_polls w)).
    { intros [= _ <-]. exists 0%nat. cbn. rewrite app_nil_r. split; [lia | done]. }
    unfold bind, ExpectTrue, ret. cbn [negb].
    intros (k & _ & Hk & Hsent & _)%retry_loop_logs. by exists k. }
  unfold GetJsonResponse in Hrun.
  apply bind_cases in Hrun as [(response & w1 & Hr & Hp) | [_ (r1 & Hr & _)]].
  - apply ParseResponse_world in Hp as ->. by apply Hresp in Hr.
  - by apply Hresp in Hr.
Qed.

End EngineLemmas.


Section TrackClaims.

Import WebApi_Backend Policy Scenario.

(** What [GetTrack] does when relinking, whatever the cache holds. *)
Lemma GetTrack_relink_unfold trackId w :
  GetTrack trackId true w =
    (let* user := GetUser in
     let builder := append_path (append_path new_builder "tracks") trackId in
     let builder := match WebApi_User.country user with
                    | Some country => append_query builder "market" country
                    | None => builder
                    end in
     let* responseJson := GetJsonResponse (to_uri builder) in
     let* track := lift (WebApi_Track.from_json responseJson) in
     ret track) w.
Proof.
  unfold GetTrack. unfold bind at 1, gets.
  destruct (GetObjectFromCache (trackCache w) trackId) as [cached|];
    unfold bind;
    (destruct (GetUser w) as [[user| |] wu]; [|done|done]);
    destruct (WebApi_User.country user) as [c|]; unfold ret;
    destruct (GetJsonResponse _ wu) as [[j| |] w1]; try done;
    unfold lift; destruct (WebApi_Track.from_json j); done.
Qed.

Lemma GetTrack_relink_frame trackId w res w' :
  GetTrack trackId true w = (res, w') →
  trackCache w' = trackCache w ∧
  (∀ track, res = Ok track → (List.length (sent w) < List.length (sent w'))%nat).
Proof.
  rewrite GetTrack_relink_unfold. intros H.
  apply bind_cases in H as [(user & wu & Hu & H) | [Hno (r1 & Hu & _)]].
  2:{ apply GetUser_frame in Hu as (_ & _ & Hc & _). split; [done|].
      intros track ->. by destruct (Hno track). }
  apply GetUser_frame in Hu as (_ & Hs & Hc & _).
  cbv zeta in H.
  apply bind_cases in H as [(j & w1 & Hj & H) | [Hno (r1 & Hj & _)]].
  2:{ apply GetJsonResponse_frame in Hj as ((_ & _ & Hc1 & _) & _). split; [congruence|].
      intros track ->. by destruct (Hno track). }
  apply GetJsonResponse_frame in Hj as ((_ & _ & Hc1 & _) & _ & Hlt).
  specialize (Hlt j eq_refl).
  unfold bind, lift, ret in H.
  destruct (WebApi_Track.from_json j); injection H as _ <-; (split; [congruence|]); intros; lia.
Qed.

(** C3, as amended: [GetTrack] with [useRelink] set never writes the track
    cache, and when it returns a track it has sent a request.  Once the
    current user is known, and the server answers the request for the track
    with a 200 whose body decodes to a track, that track is returned,
    whatever the cache holds for the id.  The request carries
    [market=<country>] when the profile of the user has a country; when it
    has none, the request is sent without a [market] parameter.  And in
    every run, whatever the server does: after the user is there, the call
    sends up to three copies of that one request and nothing else, and a
    track it returns is the one decoded from the body of a response with
    status 200 that the server gave to that request, so never a value read
    from the track cache. *)
Theorem GetTrack_relink (w wu : World) (trackId token : string) (user : WebApi_User.t)
    (h : http_request → option http_response)
    (rest : list (http_request → option http_response))
    (response : http_response) (j : json) (track : WebApi_Track.t)
    (Huser : GetUser w = (Ok user, wu))
    (Htok : access_token wu = Some token)
    (Habort : abort_oracle wu (abort_polls wu) = false)
    (Hsrv : server wu = h :: rest)
    (Hans : h (make_request (adjust_uri (relink_uri trackId (WebApi_User.country user))) token)
            = Some response)
    (Hok : ok_with response j)
    (Hdec : WebApi_Track.from_json j = Ok track) :
  let req := make_request (adjust_uri (relink_uri trackId (WebApi_User.country user))) token in
  GetTrack trackId true w =
    (Ok track, after_requests (set_abort_polls (S (abort_polls wu)) wu) rest req 1 []) ∧
  trackCache (GetTrack trackId true w).2 = trackCache w ∧
  (∀ c, WebApi_User.country user = Some c →
        request_uri req = "/tracks/" +:+ trackId +:+ "?market=" +:+ c) ∧
  (WebApi_User.country user = None → request_uri req = "/tracks/" +:+ trackId) ∧
  (∀ w0 id0,
     trackCache (GetTrack id0 true w0).2 = trackCache w0 ∧
     (∀ t, (GetTrack id0 true w0).1 = Ok t →
           (List.length (sent w0) < List.length (sent (GetTrack id0 true w0).2))%nat)) ∧
  (∀ w0 id0 res w1,
     GetTrack id0 true w0 = (res, w1) →
     (∀ user0 wu0 token0,
        GetUser w0 = (Ok user0, wu0) →
        access_token wu0 = Some token0 →
        ∃ k, (k ≤ 3)%nat ∧
             sent w1 = sent wu0 ++
               replicate k (make_request
                              (adjust_uri (relink_uri id0 (WebApi_User.country user0)))
                              token0)) ∧
     (∀ t, res = Ok t →
        ∃ user0 wu0 token0 h0 response0 j0,
          GetUser w0 = (Ok user0, wu0) ∧
          access_token wu0 = Some token0 ∧
          h0 ∈ server wu0 ∧
          h0 (make_request (adjust_uri (relink_uri id0 (WebApi_User.country user0))) token0)
            = Some response0 ∧
          ok_with response0 j0 ∧
          WebApi_Track.from_json j0 = Ok t)).
Proof.
  cbv zeta.
  assert (Hrun : GetTrack trackId true w =
    (Ok track,
     after_requests (set_abort_polls (S (abort_polls wu)) wu) rest
       (make_request (adjust_uri (relink_uri trackId (WebApi_User.country user))) token) 1 [])).
  { rewrite GetTrack_relink_unfold.
    rewrite (bind_Ok _ _ _ _ _ Huser). cbv zeta.
    assert (Huri : to_uri match WebApi_User.country user with
                          | Some country =>
                              append_query (append_path (append_path new_builder "tracks") trackId)
                                "market" country
                          | None => append_path (append_path new_builder "tracks") trackId
                          end = relink_uri trackId (WebApi_User.country user)).
    { unfold relink_uri. by destruct (WebApi_User.country user). }
    rewrite Huri.
    rewrite (bind_Ok _ _ _ _ _
               (GetJsonResponse_once wu _ token h rest response j Htok Habort Hsrv Hans Hok)).
    unfold bind, lift, ret. by rewrite Hdec. }
  split; [exact Hrun|]. split.
  { destruct (GetTrack trackId true w) as [res w'] eqn:E.
    by destruct (GetTrack_relink_frame _ _ _ _ E) as [E1 _]. }
  split; [by intros c ->|]. split; [by intros ->|]. split.
  { intros w0 id0. destruct (GetTrack id0 true w0) as [res w'] eqn:E.
    destruct (GetTrack_relink_frame _ _ _ _ E) as [E1 E2]. split; [done|].
    intros t Ht. by apply (E2 t). }
  intros w0 id0 res w1 E. rewrite GetTrack_relink_unfold in E.
  assert (Huri : ∀ u, to_uri match WebApi_User.country u with
                        | Some country =>
                            append_query (append_path (append_path new_builder "tracks") id0)
                              "market" country
                        | None => append_path (append_path new_builder "tracks") id0
                        end = relink_uri id0 (WebApi_User.country u)).
  { intros u. unfold relink_uri. by destruct (WebApi_User.country u). }
  apply bind_cases in E as [(user0 & wu0 & Hu & E) | [Hno (r1 & Hu & Hr1)]].
  2:{ split.
      - intros user1 wu1 token1 Hu1. rewrite Hu in Hu1. injection Hu1 as -> _.
        by destruct (Hr1 user1).
      - intros t ->. by destruct (Hno t). }
  cbv zeta in E. rewrite Huri in E.
  apply bind_cases in E as [(j0 & w2 & Hj & E) | [Hno (r1 & Hj & _)]].
  2:{ split.
      - intros user1 wu1 token1 Hu1 Htok1. rewrite Hu in Hu1. injection Hu1 as <- <-.
        by apply (GetJsonResponse_requests _ _ _ _ _ Htok1 Hj).
      - intros t ->. by destruct (Hno t). }
  assert (w1 = w2) as ->.
  { unfold bind, lift, ret in E. by destruct (WebApi_Track.from_json j0); injection E as _ <-. }
  split.
  - intros user1 wu1 token1 Hu1 Htok1. rewrite Hu in Hu1. injection Hu1 as <- <-.
    by apply (GetJsonResponse_requests _ _ _ _ _ Htok1 Hj).
  - intros t ->.
    apply GetJsonResponse_Ok_inv in Hj as (token0 & h0 & response0 & k & Ht & Hin & Hh & Hok0 & _).
    exists user0, wu0, token0, h0, response0, j0.
    repeat (split; [done|]).
    unfold bind, lift, ret in E. destruct (WebApi_Track.from_json j0); by injection E as ->.
Qed.


Lemma GetTrack_relink_witness :
  let w := relink_world (Some "DE") in
  GetTrack "x" true w =
    (Ok (track_of "x"),
     after_requests (set_abort_polls 1 w) [] (make_request "/tracks/x?market=DE" "token") 1 []) ∧
  trackCache (GetTrack "x" true w).2 = {[ "x" := stale_track "x" ]}.
Proof.
  intros w.
  destruct (GetTrack_relink w w "x" "token" (user_with (Some "DE"))
              (always (ok_response (track_json "x"))) [] (ok_response (track_json "x"))
              (track_json "x") (track_of "x"))
    as (Hrun & Hcache & _).
  - reflexivity.
  - reflexivity.
  - reflexivity.
  - reflexivity.
  - reflexivity.
  - repeat split.
  - reflexivity.
  - split; [exact Hrun | exact Hcache].
Defined.

(** The same after a retry: the server first answers 429 and then sends the
    track, and the track of the second answer is returned, not the older
    copy in the cache. *)
Example GetTrack_relink_after_retry :
  let w := set_transport
             [always (rate_limited "250"); always (ok_response (track_json "x"))] []
             (relink_world (Some "DE")) in
  (GetTrack "x" true w).1 = Ok (track_of "x") ∧
  map request_uri (sent (GetTrack "x" true w).2)
    = ["/tracks/x?market=DE"; "/tracks/x?market=DE"] ∧
  trackCache (GetTrack "x" true w).2 = {[ "x" := stale_track "x" ]}.
Proof. cbv zeta. repeat split; vm_compute; reflexivity. Qed.

(** C3 as stated fails: for a user whose profile has no country the request
    of a relinking [GetTrack] has no query at all, so no [market]
    parameter. *)
Lemma GetTrack_relink_counterexample :
  let w := relink_world None in
  (GetTrack "x" true w).1 = Ok (track_of "x") ∧
  map request_uri (sent (GetTrack "x" true w).2) = ["/tracks/x"] ∧
  contains "?" "/tracks/x" = false ∧
  ¬ (∀ req, req ∈ sent (GetTrack "x" true w).2 →
            ∃ c, request_uri req = "/tracks/x?market=" +:+ c).
Proof.
  cbv zeta. split; [vm_compute; reflexivity|]. split; [vm_compute; reflexivity|].
  split; [reflexivity|].
  intros H. destruct (H (make_request "/tracks/x" "token")) as [c Hc].
  - vm_compute. apply list_elem_of_here.
  - discriminate Hc.
Qed.

(** What [GetTopTracksForArtist] does once the user is there. *)
Lemma GetTopTracksForArtist_after_user artistId w user wu :
  GetUser w = (Ok user, wu) →
  GetTopTracksForArtist artistId w =
    match WebApi_User.country user with
    | None =>
        (Throw (QwrException
           "Adding artist top tracks requires `user-read-private` permission.
Re-login to update your permission scope."), wu)
    | Some country =>
        (let* responseJson := GetJsonResponse (top_tracks_uri artistId country) in
         match find responseJson "tracks" with
         | None =>
             throw (QwrException "Malformed track data response response: missing `tracks`")
         | Some tracksJson =>
             let* tracks := lift (get_vector WebApi_Track.from_json tracksJson) in
             modify (λ w, set_trackCache (CacheObjects tracks (trackCache w)) w) ;;
             ret tracks
         end) wu
    end.
Proof.
  intros Hu. unfold GetTopTracksForArtist. rewrite (bind_Ok _ _ _ _ _ Hu).
  by destruct (WebApi_User.country user).
Qed.

(** C10: [GetTopTracksForArtist] first gets the current user, and fails as
    [GetUser] fails.  When the profile of the user has no country it throws,
    and the world is as [GetUser] left it: no request for the top tracks has
    been sent.  When the profile has a country and the server answers the
    next request with something other than a 429, that request is the only
    one sent after the user was there, and it asks for the top tracks of the
    artist with [market=<country>]. *)
Theorem GetTopTracksForArtist_market (w : World) (artistId : string) :
  (∀ e wu, GetUser w = (Throw e, wu) →
     GetTopTracksForArtist artistId w = (Throw e, wu)) ∧
  (∀ user wu, GetUser w = (Ok user, wu) → WebApi_User.country user = None →
     ∃ msg, GetTopTracksForArtist artistId w = (Throw (QwrException msg), wu)) ∧
  (∀ user wu c token h rest response,
     GetUser w = (Ok user, wu) → WebApi_User.country user = Some c →
     access_token wu = Some token →
     abort_oracle wu (abort_polls wu) = false →
     server wu = h :: rest →
     h (make_request (adjust_uri (top_tracks_uri artistId c)) token) = Some response →
     status_code response ≠ 429%Z →
     let req := make_request (adjust_uri (top_tracks_uri artistId c)) token in
     sent (GetTopTracksForArtist artistId w).2 = sent wu ++ [req] ∧
     server (GetTopTracksForArtist artistId w).2 = rest ∧
     request_uri req = "/artists/" +:+ artistId +:+ "/top-tracks?market=" +:+ c).
Proof.
  split; [|split].
  - intros e wu Hu. unfold GetTopTracksForArtist. by rewrite (bind_Throw _ _ _ _ _ Hu).
  - intros user wu Hu Hc. rewrite (GetTopTracksForArtist_after_user _ _ _ _ Hu), Hc.
    by eexists.
  - intros user wu c token h rest response Hu Hc Htok Hab Hsrv Hh Hst. cbv zeta.
    rewrite (GetTopTracksForArtist_after_user _ _ _ _ Hu), Hc.
    split; [|split].
    3:{ unfold top_tracks_uri, to_uri, append_query, append_path, new_builder.
        cbn [ub_path ub_query empty]. simpl. by rewrite !append_assoc. }
    + unfold GetJsonResponse.
      unfold bind at 1.
      unfold bind at 1.
      rewrite (GetResponse_once wu _ token h rest response Htok Hab Hsrv Hh Hst).
      destruct (ParseResponse response _) as [[j| |] w1] eqn:Hp;
        apply ParseResponse_world in Hp as ->; [|done..].
      destruct (find j "tracks") as [tj|]; [|done].
      unfold bind, lift, modify, ret.
      by destruct (get_vector WebApi_Track.from_json tj).
    + unfold GetJsonResponse.
      unfold bind at 1.
      unfold bind at 1.
      rewrite (GetResponse_once wu _ token h rest response Htok Hab Hsrv Hh Hst).
      destruct (ParseResponse response _) as [[j| |] w1] eqn:Hp;
        apply ParseResponse_world in Hp as ->; [|done..].
      destruct (find j "tracks") as [tj|]; [|done].
      unfold bind, lift, modify, ret.
      by destruct (get_vector WebApi_Track.from_json tj).
Qed.

Lemma GetTopTracksForArtist_market_witness :
  (∃ msg, GetTopTracksForArtist "artist" (artist_world None)
          = (Throw (QwrException msg), artist_world None)) ∧
  map request_uri (sent (GetTopTracksForArtist "artist" (artist_world (Some "DE"))).2)
    = ["/artists/artist/top-tracks?market=DE"].
Proof.
  destruct (GetTopTracksForArtist_market (artist_world None) "artist") as (_ & Hnone & _).
  destruct (GetTopTracksForArtist_market (artist_world (Some "DE")) "artist") as (_ & _ & Hsome).
  split.
  - apply (Hnone (user_with None) (artist_world None)); reflexivity.
  - destruct (Hsome (user_with (Some "DE")) (artist_world (Some "DE")) "DE" "token"
                (always (ok_response (JObject [("tracks", JArray [track_json "a"; track_json "b"])])))
                [] (ok_response (JObject [("tracks", JArray [track_json "a"; track_json "b"])])))
      as (Hsent & _ & _).
    + reflexivity.
    + reflexivity.
    + reflexivity.
    + reflexivity.
    + reflexivity.
    + reflexivity.
    + discriminate.
    + rewrite Hsent. reflexivity.
Defined.

End TrackClaims.

Section PlaylistClaims.

Import WebApi_Backend Policy Scenario.

Lemma visit_items_spec items :
  ∀ tracks localTracks,
    visit_items items tracks localTracks =
      (tracks ++ tracks_of items, localTracks ++ local_tracks_of items).
Proof.
  induction items as [|p items IH]; intros tracks localTracks.
  - unfold tracks_of, local_tracks_of. simpl. by rewrite !app_nil_r.
  - cbn [visit_items]. unfold tracks_of, local_tracks_of in *.
    destruct (WebApi_PlaylistTrack.track p) as [t|l] eqn:Hp; rewrite IH; simpl; rewrite Hp;
      by rewrite <- app_assoc.
Qed.

Lemma tracks_of_app a b : tracks_of (a ++ b) = tracks_of a ++ tracks_of b.
Proof. apply omap_app. Qed.

Lemma local_tracks_of_app a b : local_tracks_of (a ++ b) = local_tracks_of a ++ local_tracks_of b.
Proof. apply omap_app. Qed.

Lemma GetTracksFromPlaylist_loop_pages token uri hs pages uris :
  paged token uri hs pages uris →
  ∀ fuel w rest tracks localTracks,
    access_token w = Some token →
    quiet w →
    server w = hs ++ rest →
    (List.length pages ≤ fuel)%nat →
    GetTracksFromPlaylist_loop fuel uri tracks localTracks w =
      (Ok (tracks ++ tracks_of (List.concat pages), localTracks ++ local_tracks_of (List.concat pages)),
       after_pages w rest token uris).
Proof.
  induction 1 as [uri h response items Hh Hpage
                 |uri h response items next hs pages uris Hh Hpage Hrest IH];
    intros fuel w rest tracks localTracks Htok Hq Hsrv Hfuel.
  - destruct fuel as [|fuel]; [simpl in Hfuel; lia|].
    destruct Hpage as (j & pg & Hok & Hpg & Hnext & Hitems).
    cbn [GetTracksFromPlaylist_loop].
    rewrite (bind_Ok _ _ _ _ _
               (GetJsonResponse_once w uri token h rest response j Htok (Hq _) Hsrv Hh Hok)).
    unfold bind at 1, lift. rewrite Hpg.
    unfold bind at 1, lift. rewrite Hitems.
    rewrite visit_items_spec, Hnext. unfold ret. cbn [List.concat]. rewrite app_nil_r.
    f_equal. unfold after_pages, after_requests. cbn. rewrite app_nil_r. f_equal. lia.
  - destruct fuel as [|fuel]; [simpl in Hfuel; lia|].
    destruct Hpage as (j & pg & Hok & Hpg & Hnext & Hitems).
    cbn [GetTracksFromPlaylist_loop].
    rewrite (bind_Ok _ _ _ _ _
               (GetJsonResponse_once w uri token h (hs ++ rest) response j Htok (Hq _) Hsrv Hh Hok)).
    unfold bind at 1, lift. rewrite Hpg.
    unfold bind at 1, lift. rewrite Hitems.
    rewrite visit_items_spec, Hnext.
    rewrite (IH fuel _ rest); [| done | done | done | simpl in Hfuel; lia].
    cbn [List.concat]. rewrite tracks_of_app, local_tracks_of_app, <- !app_assoc.
    f_equal. unfold after_pages, after_requests. cbn. rewrite app_nil_r, <- !app_assoc. cbn.
    f_equal. lia.
Qed.


Lemma IsCached_CacheObject track cache id :
  IsCached cache id = true → IsCached (CacheObject track cache) id = true.
Proof.
  unfold IsCached, CacheObject. rewrite !bool_decide_eq_true.
  intros H. destruct (decide (WebApi_Track.id track = id)) as [<-|Hne].
  - rewrite lookup_insert_eq. by eexists.
  - by rewrite lookup_insert_ne.
Qed.

Lemma IsCached_CacheObjects_mono tracks :
  ∀ cache id, IsCached cache id = true → IsCached (CacheObjects tracks cache) id = true.
Proof.
  induction tracks as [|t tracks IH]; intros cache id H; [done|].
  change (CacheObjects (t :: tracks) cache) with (CacheObjects tracks (CacheObject t cache)).
  apply IH. by apply IsCached_CacheObject.
Qed.

(** Every track handed to [CacheObjects] is cached afterwards. *)
Lemma CacheObjects_cached tracks :
  ∀ cache track, track ∈ tracks →
    IsCached (CacheObjects tracks cache) (WebApi_Track.id track) = true.
Proof.
  induction tracks as [|t tracks IH]; intros cache track Hin.
  - by apply not_elem_of_nil in Hin.
  - change (CacheObjects (t :: tracks) cache) with (CacheObjects tracks (CacheObject t cache)).
    apply elem_of_cons in Hin as [->|Hin].
    + apply IsCached_CacheObjects_mono. unfold IsCached, CacheObject.
      rewrite bool_decide_eq_true, lookup_insert_eq. by eexists.
    + by apply IH.
Qed.

Lemma paged_uris token uri hs pages uris :
  paged token uri hs pages uris →
  List.length uris = List.length pages ∧ List.length hs = List.length pages ∧
  head uris = Some uri.
Proof. induction 1 as [|? ? ? ? ? ? ? ? ? ? ? (IH1 & IH2 & _)]; simpl; auto. Qed.

(** C6: [GetTracksFromPlaylist] with a token at hand and a host that does
    not abort, against a server that serves the playlist in pages, each page
    but the last with a link to the next: the first request is for
    [playlists/<id>/tracks?limit=100], each further request is for the link
    of the page before, taken as it is, and there is one request for each
    page and none after the page without a link.  The call returns the
    tracks and the local tracks of all pages in the order of the server, and
    every track returned, that is every item that is no local track, is in
    the track cache afterwards.  In the scenario S6 (230 items in pages of
    100, 100 and 30) three requests are sent and all 230 items come back in
    order. *)
Theorem GetTracksFromPlaylist_pagination (w : World) (playlistId token : string) (fuel : nat)
    (hs rest : list (http_request → option http_response))
    (pages : list (list WebApi_PlaylistTrack.t)) (uris : list string)
    (Htok : access_token w = Some token)
    (Hquiet : quiet w)
    (Hsrv : server w = hs ++ rest)
    (Hpaged : paged token (playlist_uri playlistId) hs pages uris)
    (Hfuel : (List.length pages ≤ fuel)%nat) :
  let items := List.concat pages in
  let w' := set_trackCache (CacheObjects (tracks_of items) (trackCache w))
              (after_pages w rest token uris) in
  GetTracksFromPlaylist fuel playlistId w = (Ok (tracks_of items, local_tracks_of items), w') ∧
  sent w' = sent w ++ map (λ uri, make_request (adjust_uri uri) token) uris ∧
  List.length uris = List.length pages ∧
  head uris = Some (playlist_uri playlistId) ∧
  playlist_uri playlistId = "/playlists/" +:+ playlistId +:+ "/tracks?limit=100" ∧
  server w' = rest ∧
  (∀ track, track ∈ tracks_of items → IsCached (trackCache w') (WebApi_Track.id track) = true) ∧
  (let run := GetTracksFromPlaylist 3 "p" (fresh playlist_server) in
   let all := map playlist_item (seq 0 230) in
   run.1 = Ok (tracks_of all, local_tracks_of all) ∧
   (List.length (tracks_of all) + List.length (local_tracks_of all) = 230)%nat ∧
   map request_uri (sent run.2) =
     ["/playlists/p/tracks?limit=100";
      "playlists/p/tracks?offset=100&limit=100";
      "playlists/p/tracks?offset=200&limit=100"] ∧
   server run.2 = [] ∧
   trackCache run.2 = CacheObjects (tracks_of all) ∅).
Proof.
  cbv zeta.
  destruct (paged_uris _ _ _ _ _ Hpaged) as (Hlen & _ & Hhead).
  split.
  { unfold GetTracksFromPlaylist. fold (playlist_uri playlistId).
    rewrite (bind_Ok _ _ _ _ _
               (GetTracksFromPlaylist_loop_pages token _ hs pages uris Hpaged
                  fuel w rest [] [] Htok Hquiet Hsrv Hfuel)).
    reflexivity. }
  split; [reflexivity|]. split; [exact Hlen|]. split; [exact Hhead|].
  split.
  { unfold playlist_uri. change (pretty kMaxItemsPerRequest_playlist) with "100".
    unfold to_uri, append_query, append_path, new_builder.
    cbn [ub_path ub_query empty]. simpl. by rewrite !append_assoc. }
  split; [reflexivity|].
  split.
  { intros track Hin. cbn [trackCache set_trackCache]. by apply CacheObjects_cached. }
  repeat split; vm_compute; reflexivity.
Qed.

Lemma GetTracksFromPlaylist_pagination_witness :
  let pages := [[playlist_item 8; playlist_item 9]; [playlist_item 10]] in
  let items := List.concat pages in
  let uris := ["/playlists/q/tracks?limit=100";
               "https://api.spotify.com/v1/playlists/q/tracks?offset=2"] in
  let w := fresh small_playlist_server in
  GetTracksFromPlaylist 2 "q" w =
    (Ok (tracks_of items, local_tracks_of items),
     set_trackCache (CacheObjects (tracks_of items) ∅) (after_pages w [] "token" uris)).
Proof.
  intros pages items uris w.
  refine (proj1 (GetTracksFromPlaylist_pagination w "q" "token" 2 small_playlist_server []
                   pages uris _ _ _ _ _)).
  - reflexivity.
  - intros n. reflexivity.
  - reflexivity.
  - eapply paged_more.
    + reflexivity.
    + eexists _, _. repeat split; reflexivity.
    + eapply paged_last.
      * reflexivity.
      * eexists _, _. repeat split; reflexivity.
  - simpl. lia.
Defined.

End PlaylistClaims.

Section BatchClaims.

Import WebApi_Backend Policy Scenario.

(** As long as the cache does not change, walking the lazy views is
    filtering and cutting: the chunk read at a position is the first [n]
    ids that are not cached, and the next position is past them. *)
Lemma satisfy_forward_filter cache it :
  filter (λ id, IsCached cache id = false) (satisfy_forward cache it) =
  filter (λ id, IsCached cache id = false) it.
Proof.
  induction it as [|id it IH]; [done|]. cbn [satisfy_forward].
  destruct (IsCached cache id) eqn:E; [|done].
  rewrite IH. rewrite filter_cons_False; [done | congruence].
Qed.

Lemma satisfy_forward_head cache it id rest :
  satisfy_forward cache it = id :: rest → IsCached cache id = false.
Proof.
  induction it as [|i it IH]; [done|]. cbn [satisfy_forward].
  destruct (IsCached cache i) eqn:E; [done|]. by intros [= -> _].
Qed.

Lemma read_chunk_filter cache n :
  ∀ it,
    (∀ id rest, it = id :: rest → IsCached cache id = false) →
    read_chunk cache n it = take n (filter (λ id, IsCached cache id = false) it).
Proof.
  induction n as [|n IH]; intros it Hhead; [by destruct it|].
  destruct it as [|id rest]; [done|].
  cbn [read_chunk filter_next].
  rewrite filter_cons_True by by apply (Hhead id rest).
  cbn [take]. f_equal. rewrite IH.
  - by rewrite satisfy_forward_filter.
  - intros i r. apply satisfy_forward_head.
Qed.

Lemma satisfy_forward_length cache it :
  (List.length (satisfy_forward cache it) ≤ List.length it)%nat.
Proof.
  induction it as [|id it IH]; [done|]. cbn [satisfy_forward].
  destruct (IsCached cache id); simpl in *; lia.
Qed.

(** Going to the next chunk leaves fewer ids to walk. *)
Lemma advance_length cache n id it :
  (List.length (advance cache (S n) (id :: it)) ≤ List.length it)%nat.
Proof.
  cbn [advance filter_next].
  assert (G : ∀ m l, (List.length (advance cache m l) ≤ List.length l)%nat).
  { induction m as [|m IH]; intros l; [done|]. destruct l as [|i l]; [done|].
    cbn [advance filter_next]. etrans; [apply IH|].
    pose proof (satisfy_forward_length cache l). simpl. lia. }
  etrans; [apply G | apply satisfy_forward_length].
Qed.

(** As long as the cache does not change, the next position is past the
    chunk. *)
Lemma advance_filter cache n :
  ∀ it,
    (∀ id rest, it = id :: rest → IsCached cache id = false) →
    filter (λ id, IsCached cache id = false) (advance cache n it) =
    drop n (filter (λ id, IsCached cache id = false) it).
Proof.
  induction n as [|n IH]; intros it Hhead; [done|].
  destruct it as [|id rest]; [done|].
  cbn [advance filter_next].
  rewrite (filter_cons_True _ id rest) by by apply (Hhead id rest).
  cbn [drop]. rewrite IH.
  - by rewrite satisfy_forward_filter.
  - intros i r. apply satisfy_forward_head.
Qed.

Lemma retry_loop_returns n :
  ∀ req r0 w, (retry_loop n req r0 w).1 ≠ Diverges.
Proof.
  induction n as [|n IH]; intros req r0 w; [done|].
  cbn [retry_loop]. unfold bind at 1, client_request.
  destruct (server w) as [|h rest]; [done|].
  destruct (h req) as [r|]; [|done].
  destruct (negb (status_code r =? 429)%Z); [done|].
  destruct (find_header (headers r) "Retry-After") as [hdr|]; [|done].
  destruct (GetNumber hdr) as [ms|]; [|done].
  unfold bind, SleepFor. destruct (negb (negb _)); [done | apply IH].
Qed.

Lemma GetJsonResponse_returns requestUri w : (GetJsonResponse requestUri w).1 ≠ Diverges.
Proof.
  unfold GetJsonResponse, bind at 1.
  destruct (GetResponse requestUri w) as [[response| |] w1] eqn:E; [| done |].
  - unfold ParseResponse. destruct (negb _); [done|].
    destruct (body response) as [j|]; [|done].
    unfold bind, ExpectTrue. by destruct (is_object j).
  - exfalso. revert E. unfold GetResponse, GetAccessToken, bind at 1.
    destruct (access_token w); [|done].
    unfold bind at 1, is_aborting. destruct (abort_oracle w (abort_polls w)); [done|].
    unfold bind, ExpectTrue, ret. cbn [negb]. intros E.
    by apply (retry_loop_returns 3 (make_request (adjust_uri requestUri) s) no_response
                (set_abort_polls (S (abort_polls w)) w)); rewrite E.
Qed.

Lemma obind_returns {A B} (c : outcome A) (k : A → outcome B) :
  c ≠ Diverges → (∀ a, k a ≠ Diverges) → obind c k ≠ Diverges.
Proof. destruct c; simpl; auto. Qed.

Lemma at_returns j key : at_ j key ≠ Diverges.
Proof. unfold at_. by destruct (find j key). Qed.

Lemma get_string_returns j : get_string j ≠ Diverges.
Proof. by destruct j. Qed.

Lemma get_number_returns j : get_number j ≠ Diverges.
Proof. by destruct j. Qed.

Lemma get_uint32_returns j : get_uint32 j ≠ Diverges.
Proof. by destruct j. Qed.

Lemma get_array_returns j : get_array j ≠ Diverges.
Proof. by destruct j. Qed.

Lemma get_optional_returns {A} (decode : json → outcome A) j key :
  (∀ v, decode v ≠ Diverges) → get_optional decode j key ≠ Diverges.
Proof.
  intros Hd. unfold get_optional.
  destruct (find j key) as [v|]; [|done].
  destruct v; try done; by apply obind_returns.
Qed.

Ltac decoder_returns :=
  repeat first
    [ done
    | apply at_returns | apply get_string_returns | apply get_number_returns
    | apply get_uint32_returns | apply get_array_returns
    | apply get_optional_returns; intros ?
    | apply obind_returns; [|intros ?] ].

Lemma Track_from_json_returns j : WebApi_Track.from_json j ≠ Diverges.
Proof. unfold WebApi_Track.from_json. decoder_returns. Qed.

Lemma get_vector_returns j : get_vector WebApi_Track.from_json j ≠ Diverges.
Proof.
  unfold get_vector, obind, get_array. destruct j as [| | | |elems|]; try done.
  induction elems as [|e elems IH]; [done|]. cbn [get_elems]. unfold obind at 1.
  pose proof (Track_from_json_returns e).
  destruct (WebApi_Track.from_json e); [|done|done].
  unfold obind. by destruct (get_elems WebApi_Track.from_json elems).
Qed.

(** The fuel [RefreshCacheForTracks] gives its loop is enough: the call
    always ends, in a value or in an exception. *)
Lemma RefreshCacheForTracks_loop_returns fuel :
  ∀ it w, (List.length it ≤ fuel)%nat → (RefreshCacheForTracks_loop fuel it w).1 ≠ Diverges.
Proof.
  induction fuel as [|fuel IH]; intros it w Hlen.
  - destruct it; [done | simpl in Hlen; lia].
  - destruct it as [|id it]; [done|].
    cbn [RefreshCacheForTracks_loop]. unfold bind at 1, gets.
    unfold bind at 1.
    pose proof (GetJsonResponse_returns
      (to_uri (append_query (append_path new_builder "tracks") "ids"
         (Join (read_chunk (trackCache w) kMaxItemsPerRequest_tracks (id :: it)) ","))) w) as Hj.
    destruct (GetJsonResponse _ w) as [[j| |] w1]; [| done | done].
    destruct (find j "tracks") as [tj|]; [|done].
    unfold bind at 1, lift.
    pose proof (get_vector_returns tj) as Hv.
    destruct (get_vector WebApi_Track.from_json tj) as [ts| |]; [| done | done].
    unfold bind at 1, modify. unfold bind at 1, gets.
    apply IH. cbn [trackCache set_trackCache].
    pose proof (advance_length (CacheObjects ts (trackCache w1)) 49 id it) as Ha.
    unfold kMaxItemsPerRequest_tracks. simpl in Hlen. lia.
Qed.

Lemma RefreshCacheForTracks_returns trackIds w :
  (RefreshCacheForTracks trackIds w).1 ≠ Diverges.
Proof.
  unfold RefreshCacheForTracks, bind, gets.
  apply RefreshCacheForTracks_loop_returns, satisfy_forward_length.
Qed.

Lemma satisfy_forward_all_cached cache it :
  (∀ id, id ∈ it → IsCached cache id = true) → satisfy_forward cache it = [].
Proof.
  induction it as [|id it IH]; intros H; [done|]. cbn [satisfy_forward].
  rewrite (H id) by apply list_elem_of_here.
  apply IH. intros i Hi. apply H. by apply list_elem_of_further.
Qed.

Lemma satisfy_forward_suffix cache it : ∀ id, id ∈ satisfy_forward cache it → id ∈ it.
Proof.
  induction it as [|i it IH]; intros id; [done|]. cbn [satisfy_forward].
  destruct (IsCached cache i); [|done]. intros H. apply list_elem_of_further. by apply IH.
Qed.

Lemma cache_by_id_CacheObjects tracks :
  ∀ cache, cache_by_id cache → cache_by_id (CacheObjects tracks cache).
Proof.
  induction tracks as [|t tracks IH]; intros cache Hc; [done|].
  change (CacheObjects (t :: tracks) cache) with (CacheObjects tracks (CacheObject t cache)).
  apply IH. intros key track. unfold CacheObject.
  destruct (decide (WebApi_Track.id t = key)) as [<-|Hne].
  - rewrite lookup_insert_eq. by intros [= <-].
  - rewrite lookup_insert_ne by done. apply Hc.
Qed.

(** Serving the ids from a cache that holds them all: the tracks come back
    in the order of the ids, one for each id. *)
Lemma from_cache_all_cached trackIds :
  ∀ w, cache_by_id (trackCache w) →
       (∀ id, id ∈ trackIds → IsCached (trackCache w) id = true) →
       ∃ tracks, from_cache trackIds w = (Ok tracks, w) ∧
                 map WebApi_Track.id tracks = trackIds ∧
                 Forall2 (λ id track, trackCache w !! id = Some track) trackIds tracks.
Proof.
  induction trackIds as [|id ids IH]; intros w Hwf Hall.
  - exists []. by repeat split.
  - destruct (IH w Hwf) as (tracks & Hrun & Hids & Hlook).
    { intros i Hi. apply Hall. by apply list_elem_of_further. }
    pose proof (Hall id (list_elem_of_here _ _)) as Hid.
    cbn [from_cache]. unfold bind at 1, gets. rewrite Hid. cbn [negb].
    unfold IsCached in Hid. apply bool_decide_eq_true in Hid as [track Htrack].
    unfold GetObjectFromCache. rewrite Htrack.
    exists (track :: tracks). unfold bind, ret. rewrite Hrun.
    split; [done|]. split; [|by constructor].
    cbn [map]. by rewrite Hids, (Hwf id track Htrack).
Qed.

(** What the batch fetch does when at most 50 of the ids are to be fetched:
    one request for all of them, and, when the server sends a track for each
    of them, every id of the input is served from the cache, in the order of
    the input and as often as it occurs there. *)
Lemma GetTracks_single_chunk (w : World) (trackIds : list string) (token : string)
    (h : http_request → option http_response)
    (rest : list (http_request → option http_response))
    (response : http_response) (j tracksJson : json) (fetched : list WebApi_Track.t) :
  let missing := missing_ids trackIds (trackCache w) in
  let req := make_request (adjust_uri (tracks_uri missing)) token in
  cache_by_id (trackCache w) →
  missing ≠ [] →
  (List.length missing ≤ kMaxItemsPerRequest_tracks)%nat →
  access_token w = Some token →
  abort_oracle w (abort_polls w) = false →
  server w = h :: rest →
  h req = Some response →
  ok_with response j →
  find j "tracks" = Some tracksJson →
  get_vector WebApi_Track.from_json tracksJson = Ok fetched →
  (∀ id, id ∈ missing → id ∈ map WebApi_Track.id fetched) →
  ∃ tracks,
    GetTracks trackIds w =
      (Ok tracks,
       set_trackCache (CacheObjects fetched (trackCache w))
         (after_requests (set_abort_polls (S (abort_polls w)) w) rest req 1 [])) ∧
    map WebApi_Track.id tracks = trackIds.
Proof.
  intros missing req Hwf Hne Hlen Htok Hab Hsrv Hh Hok Hfind Hdec Hall.
  set (uniq := elements (list_to_set trackIds : gset string)).
  set (cache := trackCache w).
  set (it0 := satisfy_forward cache uniq).
  assert (Hfilter : filter (λ id, IsCached cache id = false) it0 = missing).
  { unfold it0. apply satisfy_forward_filter. }
  destruct it0 as [|x it] eqn:Hit0; [by rewrite <- Hfilter in Hne|].
  assert (Hchunk : read_chunk cache kMaxItemsPerRequest_tracks (x :: it) = missing).
  { rewrite read_chunk_filter.
    - rewrite Hfilter. by apply take_ge.
    - intros i r [= <- <-]. by apply (satisfy_forward_head cache uniq x it). }
  set (w1 := after_requests (set_abort_polls (S (abort_polls w)) w) rest req 1 []).
  set (cache' := CacheObjects fetched cache).
  assert (Hcached : ∀ id, id ∈ uniq → IsCached cache' id = true).
  { intros id Hid. destruct (IsCached cache id) eqn:E.
    - by apply IsCached_CacheObjects_mono.
    - assert (Hm : id ∈ missing).
      { unfold missing, missing_ids. apply list_elem_of_filter. by split. }
      apply Hall, list_elem_of_fmap in Hm as (t & -> & Ht).
      by apply CacheObjects_cached. }
  assert (Hrefresh : RefreshCacheForTracks trackIds w = (Ok tt, set_trackCache cache' w1)).
  { unfold RefreshCacheForTracks. unfold bind at 1, gets.
    fold uniq. fold cache. fold it0. rewrite Hit0.
    assert (Hfuel : (1 ≤ List.length uniq)%nat).
    { pose proof (satisfy_forward_length cache uniq) as Hl. fold it0 in Hl.
      rewrite Hit0 in Hl. simpl in Hl. lia. }
    destruct (List.length uniq) as [|fuel]; [lia|].
    cbn [RefreshCacheForTracks_loop]. unfold bind at 1, gets. fold cache.
    rewrite Hchunk. fold (tracks_uri missing).
    rewrite (bind_Ok _ _ _ _ _
               (GetJsonResponse_once w (tracks_uri missing) token h rest response j
                  Htok Hab Hsrv Hh Hok)).
    rewrite Hfind. unfold bind at 1, lift. rewrite Hdec.
    unfold bind at 1, modify. unfold bind at 1, gets.
    fold req. fold w1. change (trackCache w1) with cache. fold cache'.
    cbn [trackCache set_trackCache].
    assert (Hadv : advance cache' kMaxItemsPerRequest_tracks (x :: it) = []).
    { unfold kMaxItemsPerRequest_tracks. cbn [advance filter_next].
      rewrite satisfy_forward_all_cached; [done|].
      intros id Hid. apply Hcached.
      apply (satisfy_forward_suffix cache uniq). fold it0. rewrite Hit0.
      by apply list_elem_of_further. }
    rewrite Hadv. by destruct fuel. }
  destruct (from_cache_all_cached trackIds (set_trackCache cache' w1)) as (tracks & Hrun & Hids & _).
  { cbn [trackCache set_trackCache]. by apply cache_by_id_CacheObjects. }
  { intros id Hid. cbn [trackCache set_trackCache]. apply Hcached.
    unfold uniq. apply elem_of_elements, elem_of_list_to_set, Hid. }
  exists tracks. split; [|done].
  unfold GetTracks. by rewrite (bind_Ok _ _ _ _ _ Hrefresh).
Qed.

(** C5, evaluated where it fails.  With [a] asked for and a server that
    answers 200 with an empty list of tracks, [RefreshCacheForTracks] ends
    well and [a] is not cached, so the assertion of [GetTracks] fails.  With
    51 different ids asked for and a server that sends every track it is
    asked for, [RefreshCacheForTracks] ends well after a single request for
    50 ids, and one of the 51 ids is not cached. *)
Theorem RefreshCacheForTracks_leaves_ids_out :
  (let w := fresh [forgetful_endpoint] in
   (RefreshCacheForTracks ["a"] w).1 = Ok tt ∧
   IsCached (trackCache (RefreshCacheForTracks ["a"] w).2) "a" = false ∧
   (GetTracks ["a"] w).1 = Throw (AssertionFailure "trackCache_.IsCached( id )")) ∧
  (let w := fresh (replicate 10 tracks_endpoint) in
   (RefreshCacheForTracks ids51 w).1 = Ok tt ∧
   map ids_asked (sent (RefreshCacheForTracks ids51 w).2) = [50%nat] ∧
   List.length
     (filter (λ id, IsCached (trackCache (RefreshCacheForTracks ids51 w).2) id = false) ids51)
     = 1%nat ∧
   (GetTracks ids51 w).1 = Throw (AssertionFailure "trackCache_.IsCached( id )")).
Proof.
  cbv zeta. repeat split; vm_compute; reflexivity.
Qed.

(** C4, evaluated at the scenario S5: 120 ids, 100 of them different, nothing
    cached, and a server that sends every track it is asked for.  Two
    requests are sent, the first with 50 ids and the second with a single
    id, where the batch fetch pattern of the specification has two chunks of
    50; 51 tracks are cached, and [GetTracks] ends in the failed assertion
    instead of 120 tracks. *)
Theorem GetTracks_batch_scenario :
  let w := fresh (replicate 10 tracks_endpoint) in
  List.length ids120 = 120%nat ∧
  size (list_to_set ids120 : gset string) = 100%nat ∧
  map List.length (batch_plan_spec ids120 ∅) = [50%nat; 50%nat] ∧
  map ids_asked (sent (GetTracks ids120 w).2) = [50%nat; 1%nat] ∧
  size (trackCache (GetTracks ids120 w).2) = 51%nat ∧
  (GetTracks ids120 w).1 = Throw (AssertionFailure "trackCache_.IsCached( id )").
Proof.
  cbv zeta. repeat split; vm_compute; reflexivity.
Qed.

End BatchClaims.

(** * Further properties of the identifier model *)

Section IdentifierExtras.

Import SpotifyObject.

Lemma Split_length_sep s sep :
  contains sep s = true → (2 ≤ List.length (Split s sep))%nat.
Proof.
  intros H. pose proof (Split_not_nil s sep) as Hn.
  destruct (Split s sep) as [|a [|b l]] eqn:E; [done | | simpl; lia].
  assert (Hone : List.length (Split s sep) = 1%nat) by by rewrite E.
  apply Split_singleton in Hone. congruence.
Qed.

Lemma Join_Split s sep : Join (Split s sep) sep = s.
Proof.
  induction s as [|c s IH]; [done|]. cbn [Split].
  destruct (Ascii.eqb_spec c sep) as [->|Hne].
  - pose proof (Split_not_nil s sep). destruct (Split s sep) as [|w ws]; [done|].
    cbn [Join] in *. simpl. by rewrite IH.
  - pose proof (Split_not_nil s sep). destruct (Split s sep) as [|w ws]; [done|].
    destruct ws as [|w' ws]; cbn [Join] in *; simpl; by rewrite IH.
Qed.

Lemma find_app_first a b c :
  contains c a = false → StringView.find (a +:+ String c b) c = Some (String.length a).
Proof.
  induction a as [|d a IH]; simpl.
  - intros _. by rewrite Ascii.eqb_refl.
  - intros [Hd Ha]%orb_false_elim. rewrite Hd, IH; done.
Qed.

Lemma substr0_app a b : substr0 (String.length a) (a +:+ b) = a.
Proof. induction a as [|d a IH]; simpl; [by destruct b | by rewrite IH]. Qed.

(** What a successful parse tells about the input and the object. *)
Lemma parse_Ok_inv input o :
  parse input = Ok o →
  IsValidType (type o) = true ∧ id o ≠ EmptyString ∧
  (url_form input = true →
     contains "?" (id o) = false ∧ contains "/" (id o) = false) ∧
  (url_form input = false →
     contains ":" (id o) = false ∧
     without_schema input = "spotify:" +:+ type o +:+ ":" +:+ id o).
Proof.
  intros H. unfold parse in H. fold (without_schema input) in H.
  unfold url_form. destruct (starts_with (without_schema input) urlPrefix).
  - cbv zeta in H. set (ret := Split _ "/") in H.
    apply ExpectTrue_Ok in H as [Hlen H]. apply Nat.eqb_eq in Hlen.
    apply ExpectTrue_Ok in H as [Hty H].
    apply ExpectTrue_Ok in H as [Hne H]. injection H as <-. simpl.
    split; [done|]. split; [by apply empty_false|]. split; [|done]. intros _.
    assert (Hsl : contains "/" (nth 1 ret EmptyString) = false).
    { apply (nth_Forall (λ w, contains "/" w = false)); [apply Split_fields_no_sep | lia]. }
    destruct (StringView.find (nth 1 ret EmptyString) "?") as [pos|] eqn:Hf.
    + split; [by apply (substr0_find _ _ _ Hf) | by apply contains_substr0].
    + split; [by apply find_None | done].
  - cbv zeta in H. pose proof (Join_Split (without_schema input) ":") as HJ.
    pose proof (Split_fields_no_sep (without_schema input) ":") as HF.
    destruct (Split (without_schema input) ":") as [|a [|b [|c [|d l]]]] eqn:E;
      try (by apply ExpectTrue_Ok in H as [? _]).
    apply ExpectTrue_Ok in H as [_ H].
    apply ExpectTrue_Ok in H as [Hsp H]. apply String.eqb_eq in Hsp. simpl in Hsp. subst a.
    apply ExpectTrue_Ok in H as [Hty H].
    apply ExpectTrue_Ok in H as [Hne H]. injection H as <-. simpl in *.
    split; [done|]. split; [by apply empty_false|]. split; [done|]. intros _.
    split; [|by rewrite <- HJ].
    apply (nth_Forall (λ w, contains ":" w = false) _ 2 EmptyString HF). simpl. lia.
Qed.

(** X1: the scheme prefix is removed once.  An input that does not itself
    start with [sptf://] parses the same with the prefix put before it, and
    an input that starts with the prefix twice never parses. *)
Theorem parse_schema_prefix_once (s : string) :
  (starts_with s schemaPrefix = false → parse ("sptf://" +:+ s) = parse s) ∧
  parse ("sptf://sptf://" +:+ s) = Throw (QwrException "Invalid URI").
Proof.
  split.
  - intros Hs. unfold parse at 2. rewrite Hs. reflexivity.
  - change (parse ("sptf://sptf://" +:+ s))
      with (let ret := Split ("sptf" +:+ String ":" ("//" +:+ s)) ":" in
            ExpectTrue (Nat.eqb (List.length ret) 3) "Invalid URI" (
              ExpectTrue (String.eqb (nth 0 ret EmptyString) "spotify") "Invalid URI" (
                ExpectTrue (IsValidType (nth 1 ret EmptyString))
                  ("Unsupported Spotify object: " +:+ nth 1 ret EmptyString) (
                  ExpectTrue (negb (empty (nth 2 ret EmptyString)))
                    ("Invalid Spotify object id: " +:+ nth 2 ret EmptyString) (
                    Ok {| type := nth 1 ret EmptyString; id := nth 2 ret EmptyString |}))))).
    rewrite Split_app_sep by done. cbv zeta. unfold ExpectTrue.
    by destruct (Nat.eqb _ 3).
Qed.

Lemma parse_schema_prefix_once_witness :
  parse "sptf://spotify:album:1DFixLWuPkv3KT3TnV35m3"
  = parse "spotify:album:1DFixLWuPkv3KT3TnV35m3".
Proof. apply (proj1 (parse_schema_prefix_once "spotify:album:1DFixLWuPkv3KT3TnV35m3")). reflexivity. Defined.

(** X2: a query after a URL is cut off.  For an object of a supported type
    whose id is not empty and has no slash and no question mark, the URL of
    the object followed by [?] and any text without a slash parses to the
    object; when the text has a slash in it the parse fails as an invalid
    URL. *)
Theorem parse_url_query (o : t) (q : string)
    (Hty : IsValidType (type o) = true)
    (Hid : id o ≠ EmptyString)
    (Hslash : contains "/" (id o) = false)
    (Hquery : contains "?" (id o) = false) :
  (contains "/" q = false → parse (ToUrl o +:+ "?" +:+ q) = Ok o) ∧
  (contains "/" q = true →
   parse (ToUrl o +:+ "?" +:+ q) = Throw (QwrException "Invalid URL")).
Proof.
  destruct (IsValidType_no_sep _ Hty) as (_ & _ & Hs).
  assert (Hshape : ToUrl o +:+ "?" +:+ q
                   = "https://open.spotify.com/" +:+ (type o +:+ String "/" (id o +:+ String "?" q))).
  { unfold ToUrl. rewrite !append_assoc. reflexivity. }
  rewrite Hshape, parse_url_form, Split_app_sep by done. cbv zeta.
  split; intros Hq.
  - rewrite Split_no_sep by (rewrite contains_app; simpl; by rewrite Hslash, Hq).
    simpl. rewrite (find_app_first _ _ _ Hquery), substr0_app.
    unfold ExpectTrue. rewrite Hty. destruct o as [ty i]; simpl in *. by destruct i.
  - assert (Hc : contains "/" (id o +:+ String "?" q) = true).
    { rewrite contains_app. simpl. by rewrite Hq, orb_true_r. }
    apply Split_length_sep in Hc. unfold ExpectTrue.
    destruct (Nat.eqb_spec (List.length (type o :: Split (id o +:+ String "?" q) "/")) 2)
      as [Hl|]; [simpl in Hl; lia | done].
Qed.

Lemma parse_url_query_witness :
  parse "https://open.spotify.com/album/1DFixLWuPkv3KT3TnV35m3?si=abc"
  = Ok {| type := "album"; id := "1DFixLWuPkv3KT3TnV35m3" |}.
Proof.
  apply (proj1 (parse_url_query {| type := "album"; id := "1DFixLWuPkv3KT3TnV35m3" |} "si=abc"
                  eq_refl ltac:(discriminate) eq_refl eq_refl)).
  reflexivity.
Defined.

(** X3: printing a parsed object in the form it was parsed from and parsing
    that again gives the same object: the URI and the scheme string for an
    input of the URI form, the URL for an input of the URL form. *)
Theorem parse_print_parse (input : string) (o : t) (Hparse : parse input = Ok o) :
  (url_form input = false → parse (ToUri o) = Ok o ∧ parse (ToSchema o) = Ok o) ∧
  (url_form input = true → parse (ToUrl o) = Ok o).
Proof.
  destruct (parse_Ok_inv _ _ Hparse) as (Hty & Hid & Hurl & Huri).
  split; intros Hform.
  - destruct (Huri Hform) as [Hc _].
    split; [by apply roundtrip_uri | by apply roundtrip_schema].
  - destruct (Hurl Hform) as [Hq Hs]. by apply roundtrip_url.
Qed.

Lemma parse_print_parse_witness :
  let o := {| type := "album"; id := "1DFixLWuPkv3KT3TnV35m3" |} in
  parse (ToUrl o) = Ok o.
Proof.
  intros o.
  apply (proj2 (parse_print_parse "https://open.spotify.com/album/1DFixLWuPkv3KT3TnV35m3?si=abc"
                  o eq_refl)).
  reflexivity.
Defined.

(** X4: an input of the URI form that parses to a track is a filtered
    track: [SpotifyFilteredTrack::IsValid] accepts it, as a pure path too
    when it starts with [sptf://].  An input of the URL form that parses is
    never a filtered track. *)
Theorem parsed_track_is_filtered_track (input : string) (o : t)
    (Hparse : parse input = Ok o) :
  (url_form input = false → type o = "track" →
     SpotifyFilteredTrack.IsValid input false = true ∧
     SpotifyFilteredTrack.IsValid input true = starts_with input schemaPrefix) ∧
  (url_form input = true → ∀ b, SpotifyFilteredTrack.IsValid input b = false).
Proof.
  destruct (parse_Ok_inv _ _ Hparse) as (_ & _ & _ & Huri).
  unfold url_form, SpotifyFilteredTrack.IsValid. unfold without_schema in *.
  split.
  - intros Hform Hty. destruct (Huri Hform) as [_ Hshape]. rewrite Hty in Hshape.
    destruct (starts_with input schemaPrefix); by rewrite Hshape.
  - intros Hform b. apply starts_with_spec in Hform as [rest Hrest].
    destruct (starts_with input schemaPrefix).
    + by rewrite Hrest.
    + rewrite Hrest. by destruct b.
Qed.

Lemma parsed_track_is_filtered_track_witness :
  SpotifyFilteredTrack.IsValid "sptf://spotify:track:4cOdK2wGLETKBW3PvgPWqT" true = true.
Proof.
  destruct (parsed_track_is_filtered_track "sptf://spotify:track:4cOdK2wGLETKBW3PvgPWqT"
              {| type := "track"; id := "4cOdK2wGLETKBW3PvgPWqT" |} eq_refl)
    as [H _].
  destruct (H eq_refl eq_refl) as [_ H2]. exact H2.
Defined.

(** X5: a filtered track can be made of any id, and what it prints is
    recognised for what it is: its scheme string is a filtered track also as
    a pure path, its URI is one only when a pure path is not asked for, and
    its URL is none. *)
Theorem filtered_track_prints_valid (id : string) :
  ∃ f, FilteredTrack.make id = Ok f ∧
       SpotifyObject.id (FilteredTrack.object_ f) = id ∧
       SpotifyFilteredTrack.IsValid (FilteredTrack.ToSchema f) true = true ∧
       SpotifyFilteredTrack.IsValid (FilteredTrack.ToSchema f) false = true ∧
       SpotifyFilteredTrack.IsValid (FilteredTrack.ToUri f) false = true ∧
       SpotifyFilteredTrack.IsValid (FilteredTrack.ToUri f) true = false ∧
       (∀ b, SpotifyFilteredTrack.IsValid (FilteredTrack.ToUrl f) b = false).
Proof.
  exists {| FilteredTrack.object_ := {| type := "track"; id := id |} |}.
  repeat split. by intros [].
Qed.

End IdentifierExtras.

(** * Further properties of the HTTP engine *)

Section EngineExtras.

Import WebApi_Backend Policy Scenario.

(** X6: every request [GetResponse] sends is the same GET request, for the
    URI without the base and with the bearer token, and there are at most
    three of them.  Without a token, or with the host aborting when the call
    looks, nothing is sent; and a response is only returned after a request
    has been sent. *)
Theorem GetResponse_requests (w : World) (requestUri : string)
    (res : outcome http_response) (w' : World)
    (Hrun : GetResponse requestUri w = (res, w')) :
  (access_token w = None → sent w' = sent w) ∧
  (abort_oracle w (abort_polls w) = true → sent w' = sent w) ∧
  (∀ token, access_token w = Some token →
     ∃ k, (k ≤ 3)%nat ∧
          sent w' = sent w ++ replicate k (make_request (adjust_uri requestUri) token) ∧
          ((∃ r, res = Ok r) → (1 ≤ k)%nat)) ∧
  (∀ token, method (make_request (adjust_uri requestUri) token) = "GET" ∧
            find_header (request_headers (make_request (adjust_uri requestUri) token))
              "Authorization" = Some ("Bearer " +:+ token)).
Proof.
  unfold GetResponse, GetAccessToken, bind at 1 in Hrun.
  split; [|split; [|split]].
  - intros Hnone. rewrite Hnone in Hrun. by injection Hrun as _ <-.
  - intros Hab. destruct (access_token w); [|by injection Hrun as _ <-].
    unfold bind at 1, is_aborting in Hrun. rewrite Hab in Hrun. by injection Hrun as _ <-.
  - intros token Htok. rewrite Htok in Hrun.
    unfold bind at 1, is_aborting in Hrun.
    destruct (abort_oracle w (abort_polls w)).
    { injection Hrun as <- <-. exists 0%nat. cbn. rewrite app_nil_r.
      repeat split; [lia | by intros [r Hr]]. }
    unfold bind, ExpectTrue, ret in Hrun. cbn [negb] in Hrun.
    apply retry_loop_logs in Hrun as (k & delays & Hk & Hsent & _ & _ & _ & Hpos).
    exists k. repeat split; [done | done | intros Hr; by apply Hpos].
  - intros token. split; reflexivity.
Qed.

Lemma GetResponse_requests_witness :
  let w := fresh [always (rate_limited "250"); always (ok_response (track_json "x"))] in
  ∃ k, (k ≤ 3)%nat ∧
       sent (GetResponse "/tracks/x" w).2
       = sent w ++ replicate k (make_request (adjust_uri "/tracks/x") "token").
Proof.
  intros w.
  destruct (GetResponse_requests w "/tracks/x" (GetResponse "/tracks/x" w).1
              (GetResponse "/tracks/x" w).2) as (_ & _ & H & _).
  - by destruct (GetResponse "/tracks/x" w).
  - destruct (H "token" eq_refl) as (k & Hk & Hsent & _). by exists k.
Defined.

(** X7: [GetResponse] sleeps at most once for each request it has sent, and
    every sleep lasts at least 1000 ms and at most 4294967295 + 1000 ms: the
    number of the header is one of 32 bits and a second is added to it. *)
Theorem GetResponse_sleeps (w : World) (requestUri : string)
    (res : outcome http_response) (w' : World)
    (Hrun : GetResponse requestUri w = (res, w')) :
  ∃ delays,
    slept w' = slept w ++ delays ∧
    (List.length delays ≤ List.length (sent w') - List.length (sent w))%nat ∧
    (List.length delays ≤ 3)%nat ∧
    Forall (λ d, (1000 ≤ d ≤ 4294968295)%Z) delays.
Proof.
  unfold GetResponse, GetAccessToken, bind at 1 in Hrun.
  assert (Hnil : ∀ w0, sent w0 = sent w → slept w0 = slept w →
            ∃ delays, slept w0 = slept w ++ delays ∧
              (List.length delays ≤ List.length (sent w0) - List.length (sent w))%nat ∧
              (List.length delays ≤ 3)%nat ∧
              Forall (λ d, (1000 ≤ d ≤ 4294968295)%Z) delays).
  { intros w0 Hs Hsl. exists []. rewrite app_nil_r. repeat split; (done || simpl; lia). }
  destruct (access_token w) as [token|]; [|injection Hrun as _ <-; by apply Hnil].
  unfold bind at 1, is_aborting in Hrun.
  destruct (abort_oracle w (abort_polls w)); [injection Hrun as _ <-; by apply Hnil|].
  unfold bind, ExpectTrue, ret in Hrun. cbn [negb] in Hrun.
  apply retry_loop_logs in Hrun as (k & delays & Hk & Hsent & Hslept & Hlen & Hall & _).
  exists delays. cbn in Hsent, Hslept. rewrite Hsent, length_app, length_replicate.
  repeat split; (done || lia).
Qed.

Lemma GetResponse_sleeps_witness :
  let w := fresh [always (rate_limited "250"); always (ok_response (track_json "x"))] in
  ∃ delays, slept (GetResponse "/tracks/x" w).2 = slept w ++ delays ∧
            Forall (λ d, (1000 ≤ d ≤ 4294968295)%Z) delays.
Proof.
  intros w.
  destruct (GetResponse_sleeps w "/tracks/x" (GetResponse "/tracks/x" w).1
              (GetResponse "/tracks/x" w).2) as (delays & H & _ & _ & Hall).
  - by destruct (GetResponse "/tracks/x" w).
  - by exists delays.
Defined.


(** The rounds of the retry loop that end in a sleep that is not cut short:
    the host has to keep quiet during these sleeps only. *)
Lemma retry_loop_throttled_upto pre :
  ∀ n req r0 w hs rest,
    (∀ i, (i < List.length pre)%nat → abort_oracle w (abort_polls w + i) = false) →
    server w = hs ++ rest →
    answers req hs pre →
    Forall throttled pre →
    (List.length pre ≤ n)%nat →
    retry_loop n req r0 w =
      retry_loop (n - List.length pre) req (List.last pre r0)
        (after_requests w rest req (List.length pre) (map delay pre)).
Proof.
  induction pre as [|r pre IH]; intros n req r0 w hs rest Hq Hsrv Hans Hthr Hlen.
  - inversion Hans; subst. simpl in *. rewrite Nat.sub_0_r.
    f_equal. destruct w; unfold after_requests; simpl in *.
    rewrite !app_nil_r, Nat.add_0_r. by subst.
  - inversion Hans as [|h r' hs' pre' Hh Hans']; subst.
    inversion Hthr as [|? ? [Hst [ms Hms]] Hthr']; subst.
    destruct n as [|n]; [simpl in Hlen; lia|].
    cbn [retry_loop].
    assert (Hreq : client_request req w
                   = (Ok r, set_transport (hs' ++ rest) (sent w ++ [req]) w)).
    { unfold client_request. rewrite Hsrv. simpl. by rewrite Hh. }
    rewrite (bind_Ok _ _ _ _ _ Hreq). rewrite Hst.
    change (negb (429 =? 429)%Z) with false. cbv beta iota.
    unfold retry_after in Hms.
    destruct (find_header (headers r) "Retry-After") as [hdr|] eqn:Hhdr; [|done].
    rewrite Hms.
    unfold bind at 1, SleepFor. cbn [abort_oracle set_transport abort_polls].
    pose proof (Hq 0%nat ltac:(simpl; lia)) as Hq0. rewrite Nat.add_0_r in Hq0.
    rewrite Hq0. cbn [negb]. cbv beta iota.
    rewrite (IH n req r _ hs' rest); [| | done | done | done | simpl in Hlen; lia].
    2:{ intros i Hi. cbn.
        replace (S (abort_polls w + i)) with (abort_polls w + S i)%nat by lia.
        apply Hq. simpl. lia. }
    rewrite (last_cons_default pre r r0). cbn [List.length Nat.sub map].
    f_equal.
    unfold after_requests, set_slept, set_transport. cbn.
    assert (Hd : delay r = (ms + 1000)%Z) by (unfold delay, retry_after; by rewrite Hhdr, Hms).
    rewrite Hd, <- !app_assoc. cbn [app]. f_equal. lia.
Qed.

(** X8: a sleep that the host cuts short ends the retries.  When the host
    aborts during the sleep after a 429 response, [GetResponse] returns that
    429 response and sends no further request, also when it has attempts
    left. *)
Theorem GetResponse_sleep_aborted (w : World) (requestUri token : string)
    (hs rest : list (http_request → option http_response))
    (pre : list http_response) (last : http_response)
    (Htok : access_token w = Some token)
    (Hcheck : abort_oracle w (abort_polls w) = false)
    (Hsleeps : ∀ i, (i < List.length pre)%nat → abort_oracle w (S (abort_polls w) + i) = false)
    (Habort : abort_oracle w (S (abort_polls w) + List.length pre) = true)
    (Hsrv : server w = hs ++ rest)
    (Hans : answers (make_request (adjust_uri requestUri) token) hs (pre ++ [last]))
    (Hpre : Forall throttled (pre ++ [last]))
    (Hlen : (List.length pre ≤ 2)%nat) :
  GetResponse requestUri w =
    (Ok last,
     after_requests (set_abort_polls (S (abort_polls w)) w) rest
       (make_request (adjust_uri requestUri) token)
       (S (List.length pre)) (map delay (pre ++ [last]))) ∧
  server (GetResponse requestUri w).2 = rest.
Proof.
  assert (Hrun : GetResponse requestUri w =
    (Ok last,
     after_requests (set_abort_polls (S (abort_polls w)) w) rest
       (make_request (adjust_uri requestUri) token)
       (S (List.length pre)) (map delay (pre ++ [last])))).
  { rewrite (GetResponse_loop w requestUri token Htok Hcheck).
    set (req := make_request (adjust_uri requestUri) token) in *.
    set (w1 := set_abort_polls (S (abort_polls w)) w).
    apply answers_snoc in Hans as (hs' & h & -> & Hans & Hh).
    apply Forall_app in Hpre as [Hpre Hlast]. inversion_clear Hlast as [|? ? [Hst [ms Hms]] _].
    rewrite (retry_loop_throttled_upto pre 3 req no_response w1 hs' (h :: rest));
      [| done | by rewrite <- app_assoc in Hsrv | done | done | lia].
    destruct (3 - List.length pre)%nat as [|m] eqn:Hm; [lia|].
    cbn [retry_loop].
    set (w2 := after_requests w1 (h :: rest) req (List.length pre) (map delay pre)).
    assert (Hreq : client_request req w2 = (Ok last, set_transport rest (sent w2 ++ [req]) w2)).
    { unfold client_request. cbn. by rewrite Hh. }
    rewrite (bind_Ok _ _ _ _ _ Hreq). rewrite Hst.
    change (negb (429 =? 429)%Z) with false. cbv beta iota.
    unfold retry_after in Hms.
    destruct (find_header (headers last) "Retry-After") as [hdr|] eqn:Hhdr; [|done].
    rewrite Hms. unfold bind, SleepFor.
    cbn [abort_oracle abort_polls set_transport w2 after_requests w1 set_abort_polls].
    rewrite length_map, Habort. cbn [negb]. unfold ret. f_equal.
    unfold after_requests, set_slept, set_transport. cbn.
    assert (Hd : delay last = (ms + 1000)%Z) by (unfold delay, retry_after; by rewrite Hhdr, Hms).
    rewrite map_app, length_app, length_map. cbn [map List.length]. rewrite Hd.
    assert (Hs : ∀ l k, (l ++ replicate k req) ++ [req] = l ++ req :: replicate k req).
    { intros l k. rewrite <- app_assoc. f_equal. symmetry. apply (replicate_S_end k req). }
    rewrite Hs, <- !app_assoc. f_equal. lia. }
  split; [exact Hrun | by rewrite Hrun].
Qed.

Lemma GetResponse_sleep_aborted_witness :
  let w := mkWorld [always (rate_limited "250"); always (ok_response (track_json "x"))]
             [] [] (λ n, Nat.eqb n 1) 0 (Some "token") ∅ None in
  (GetResponse "/tracks/x" w).1 = Ok (rate_limited "250") ∧
  server (GetResponse "/tracks/x" w).2 = [always (ok_response (track_json "x"))].
Proof.
  intros w.
  destruct (GetResponse_sleep_aborted w "/tracks/x" "token"
              [always (rate_limited "250")] [always (ok_response (track_json "x"))]
              [] (rate_limited "250")) as [Hrun Hsrv].
  - reflexivity.
  - reflexivity.
  - intros i Hi. simpl in Hi. lia.
  - reflexivity.
  - reflexivity.
  - repeat constructor.
  - constructor; [|constructor]. split; [reflexivity | by eexists].
  - simpl. lia.
  - split; [by rewrite Hrun | exact Hsrv].
Defined.

(** X9: what [GetJsonResponse] returns is the body of a response with
    status 200 that the server gave to the request of the call, and that
    body is a JSON object.  The world is as [GetResponse] left it. *)
Theorem GetJsonResponse_sound (w : World) (requestUri : string) (j : json) (w' : World)
    (Hrun : GetJsonResponse requestUri w = (Ok j, w')) :
  ∃ token h response,
    access_token w = Some token ∧
    h ∈ server w ∧
    h (make_request (adjust_uri requestUri) token) = Some response ∧
    status_code response = 200%Z ∧ body response = Some j ∧ is_object j = true ∧
    GetResponse requestUri w = (Ok response, w').
Proof.
  unfold GetJsonResponse in Hrun.
  apply bind_cases in Hrun as [(response & w1 & Hresp & Hparse) | [Hno _]];
    [|by destruct (Hno j)].
  pose proof (ParseResponse_world _ _ _ _ Hparse) as ->.
  assert (Hok : ok_with response j).
  { unfold ParseResponse in Hparse.
    destruct (status_code response =? 200)%Z eqn:Hst; [|done]. cbn [negb] in Hparse.
    apply Z.eqb_eq in Hst.
    destruct (body response) as [j'|] eqn:Hb; [|done].
    unfold bind, ExpectTrue in Hparse. destruct (is_object j') eqn:Ho; [|done].
    injection Hparse as ->. done. }
  destruct Hok as (Hst & Hb & Ho).
  pose proof Hresp as Hresp'.
  unfold GetResponse, GetAccessToken, bind at 1 in Hresp.
  destruct (access_token w) as [token|] eqn:Htok; [|done].
  unfold bind at 1, is_aborting in Hresp.
  destruct (abort_oracle w (abort_polls w)); [done|].
  unfold bind, ExpectTrue, ret in Hresp. cbn [negb] in Hresp.
  apply retry_loop_Ok_from_server in Hresp as [-> | (h & Hin & Hh)]; [done|].
  exists token, h, response. cbn in Hin. done.
Qed.

Lemma GetJsonResponse_sound_witness :
  let w := fresh [always (rate_limited "250"); always (ok_response (track_json "x"))] in
  ∃ token h response,
    access_token w = Some token ∧ h ∈ server w ∧
    h (make_request (adjust_uri "/tracks/x") token) = Some response ∧
    status_code response = 200%Z ∧ body response = Some (track_json "x").
Proof.
  intros w.
  destruct (GetJsonResponse_sound w "/tracks/x" (track_json "x")
              (GetJsonResponse "/tracks/x" w).2 eq_refl)
    as (token & h & response & Htok & Hin & Hh & Hst & Hb & _).
  by exists token, h, response.
Defined.

(** X10: three 429 responses in a row make [GetJsonResponse] throw: the
    third response is what [GetResponse] returns, and [ParseResponse] turns
    it, as any response whose status is not 200, into a [QwrException]
    whose message is the status and the reason phrase on one line and the
    additional data on the next: the body as indented JSON, or the response
    as text when the body is no JSON.  Three requests have been sent. *)
Theorem GetJsonResponse_rate_limited (w : World) (requestUri token : string)
    (hs rest : list (http_request → option http_response))
    (r1 r2 r3 : http_response)
    (Htok : access_token w = Some token)
    (Hquiet : quiet w)
    (Hsrv : server w = hs ++ rest)
    (Hans : answers (make_request (adjust_uri requestUri) token) hs [r1; r2; r3])
    (Hthr : Forall throttled [r1; r2; r3]) :
  GetJsonResponse requestUri w =
    (Throw (QwrException
       ("429: " +:+ reason_phrase r3 +:+ newline +:+
        "Additional data: " +:+
        match body r3 with
        | Some responseJson => dump 2 responseJson
        | None => to_string r3
        end +:+ newline)),
     after_requests (set_abort_polls (S (abort_polls w)) w) rest
       (make_request (adjust_uri requestUri) token) 3 [delay r1; delay r2; delay r3]).
Proof.
  unfold GetJsonResponse.
  assert (Hresp : GetResponse requestUri w =
    (Ok r3,
     after_requests (set_abort_polls (S (abort_polls w)) w) rest
       (make_request (adjust_uri requestUri) token) 3 [delay r1; delay r2; delay r3])).
  { rewrite (GetResponse_loop w requestUri token Htok (Hquiet _)).
    by rewrite (retry_loop_throttled [r1; r2; r3] 3 _ no_response _ hs rest). }
  rewrite (bind_Ok _ _ _ _ _ Hresp). unfold ParseResponse, error_message, additional_data.
  assert (Hst : status_code r3 = 429%Z).
  { apply (nth_Forall throttled _ 2 no_response Hthr). simpl. lia. }
  rewrite Hst. reflexivity.
Qed.

Lemma GetJsonResponse_rate_limited_witness :
  let limited := {| status_code := 429; reason_phrase := "Too Many Requests";
                    headers := [("Retry-After", "3")];
                    body := Some (JObject [("retry", JArray [JNumber 3; JNull]);
                                           ("limit", JNumber 2)]);
                    to_string := "HTTP/1.1 429 Too Many Requests" |} in
  let w := fresh [always (rate_limited "1"); always (rate_limited "2");
                  always limited; always (ok_response (track_json "x"))] in
  (GetJsonResponse "/tracks/x" w).1 =
    Throw (QwrException
      ("429: Too Many Requests" +:+ newline +:+
       "Additional data: {" +:+ newline +:+
       "  " +:+ quote +:+ "limit" +:+ quote +:+ ": 2," +:+ newline +:+
       "  " +:+ quote +:+ "retry" +:+ quote +:+ ": [" +:+ newline +:+
       "    3," +:+ newline +:+
       "    null" +:+ newline +:+
       "  ]" +:+ newline +:+
       "}" +:+ newline)) ∧
  server (GetJsonResponse "/tracks/x" w).2 = [always (ok_response (track_json "x"))].
Proof.
  intros limited w.
  rewrite (GetJsonResponse_rate_limited w "/tracks/x" "token"
             [always (rate_limited "1"); always (rate_limited "2"); always limited]
             [always (ok_response (track_json "x"))]
             (rate_limited "1") (rate_limited "2") limited).
  - split; reflexivity.
  - reflexivity.
  - intros n. reflexivity.
  - reflexivity.
  - repeat constructor.
  - repeat constructor; by eexists.
Defined.

(** X11: a URI under the base URI of the client is asked for as the URI
    without the base: [GetResponse] does the same for both. *)
Theorem GetResponse_base_uri (w : World) (path : string)
    (Hrel : starts_with path spotifyApi = false) :
  GetResponse (spotifyApi +:+ path) w = GetResponse path w.
Proof.
  unfold GetResponse.
  assert (Hadj : adjust_uri (spotifyApi +:+ path) = adjust_uri path).
  { unfold adjust_uri. by rewrite starts_with_app, remove_prefix_app, Hrel. }
  by rewrite Hadj.
Qed.

Lemma GetResponse_base_uri_witness :
  let w := fresh [always (ok_response (track_json "x"))] in
  GetResponse "https://api.spotify.com/v1/tracks/x" w = GetResponse "tracks/x" w.
Proof. intros w. apply (GetResponse_base_uri w "tracks/x"). reflexivity. Defined.

End EngineExtras.

(** * Further properties of the cached operations *)

Section CacheExtras.

Import WebApi_Backend Policy Scenario.

(** X12: [GetUser] keeps the user it has fetched.  A cached user is returned
    as it is and the world stays as it was; a call that ends well leaves the
    user it returns in the cache, so that the next call returns the same
    user without a request; a call that fails leaves the user cache as it
    was. *)
Theorem GetUser_caches (w : World) :
  (∀ user, userCache w = Some user → GetUser w = (Ok user, w)) ∧
  (∀ user w1, GetUser w = (Ok user, w1) →
     userCache w1 = Some user ∧ GetUser w1 = (Ok user, w1)) ∧
  (∀ e w1, GetUser w = (Throw e, w1) → userCache w1 = userCache w).
Proof.
  assert (Hhit : ∀ w0 user, userCache w0 = Some user → GetUser w0 = (Ok user, w0)).
  { intros w0 user Hu. unfold GetUser, bind at 1, gets. by rewrite Hu. }
  split; [apply Hhit|]. split.
  - intros user w1 Hrun.
    assert (Hc : userCache w1 = Some user).
    { destruct (userCache w) as [u|] eqn:Hu.
      - rewrite (Hhit w u Hu) in Hrun. by injection Hrun as <- <-.
      - unfold GetUser, bind at 1, gets in Hrun. rewrite Hu in Hrun.
        apply bind_cases in Hrun as [(j & w2 & Hj & Hrun) | [Hno _]]; [|by destruct (Hno user)].
        unfold bind, lift, modify, ret in Hrun.
        destruct (WebApi_User.from_json j); [|done|done]. by injection Hrun as <- <-. }
    split; [done | by apply Hhit].
  - intros e w1 Hrun. unfold GetUser, bind at 1, gets in Hrun.
    destruct (userCache w) as [u|] eqn:Hu; [done|].
    apply bind_cases in Hrun as [(j & w2 & Hj & Hrun) | [_ (r1 & Hj & _)]].
    + apply GetJsonResponse_frame in Hj as (_ & Huc & _).
      unfold bind, lift, modify, ret in Hrun.
      destruct (WebApi_User.from_json j); [done| |done]. injection Hrun as _ <-. congruence.
    + apply GetJsonResponse_frame in Hj as (_ & Huc & _). congruence.
Qed.

Lemma GetUser_caches_witness :
  let w := artist_world (Some "DE") in
  GetUser w = (Ok (user_with (Some "DE")), w).
Proof. intros w. apply (proj1 (GetUser_caches w)). reflexivity. Defined.

(** What [GetTrack] does without relinking when the track is not cached. *)
Lemma GetTrack_miss_unfold trackId w :
  trackCache w !! trackId = None →
  GetTrack trackId false w =
    (let* responseJson :=
       GetJsonResponse (to_uri (append_path (append_path new_builder "tracks") trackId)) in
     let* track := lift (WebApi_Track.from_json responseJson) in
     modify (λ w, set_trackCache (CacheObject track (trackCache w)) w) ;;
     ret track) w.
Proof.
  intros Hmiss. unfold GetTrack. unfold bind at 1, gets.
  unfold GetObjectFromCache. rewrite Hmiss. unfold bind, ret.
  by destruct (GetJsonResponse _ w) as [[j| |] w1].
Qed.

(** X13: [GetTrack] without relinking.  A cached track is returned as it is,
    with no request and no change of the world.  A track that is not cached
    is fetched, and the track that comes back is put into the cache under
    its own id, so that asking for that id again returns it without a
    request.  A call that fails leaves the cache as it was. *)
Theorem GetTrack_cache (w : World) (trackId : string) :
  (∀ track, trackCache w !! trackId = Some track →
     GetTrack trackId false w = (Ok track, w)) ∧
  (∀ track w1, trackCache w !! trackId = None →
     GetTrack trackId false w = (Ok track, w1) →
     trackCache w1 = <[WebApi_Track.id track := track]> (trackCache w) ∧
     (List.length (sent w) < List.length (sent w1))%nat ∧
     GetTrack (WebApi_Track.id track) false w1 = (Ok track, w1)) ∧
  (∀ e w1, GetTrack trackId false w = (Throw e, w1) → trackCache w1 = trackCache w).
Proof.
  assert (Hhit : ∀ w0 id track, trackCache w0 !! id = Some track →
                  GetTrack id false w0 = (Ok track, w0)).
  { intros w0 id track Hc. unfold GetTrack, bind at 1, gets, GetObjectFromCache.
    by rewrite Hc. }
  split; [apply Hhit|]. split.
  - intros track w1 Hmiss Hrun. rewrite (GetTrack_miss_unfold _ _ Hmiss) in Hrun.
    apply bind_cases in Hrun as [(j & w2 & Hj & Hrun) | [Hno _]]; [|by destruct (Hno track)].
    apply GetJsonResponse_frame in Hj as ((_ & _ & Hc & _) & _ & Hlt).
    specialize (Hlt j eq_refl).
    unfold bind, lift, modify, ret in Hrun.
    destruct (WebApi_Track.from_json j) as [t| |]; [|done|done].
    injection Hrun as <- <-. cbn [trackCache set_trackCache sent].
    assert (Hnew : CacheObject t (trackCache w2) = <[WebApi_Track.id t := t]> (trackCache w))
      by (unfold CacheObject; by rewrite Hc).
    split; [done|]. split; [done|].
    apply Hhit. cbn [trackCache set_trackCache]. rewrite Hnew. apply lookup_insert_eq.
  - intros e w1 Hrun.
    destruct (trackCache w !! trackId) as [t|] eqn:Hc.
    { by rewrite (Hhit w trackId t Hc) in Hrun. }
    rewrite (GetTrack_miss_unfold _ _ Hc) in Hrun.
    apply bind_cases in Hrun as [(j & w2 & Hj & Hrun) | [_ (r1 & Hj & _)]].
    + apply GetJsonResponse_frame in Hj as ((_ & _ & Hc2 & _) & _).
      unfold bind, lift, modify, ret in Hrun.
      destruct (WebApi_Track.from_json j); [done| |done]. by injection Hrun as _ <-.
    + by apply GetJsonResponse_frame in Hj as ((_ & _ & Hc2 & _) & _).
Qed.

Lemma GetTrack_cache_witness :
  GetTrack "x" false (relink_world None) = (Ok (stale_track "x"), relink_world None).
Proof.
  apply (proj1 (GetTrack_cache (relink_world None) "x")). reflexivity.
Defined.


(** ** The batch fetch *)

Lemma uncached_cons_cached cache id l :
  IsCached cache id = true → uncached cache (id :: l) = uncached cache l.
Proof. intros H. apply filter_cons_False. congruence. Qed.

Lemma uncached_cons_uncached cache id l :
  IsCached cache id = false → uncached cache (id :: l) = id :: uncached cache l.
Proof. intros H. by apply filter_cons_True. Qed.

Lemma uncached_mono cache cache' l :
  (∀ id, IsCached cache id = true → IsCached cache' id = true) →
  uncached cache' l `sublist_of` uncached cache l.
Proof.
  intros Hm. induction l as [|id l IH]; [done|].
  destruct (IsCached cache' id) eqn:E'.
  - rewrite (uncached_cons_cached cache') by done.
    destruct (IsCached cache id) eqn:E.
    + by rewrite uncached_cons_cached.
    + rewrite uncached_cons_uncached by done. by apply sublist_cons.
  - assert (E : IsCached cache id = false).
    { destruct (IsCached cache id) eqn:E; [|done]. apply Hm in E. congruence. }
    rewrite !uncached_cons_uncached by done. by apply sublist_skip.
Qed.

Lemma sublist_take_S {A} (l X : list A) m :
  take m l ++ X `sublist_of` take (S m) l ++ X.
Proof.
  apply sublist_app; [|done].
  replace (take m l) with (take m (take (S m) l)) by (rewrite take_take; f_equal; lia).
  apply sublist_take.
Qed.

(** The chunk read at a position and the ids from the next position on,
    found with a cache that has grown in between, do not overlap, and they
    follow one another as in the list of the ids. *)
Lemma chunk_then_advance cache cache' r :
  (∀ id, IsCached cache id = true → IsCached cache' id = true) →
  ∀ m, take m (uncached cache r)
       ++ uncached cache (advance cache' m (satisfy_forward cache' r))
       `sublist_of` uncached cache r.
Proof.
  intros Hm. induction r as [|z r IH]; intros m.
  - by destruct m.
  - cbn [satisfy_forward]. destruct (IsCached cache' z) eqn:E'.
    + destruct (IsCached cache z) eqn:E.
      * rewrite uncached_cons_cached by done. apply IH.
      * rewrite uncached_cons_uncached by done.
        destruct m as [|m].
        -- apply sublist_cons. apply (IH 0%nat).
        -- cbn [take app]. apply sublist_skip.
           etrans; [apply sublist_take_S | apply (IH (S m))].
    + assert (E : IsCached cache z = false).
      { destruct (IsCached cache z) eqn:E; [|done]. apply Hm in E. congruence. }
      rewrite (uncached_cons_uncached cache z r) by done.
      destruct m as [|m].
      * cbn [advance take app]. by rewrite uncached_cons_uncached.
      * cbn [advance filter_next take app]. apply sublist_skip. apply IH.
Qed.

(** A position reached by moving forward is at the end or at an id that is
    not cached. *)
Lemma advance_head cache m :
  ∀ l id rest, advance cache m (satisfy_forward cache l) = id :: rest →
               IsCached cache id = false.
Proof.
  induction m as [|m IH]; intros l id rest.
  - apply satisfy_forward_head.
  - destruct (satisfy_forward cache l) as [|y s] eqn:E; [done|].
    cbn [advance filter_next]. apply IH.
Qed.

Lemma read_chunk_length cache n : ∀ it, (List.length (read_chunk cache n it) ≤ n)%nat.
Proof.
  induction n as [|n IH]; intros it; [by destruct it|].
  destruct it as [|id it]; [simpl; lia|]. cbn [read_chunk List.length].
  specialize (IH (filter_next cache (id :: it))). lia.
Qed.

Lemma GetJsonResponse_sent requestUri w token res w' :
  access_token w = Some token →
  GetJsonResponse requestUri w = (res, w') →
  ∃ k, sent w' = sent w ++ replicate k (make_request (adjust_uri requestUri) token).
Proof.
  intros Htok Hrun.
  assert (Hresp : ∀ r1 w1, GetResponse requestUri w = (r1, w1) →
            ∃ k, sent w1 = sent w ++ replicate k (make_request (adjust_uri requestUri) token)).
  { intros r1 w1. unfold GetResponse, GetAccessToken, bind at 1. rewrite Htok.
    unfold bind at 1, is_aborting. destruct (abort_oracle w (abort_polls w)).
    { intros [= _ <-]. exists 0%nat. cbn. by rewrite app_nil_r. }
    unfold bind, ExpectTrue, ret. cbn [negb].
    intros (k & _ & _ & Hsent & _)%retry_loop_logs. by exists k. }
  unfold GetJsonResponse in Hrun.
  apply bind_cases in Hrun as [(response & w1 & Hr & Hp) | [_ (r1 & Hr & _)]].
  - apply ParseResponse_world in Hp as ->. by apply Hresp in Hr.
  - by apply Hresp in Hr.
Qed.

(** What the loop of [RefreshCacheForTracks] asks the server for. *)
Lemma RefreshCacheForTracks_loop_requests token fuel :
  ∀ it w res w',
    access_token w = Some token →
    (∀ id rest, it = id :: rest → IsCached (trackCache w) id = false) →
    RefreshCacheForTracks_loop fuel it w = (res, w') →
    ∃ chunks new,
      sent w' = sent w ++ new ∧
      Forall (λ req, ∃ chunk, chunk ∈ chunks ∧
                     req = make_request (adjust_uri (tracks_uri chunk)) token) new ∧
      Forall (λ chunk, chunk ≠ [] ∧
                       (List.length chunk ≤ kMaxItemsPerRequest_tracks)%nat) chunks ∧
      List.concat chunks `sublist_of` uncached (trackCache w) it ∧
      (∀ id, IsCached (trackCache w) id = true → IsCached (trackCache w') id = true).
Proof.
  induction fuel as [|fuel IH]; intros it w res w' Htok Hhead Hrun.
  - exists [], []. destruct it; injection Hrun as _ <-; rewrite app_nil_r;
      repeat split; try done; apply sublist_nil_l.
  - destruct it as [|x r].
    { exists [], []. injection Hrun as _ <-. rewrite app_nil_r.
      repeat split; try done. }
    cbn [RefreshCacheForTracks_loop] in Hrun. unfold bind at 1, gets in Hrun.
    set (cache := trackCache w) in *.
    set (chunk := read_chunk cache kMaxItemsPerRequest_tracks (x :: r)) in *.
    fold (tracks_uri chunk) in Hrun.
    pose proof (Hhead x r eq_refl) as Hx.
    assert (Hchunk : chunk = x :: take 49 (uncached cache r)).
    { unfold chunk. rewrite read_chunk_filter by done.
      by rewrite uncached_cons_uncached. }
    assert (Hone : ∀ r1 w1 k,
      sent w1 = sent w ++ replicate k (make_request (adjust_uri (tracks_uri chunk)) token) →
      trackCache w1 = cache →
      ∃ chunks new,
        sent w1 = sent w ++ new ∧
        Forall (λ req, ∃ c, c ∈ chunks ∧
                       req = make_request (adjust_uri (tracks_uri c)) token) new ∧
        Forall (λ c, c ≠ [] ∧ (List.length c ≤ kMaxItemsPerRequest_tracks)%nat) chunks ∧
        List.concat chunks `sublist_of` uncached cache (x :: r) ∧
        (∀ id, IsCached cache id = true → IsCached (trackCache w1) id = true) ∧
        (r1 : outcome unit) = r1).
    { intros r1 w1 k Hsent Hc.
      exists [chunk], (replicate k (make_request (adjust_uri (tracks_uri chunk)) token)).
      split; [exact Hsent|].
      split; [apply Forall_replicate; exists chunk; split; [apply list_elem_of_here | done]|].
      split.
      { constructor; [|constructor]. split; [by rewrite Hchunk | apply read_chunk_length]. }
      split.
      { cbn [List.concat]. rewrite app_nil_r, Hchunk, uncached_cons_uncached by done.
        apply sublist_skip, sublist_take. }
      split; [by rewrite Hc | done]. }
    apply bind_cases in Hrun as [(j & w1 & Hj & Hrun) | [_ (r1 & Hj & _)]].
    2:{ destruct (GetJsonResponse_sent _ _ _ _ _ Htok Hj) as [k Hk].
        apply GetJsonResponse_frame in Hj as ((_ & _ & Hc & _) & _).
        destruct (Hone res w' k Hk Hc) as (chunks & new & H1 & H2 & H3 & H4 & H5 & _).
        by exists chunks, new. }
    destruct (GetJsonResponse_sent _ _ _ _ _ Htok Hj) as [k Hk].
    apply GetJsonResponse_frame in Hj as ((_ & _ & Hc & Htok1 & _) & _).
    destruct (find j "tracks") as [tj|].
    2:{ injection Hrun as _ <-.
        destruct (Hone res w1 k Hk Hc) as (chunks & new & H1 & H2 & H3 & H4 & H5 & _).
        by exists chunks, new. }
    unfold bind at 1, lift in Hrun.
    destruct (get_vector WebApi_Track.from_json tj) as [ts| |].
    2,3: injection Hrun as _ <-;
         destruct (Hone res w1 k Hk Hc) as (chunks & new & H1 & H2 & H3 & H4 & H5 & _);
         by exists chunks, new.
    unfold bind at 1, modify in Hrun. unfold bind at 1, gets in Hrun.
    cbn [trackCache set_trackCache] in Hrun. rewrite Hc in Hrun.
    set (cache' := CacheObjects ts cache) in *.
    assert (Hmono : ∀ id, IsCached cache id = true → IsCached cache' id = true).
    { intros id. apply IsCached_CacheObjects_mono. }
    apply IH in Hrun as (chunks & new & Hs & Hreqs & Hsizes & Hsub & Hm).
    + exists (chunk :: chunks), (replicate k (make_request (adjust_uri (tracks_uri chunk)) token) ++ new).
      cbn [sent set_trackCache trackCache] in Hs, Hsub, Hm.
      split; [by rewrite Hs, Hk, <- app_assoc|].
      split.
      { apply Forall_app. split.
        - apply Forall_replicate. exists chunk. split; [apply list_elem_of_here | done].
        - eapply Forall_impl; [exact Hreqs|]. intros req (c & Hin & ->).
          exists c. split; [by apply list_elem_of_further | done]. }
      split.
      { constructor; [|done]. split; [by rewrite Hchunk | apply read_chunk_length]. }
      split.
      { cbn [List.concat]. rewrite Hchunk, uncached_cons_uncached by done.
        cbn [app]. apply sublist_skip.
        etrans; [|apply (chunk_then_advance cache cache' r Hmono 49)].
        apply sublist_app; [done|].
        etrans; [exact Hsub|]. by apply uncached_mono. }
      intros id Hid. by apply Hm, Hmono.
    + cbn [access_token set_trackCache]. congruence.
    + cbn [trackCache set_trackCache]. intros id rest.
      intros Hadv. apply (advance_head cache' 49 r id rest). exact Hadv.
Qed.

(** X14: what [RefreshCacheForTracks] asks the server for.  Every request
    it sends asks for one of its chunks; a chunk has at least one and at
    most 50 ids; and the ids of all chunks, one chunk after the other, are
    ids of the input that were not cached when the call began, each of them
    at most once: no id is asked for in two chunks or twice in one.  No id
    that was cached when the call began is dropped from the cache. *)
Theorem RefreshCacheForTracks_requests (w : World) (trackIds : list string) (token : string)
    (res : outcome unit) (w' : World)
    (Htok : access_token w = Some token)
    (Hrun : RefreshCacheForTracks trackIds w = (res, w')) :
  ∃ chunks new,
    sent w' = sent w ++ new ∧
    Forall (λ req, ∃ chunk, chunk ∈ chunks ∧
                   req = make_request (adjust_uri (tracks_uri chunk)) token) new ∧
    Forall (λ chunk, chunk ≠ [] ∧ (List.length chunk ≤ 50)%nat) chunks ∧
    List.concat chunks `sublist_of` missing_ids trackIds (trackCache w) ∧
    NoDup (List.concat chunks) ∧
    (∀ id, id ∈ List.concat chunks → id ∈ trackIds ∧ IsCached (trackCache w) id = false) ∧
    (∀ id, IsCached (trackCache w) id = true → IsCached (trackCache w') id = true).
Proof.
  unfold RefreshCacheForTracks, bind at 1, gets in Hrun.
  apply (RefreshCacheForTracks_loop_requests token) in Hrun
    as (chunks & new & Hs & Hreqs & Hsizes & Hsub & Hm); [|done|apply satisfy_forward_head].
  rewrite satisfy_forward_filter in Hsub. fold (missing_ids trackIds (trackCache w)) in Hsub.
  exists chunks, new. repeat split; try done.
  - eapply sublist_NoDup; [|exact Hsub]. apply NoDup_filter, NoDup_elements.
  - pose proof (elem_of_sublist _ _ id H Hsub) as Hin.
    apply list_elem_of_filter in Hin as [_ Hin].
    by apply elem_of_elements, elem_of_list_to_set in Hin.
  - pose proof (elem_of_sublist _ _ id H Hsub) as Hin.
    by apply list_elem_of_filter in Hin as [Hc _].
Qed.

Lemma RefreshCacheForTracks_requests_witness :
  let w := fresh (replicate 10 tracks_endpoint) in
  ∃ chunks : list (list string),
    Forall (λ chunk, chunk ≠ [] ∧ (List.length chunk ≤ 50)%nat) chunks ∧
    NoDup (List.concat chunks).
Proof.
  intros w.
  destruct (RefreshCacheForTracks_requests w ids51 "token"
              (RefreshCacheForTracks ids51 w).1 (RefreshCacheForTracks ids51 w).2)
    as (chunks & new & _ & _ & Hsizes & _ & Hnd & _).
  - reflexivity.
  - by destruct (RefreshCacheForTracks ids51 w).
  - by exists chunks.
Defined.


Lemma from_cache_lookup trackIds :
  ∀ w, (∀ id, id ∈ trackIds → IsCached (trackCache w) id = true) →
       ∃ tracks, from_cache trackIds w = (Ok tracks, w) ∧
                 Forall2 (λ id track, trackCache w !! id = Some track) trackIds tracks.
Proof.
  induction trackIds as [|id ids IH]; intros w Hall.
  - exists []. by split.
  - destruct (IH w) as (tracks & Hrun & Hlook).
    { intros i Hi. apply Hall. by apply list_elem_of_further. }
    pose proof (Hall id (list_elem_of_here _ _)) as Hid.
    cbn [from_cache]. unfold bind at 1, gets. rewrite Hid. cbn [negb].
    unfold IsCached in Hid. apply bool_decide_eq_true in Hid as [track Htrack].
    unfold GetObjectFromCache. rewrite Htrack.
    exists (track :: tracks). unfold bind, ret. rewrite Hrun.
    split; [done | by constructor].
Qed.

(** X15: ids that are all cached cost no request.  When every id of the
    input is cached, and so too when the input is empty,
    [RefreshCacheForTracks] and [GetTracks] leave the world as it is, and
    [GetTracks] returns for each id of the input, in the order of the input,
    the track the cache holds for it. *)
Theorem GetTracks_all_cached (w : World) (trackIds : list string)
    (Hcached : ∀ id, id ∈ trackIds → IsCached (trackCache w) id = true) :
  RefreshCacheForTracks trackIds w = (Ok tt, w) ∧
  ∃ tracks, GetTracks trackIds w = (Ok tracks, w) ∧
            Forall2 (λ id track, trackCache w !! id = Some track) trackIds tracks.
Proof.
  assert (Hrefresh : RefreshCacheForTracks trackIds w = (Ok tt, w)).
  { unfold RefreshCacheForTracks, bind at 1, gets.
    rewrite satisfy_forward_all_cached.
    - by destruct (List.length _).
    - intros id Hid. apply Hcached.
      by apply elem_of_elements, elem_of_list_to_set in Hid. }
  split; [done|].
  destruct (from_cache_lookup trackIds w Hcached) as (tracks & Hrun & Hlook).
  exists tracks. split; [|done].
  unfold GetTracks. by rewrite (bind_Ok _ _ _ _ _ Hrefresh).
Qed.

Lemma GetTracks_all_cached_witness :
  ∃ tracks, GetTracks ["x"; "x"] (relink_world None) = (Ok tracks, relink_world None) ∧
            Forall2 (λ id track, trackCache (relink_world None) !! id = Some track)
              ["x"; "x"] tracks.
Proof.
  apply (proj2 (GetTracks_all_cached (relink_world None) ["x"; "x"]
                  ltac:(intros id Hid; by repeat
                          (apply elem_of_cons in Hid as [->|Hid]; [reflexivity|]);
                        by apply not_elem_of_nil in Hid))).
Defined.

Lemma GetTracks_single_chunk_witness :
  let w := fresh [tracks_endpoint] in
  ∃ tracks, (GetTracks ["b"; "a"; "b"] w).1 = Ok tracks ∧
            map WebApi_Track.id tracks = ["b"; "a"; "b"].
Proof.
  intros w.
  destruct (GetTracks_single_chunk w ["b"; "a"; "b"] "token" tracks_endpoint []
              (ok_response (JObject [("tracks",
                 JArray (map track_json (missing_ids ["b"; "a"; "b"] ∅)))]))
              (JObject [("tracks", JArray (map track_json (missing_ids ["b"; "a"; "b"] ∅)))])
              (JArray (map track_json (missing_ids ["b"; "a"; "b"] ∅)))
              (map track_of (missing_ids ["b"; "a"; "b"] ∅)))
    as (tracks & Hrun & Hids).
  - intros key track H. change (trackCache w) with (∅ : gmap string WebApi_Track.t) in H.
    by rewrite lookup_empty in H.
  - vm_compute. discriminate.
  - vm_compute. lia.
  - reflexivity.
  - reflexivity.
  - reflexivity.
  - vm_compute. reflexivity.
  - repeat split.
  - reflexivity.
  - vm_compute. reflexivity.
  - intros id Hid. vm_compute in Hid. vm_compute. exact Hid.
  - exists tracks. by rewrite Hrun.
Defined.

(** The loop of [GetTracksFromPlaylist] does not touch the track cache. *)
Lemma GetTracksFromPlaylist_loop_cache fuel :
  ∀ requestUri tracks localTracks w res w',
    GetTracksFromPlaylist_loop fuel requestUri tracks localTracks w = (res, w') →
    trackCache w' = trackCache w.
Proof.
  induction fuel as [|fuel IH]; intros requestUri tracks localTracks w res w' Hrun.
  - by injection Hrun as _ <-.
  - cbn [GetTracksFromPlaylist_loop] in Hrun.
    apply bind_cases in Hrun as [(j & w1 & Hj & Hrun) | [_ (r1 & Hj & _)]];
      [|by apply GetJsonResponse_frame in Hj as ((_ & _ & Hc & _) & _)].
    apply GetJsonResponse_frame in Hj as ((_ & _ & Hc & _) & _).
    unfold bind at 1, lift in Hrun.
    destruct (WebApi_PagingObject.from_json j) as [pg| |];
      [| by injection Hrun as _ <- | by injection Hrun as _ <-].
    unfold bind at 1, lift in Hrun.
    destruct (get_vector WebApi_PlaylistTrack.from_json _) as [items| |];
      [| by injection Hrun as _ <- | by injection Hrun as _ <-].
    destruct (visit_items items tracks localTracks) as [ts ls].
    destruct (WebApi_PagingObject.next pg) as [next|].
    + apply IH in Hrun. congruence.
    + by injection Hrun as _ <-.
Qed.

(** X16: the operations that cache at their end cache nothing when they
    fail.  [GetTrack] (relinking or not), [GetTopTracksForArtist] and
    [GetTracksFromPlaylist] leave the track cache as it was whenever they
    throw. *)
Theorem failure_leaves_track_cache (w : World) (e : exn) (w' : World) :
  (∀ trackId useRelink,
     GetTrack trackId useRelink w = (Throw e, w') → trackCache w' = trackCache w) ∧
  (∀ artistId,
     GetTopTracksForArtist artistId w = (Throw e, w') → trackCache w' = trackCache w) ∧
  (∀ fuel playlistId,
     GetTracksFromPlaylist fuel playlistId w = (Throw e, w') → trackCache w' = trackCache w).
Proof.
  split; [|split].
  - intros trackId [] Hrun.
    + by destruct (GetTrack_relink_frame _ _ _ _ Hrun).
    + destruct (trackCache w !! trackId) as [t|] eqn:Hc.
      { unfold GetTrack, bind at 1, gets, GetObjectFromCache in Hrun.
        by rewrite Hc in Hrun. }
      rewrite (GetTrack_miss_unfold _ _ Hc) in Hrun.
      apply bind_cases in Hrun as [(j & w2 & Hj & Hrun) | [_ (r1 & Hj & _)]].
      * apply GetJsonResponse_frame in Hj as ((_ & _ & Hc2 & _) & _).
        unfold bind, lift, modify, ret in Hrun.
        destruct (WebApi_Track.from_json j); [done| |done]. by injection Hrun as _ <-.
      * by apply GetJsonResponse_frame in Hj as ((_ & _ & Hc2 & _) & _).
  - intros artistId Hrun. unfold GetTopTracksForArtist in Hrun.
    apply bind_cases in Hrun as [(user & wu & Hu & Hrun) | [_ (r1 & Hu & _)]];
      [|by apply GetUser_frame in Hu as (_ & _ & Hc & _)].
    apply GetUser_frame in Hu as (_ & _ & Hc & _).
    destruct (WebApi_User.country user) as [country|]; [|injection Hrun as _ <-; done].
    apply bind_cases in Hrun as [(j & w1 & Hj & Hrun) | [_ (r1 & Hj & _)]];
      [|apply GetJsonResponse_frame in Hj as ((_ & _ & Hc1 & _) & _); congruence].
    apply GetJsonResponse_frame in Hj as ((_ & _ & Hc1 & _) & _).
    destruct (find j "tracks") as [tj|]; [|injection Hrun as _ <-; congruence].
    unfold bind, lift, modify, ret in Hrun.
    destruct (get_vector WebApi_Track.from_json tj); [done| |done].
    injection Hrun as _ <-. congruence.
  - intros fuel playlistId Hrun. unfold GetTracksFromPlaylist in Hrun.
    apply bind_cases in Hrun as [([ts ls] & w1 & Hloop & Hrun) | [_ (r1 & Hloop & _)]].
    + done.
    + by apply GetTracksFromPlaylist_loop_cache in Hloop.
Qed.

Lemma failure_leaves_track_cache_witness :
  let not_found := {| status_code := 404; reason_phrase := "Not Found";
                      headers := []; body := Some (JObject []);
                      to_string := "HTTP/1.1 404 Not Found" |} in
  let message := "404: Not Found" +:+ newline +:+ "Additional data: {}" +:+ newline in
  let w := fresh [always not_found] in
  (GetTrack "y" false w).1 = Throw (QwrException message) ∧
  trackCache (GetTrack "y" false w).2 = trackCache w.
Proof.
  intros not_found message w.
  assert (Hres : (GetTrack "y" false w).1 = Throw (QwrException message)) by reflexivity.
  split; [exact Hres|].
  apply (proj1 (failure_leaves_track_cache w (QwrException message)
                  (GetTrack "y" false w).2) "y" false).
  destruct (GetTrack "y" false w) as [res w']. simpl in Hres. by rewrite Hres.
Defined.


(** X17: what [GetTopTracksForArtist] makes of the answer.  With the user
    there and a country in the profile, and a 200 response with a JSON
    object: when the object has no [tracks] member the call throws and the
    track cache stays as it was; when [tracks] decodes to a list of tracks,
    that list is returned in the order of the server and every track of it
    is in the track cache afterwards; when an element of [tracks] does not
    decode, the error of the decoder comes out and nothing is cached. *)
Theorem GetTopTracksForArtist_result (w wu : World) (artistId country token : string)
    (user : WebApi_User.t)
    (h : http_request → option http_response)
    (rest : list (http_request → option http_response))
    (response : http_response) (j : json)
    (Huser : GetUser w = (Ok user, wu))
    (Hcountry : WebApi_User.country user = Some country)
    (Htok : access_token wu = Some token)
    (Habort : abort_oracle wu (abort_polls wu) = false)
    (Hsrv : server wu = h :: rest)
    (Hans : h (make_request (adjust_uri (top_tracks_uri artistId country)) token)
            = Some response)
    (Hok : ok_with response j) :
  let w1 := after_requests (set_abort_polls (S (abort_polls wu)) wu) rest
              (make_request (adjust_uri (top_tracks_uri artistId country)) token) 1 [] in
  (find j "tracks" = None →
     GetTopTracksForArtist artistId w =
       (Throw (QwrException "Malformed track data response response: missing `tracks`"), w1) ∧
     trackCache w1 = trackCache wu) ∧
  (∀ tracksJson tracks,
     find j "tracks" = Some tracksJson →
     get_vector WebApi_Track.from_json tracksJson = Ok tracks →
     GetTopTracksForArtist artistId w =
       (Ok tracks, set_trackCache (CacheObjects tracks (trackCache wu)) w1) ∧
     ∀ track, track ∈ tracks →
       IsCached (CacheObjects tracks (trackCache wu)) (WebApi_Track.id track) = true) ∧
  (∀ tracksJson e,
     find j "tracks" = Some tracksJson →
     get_vector WebApi_Track.from_json tracksJson = Throw e →
     GetTopTracksForArtist artistId w = (Throw e, w1)).
Proof.
  cbv zeta.
  rewrite (GetTopTracksForArtist_after_user _ _ _ _ Huser), Hcountry.
  rewrite (bind_Ok _ _ _ _ _
             (GetJsonResponse_once wu _ token h rest response j Htok Habort Hsrv Hans Hok)).
  split; [|split].
  - intros Hnone. by rewrite Hnone.
  - intros tracksJson tracks Hsome Hdec. rewrite Hsome.
    unfold bind, lift, modify, ret. rewrite Hdec.
    split; [done|]. intros track Hin. by apply CacheObjects_cached.
  - intros tracksJson e Hsome Hdec. rewrite Hsome.
    unfold bind, lift. by rewrite Hdec.
Qed.

Lemma GetTopTracksForArtist_result_witness :
  let w := artist_world (Some "DE") in
  (GetTopTracksForArtist "artist" w).1 = Ok [track_of "a"; track_of "b"] ∧
  IsCached (trackCache (GetTopTracksForArtist "artist" w).2) "b" = true.
Proof.
  intros w.
  destruct (GetTopTracksForArtist_result w w "artist" "DE" "token" (user_with (Some "DE"))
              (always (ok_response (JObject [("tracks", JArray [track_json "a"; track_json "b"])])))
              [] (ok_response (JObject [("tracks", JArray [track_json "a"; track_json "b"])]))
              (JObject [("tracks", JArray [track_json "a"; track_json "b"])]))
    as (_ & Hsome & _).
  - reflexivity.
  - reflexivity.
  - reflexivity.
  - reflexivity.
  - reflexivity.
  - reflexivity.
  - repeat split.
  - destruct (Hsome (JArray [track_json "a"; track_json "b"]) [track_of "a"; track_of "b"]
                eq_refl eq_refl) as [Hrun Hcached].
    rewrite Hrun. split; [reflexivity|].
    apply (Hcached (track_of "b")). apply list_elem_of_further, list_elem_of_here.
Defined.

End CacheExtras.

(** * Tracks of an album *)

Section AlbumExtras.

Import WebApi_Backend Policy Scenario AlbumTracks AlbumScenario.

(** The first round gets the album and takes the page from it. *)
Lemma next_paging_json_first albumId album w j tracksJson w' :
  GetJsonResponse (album_uri albumId) w = (Ok j, w') →
  find j "tracks" = Some tracksJson →
  next_paging_json albumId album EmptyString w = (Ok (j, tracksJson), w').
Proof.
  intros Hget Hfind. unfold next_paging_json. cbn [empty].
  rewrite (bind_Ok _ _ _ _ _ Hget).
  unfold album_from_json, lift, bind. by rewrite Hfind.
Qed.

(** A later round gets the page at the link and keeps the album. *)
Lemma next_paging_json_link albumId album uri w j w' :
  uri ≠ EmptyString →
  GetJsonResponse uri w = (Ok j, w') →
  next_paging_json albumId album uri w = (Ok (album, j), w').
Proof.
  intros Hne Hget. unfold next_paging_json.
  destruct uri as [|c uri]; [done|]. cbn [empty].
  by rewrite (bind_Ok _ _ _ _ _ Hget).
Qed.

(** The rounds of the loop after the first follow the links of the pages. *)
Lemma GetTracksFromAlbum_loop_rest token next hs pages uris :
  album_rest token next hs pages uris →
  ∀ fuel albumId album ret_ w rest,
    access_token w = Some token →
    quiet w →
    server w = hs ++ rest →
    (List.length pages ≤ fuel)%nat →
    match next with
    | None => ret (album, ret_)
    | Some uri => GetTracksFromAlbum_loop fuel albumId album uri ret_
    end w = (Ok (album, ret_ ++ List.concat pages), after_pages w rest token uris).
Proof.
  induction 1 as [|uri h response j items next hs pages uris Hne Hh Hok Hpage Hrest IH];
    intros fuel albumId album ret_ w rest Htok Hq Hsrv Hfuel.
  - unfold ret. cbn [List.concat]. rewrite app_nil_r. f_equal.
    destruct w. unfold after_pages. cbn in *. subst. rewrite app_nil_r. f_equal. lia.
  - destruct fuel as [|fuel]; [simpl in Hfuel; lia|].
    destruct Hpage as (pg & Hpg & Hnext & Hitems).
    cbn [GetTracksFromAlbum_loop].
    rewrite (bind_Ok _ _ _ _ _
               (next_paging_json_link albumId album uri w j _ Hne
                  (GetJsonResponse_once w uri token h (hs ++ rest) response j
                     Htok (Hq _) Hsrv Hh Hok))).
    unfold bind at 1, lift. rewrite Hpg.
    unfold bind at 1, lift. rewrite Hitems. rewrite Hnext.
    specialize (IH fuel albumId album (ret_ ++ items)
                  (after_requests (set_abort_polls (S (abort_polls w)) w) (hs ++ rest)
                     (make_request (adjust_uri uri) token) 1 []) rest).
    rewrite IH; [| done | done | done | simpl in Hfuel; lia].
    cbn [List.concat]. rewrite <- !app_assoc.
    f_equal. unfold after_pages, after_requests. cbn. rewrite app_nil_r, <- !app_assoc. cbn.
    f_equal. lia.
Qed.

(** X18: [GetTracksFromAlbum] asks for the album once, takes the first page
    of tracks from the album object itself, and then follows the links of
    the pages until a page has none; every track it returns holds the album
    of the first response, the tracks come in the order of the pages, and
    all of them are cached. *)
Theorem GetTracksFromAlbum_pagination w albumId token fuel h0 response0 album tracksJson
    items0 next hs rest pages uris :
  access_token w = Some token →
  quiet w →
  server w = h0 :: hs ++ rest →
  h0 (make_request (adjust_uri (album_uri albumId)) token) = Some response0 →
  ok_with response0 album →
  find album "tracks" = Some tracksJson →
  simplified_page tracksJson items0 next →
  album_rest token next hs pages uris →
  (S (List.length pages) ≤ fuel)%nat →
  let tracks := map (λ elem, WebApi_Track_Simplified.to_track elem album)
                    (items0 ++ List.concat pages) in
  ∃ w', GetTracksFromAlbum fuel albumId w = (Ok tracks, w') ∧
        sent w' = sent w ++ map (λ uri, make_request (adjust_uri uri) token)
                                (album_uri albumId :: uris) ∧
        server w' = rest ∧
        slept w' = slept w ∧
        trackCache w' = CacheObjects tracks (trackCache w) ∧
        Forall (λ track, IsCached (trackCache w') (WebApi_Track.id track) = true) tracks.
Proof.
  intros Htok Hq Hsrv Hh Hok Hfind (pg & Hpg & Hnext & Hitems) Hrest Hfuel tracks.
  destruct fuel as [|fuel]; [lia|].
  pose (w1 := after_requests (set_abort_polls (S (abort_polls w)) w) (hs ++ rest)
                (make_request (adjust_uri (album_uri albumId)) token) 1 []).
  assert (GetTracksFromAlbum_loop (S fuel) albumId JNull EmptyString [] w =
            (Ok (album, items0 ++ List.concat pages), after_pages w1 rest token uris)) as Hloop.
  { cbn [GetTracksFromAlbum_loop].
    rewrite (bind_Ok _ _ _ _ _
               (next_paging_json_first albumId JNull w album tracksJson _
                  (GetJsonResponse_once w _ token h0 (hs ++ rest) response0 album
                     Htok (Hq _) Hsrv Hh Hok) Hfind)).
    unfold bind at 1, lift. rewrite Hpg.
    unfold bind at 1, lift. rewrite Hitems. rewrite Hnext. cbn [app].
    exact (GetTracksFromAlbum_loop_rest token next hs pages uris Hrest fuel albumId album
             items0 w1 rest Htok Hq eq_refl ltac:(lia)). }
  eexists. split.
  - unfold GetTracksFromAlbum. rewrite (bind_Ok _ _ _ _ _ Hloop).
    unfold bind, modify, ret. reflexivity.
  - cbn. rewrite app_nil_r, <- !app_assoc. repeat split.
    apply Forall_forall. intros track Hin. by apply CacheObjects_cached.
Qed.

Lemma GetTracksFromAlbum_pagination_witness :
  let w := fresh album_server in
  let tracks := map (λ elem, WebApi_Track_Simplified.to_track elem album_json)
                    ([simplified_of "t1"; simplified_of "t2"] ++ List.concat [[simplified_of "t3"]]) in
  ∃ w', GetTracksFromAlbum 2 "a" w = (Ok tracks, w') ∧
        sent w' = sent w ++ map (λ uri, make_request (adjust_uri uri) "token")
                                [album_uri "a"; "https://api.spotify.com/v1/albums/a/tracks?offset=2"] ∧
        server w' = [] ∧
        slept w' = slept w ∧
        trackCache w' = CacheObjects tracks (trackCache w) ∧
        Forall (λ track, IsCached (trackCache w') (WebApi_Track.id track) = true) tracks.
Proof.
  intros w.
  refine (GetTracksFromAlbum_pagination w "a" "token" 2
            (serve_at "/albums/a" (ok_response album_json)) (ok_response album_json)
            album_json _
            [simplified_of "t1"; simplified_of "t2"] _
            [serve_at "albums/a/tracks?offset=2" (ok_response (album_page_json ["t3"] None))]
            [] [[simplified_of "t3"]] _
            _ _ _ _ _ _ _ _ _).
  - reflexivity.
  - intros n. reflexivity.
  - reflexivity.
  - reflexivity.
  - repeat split; reflexivity.
  - reflexivity.
  - eexists. repeat split; reflexivity.
  - eapply album_rest_more.
    + discriminate.
    + reflexivity.
    + repeat split; reflexivity.
    + eexists. repeat split; reflexivity.
    + apply album_rest_done.
  - simpl. lia.
Defined.

(** X19: when the album object has no member [tracks],
    [GetTracksFromAlbum] fails with a [QwrException] that says so, after
    the one request for the album, and caches nothing. *)
Theorem GetTracksFromAlbum_missing_tracks w albumId token fuel h0 rest response0 album :
  access_token w = Some token →
  abort_oracle w (abort_polls w) = false →
  server w = h0 :: rest →
  h0 (make_request (adjust_uri (album_uri albumId)) token) = Some response0 →
  ok_with response0 album →
  find album "tracks" = None →
  (1 ≤ fuel)%nat →
  ∃ w', GetTracksFromAlbum fuel albumId w =
          (Throw (QwrException "Malformed track data response: missing `tracks`"), w') ∧
        sent w' = sent w ++ [make_request (adjust_uri (album_uri albumId)) token] ∧
        trackCache w' = trackCache w.
Proof.
  intros Htok Hab Hsrv Hh Hok Hfind Hfuel.
  destruct fuel as [|fuel]; [lia|].
  eexists. split.
  - unfold GetTracksFromAlbum. cbn [GetTracksFromAlbum_loop].
    unfold next_paging_json. cbn [empty].
    erewrite bind_Throw; [reflexivity|].
    erewrite bind_Throw; [reflexivity|].
    rewrite (bind_Ok _ _ _ _ _
               (GetJsonResponse_once w _ token h0 rest response0 album Htok Hab Hsrv Hh Hok)).
    unfold album_from_json, lift, bind. rewrite Hfind. reflexivity.
  - cbn. done.
Qed.

Lemma GetTracksFromAlbum_missing_tracks_witness :
  let w := fresh [serve_at "/albums/a" (ok_response (JObject [("name", JString "a")]))] in
  ∃ w', GetTracksFromAlbum 1 "a" w =
          (Throw (QwrException "Malformed track data response: missing `tracks`"), w') ∧
        sent w' = sent w ++ [make_request (adjust_uri (album_uri "a")) "token"] ∧
        trackCache w' = trackCache w.
Proof.
  intros w.
  refine (GetTracksFromAlbum_missing_tracks w "a" "token" 1
            (serve_at "/albums/a" (ok_response (JObject [("name", JString "a")]))) []
            (ok_response (JObject [("name", JString "a")]))
            (JObject [("name", JString "a")]) _ _ _ _ _ _ _).
  - reflexivity.
  - reflexivity.
  - reflexivity.
  - reflexivity.
  - repeat split; reflexivity.
  - reflexivity.
  - lia.
Defined.

End AlbumExtras.

(** * The login buttons of the preferences page *)

Section PreferencesExtras.

Import Preferences.

Lemma UpdateBackendUi_shows status btn text name :
  shows status (UpdateBackendUi status btn text name).1
        (UpdateBackendUi status btn text name).2.
Proof.
  unfold shows. destruct status, btn as [[] caption]; cbn;
    repeat split; intros; try discriminate; try done;
    try (destruct_or?; discriminate); try (by left); by right.
Qed.

Lemma UpdateLibSpotifyUi_shows name p :
  shows (libSpotifyStatus_ (UpdateLibSpotifyUi name p))
        (btnLibSpotify_ (UpdateLibSpotifyUi name p))
        (textLibSpotify_ (UpdateLibSpotifyUi name p)).
Proof.
  pose proof (UpdateBackendUi_shows (libSpotifyStatus_ p) (btnLibSpotify_ p)
                (textLibSpotify_ p) name) as H.
  unfold UpdateLibSpotifyUi. by destruct UpdateBackendUi.
Qed.

Lemma UpdateWebApiUi_shows name p :
  shows (webApiStatus_ (UpdateWebApiUi name p))
        (btnWebApi_ (UpdateWebApiUi name p))
        (textWebApi_ (UpdateWebApiUi name p)).
Proof.
  pose proof (UpdateBackendUi_shows (webApiStatus_ p) (btnWebApi_ p)
                (textWebApi_ p) name) as H.
  unfold UpdateWebApiUi. by destruct UpdateBackendUi.
Qed.

Lemma UpdateLibSpotifyUi_web name p :
  webApiStatus_ (UpdateLibSpotifyUi name p) = webApiStatus_ p ∧
  btnWebApi_ (UpdateLibSpotifyUi name p) = btnWebApi_ p ∧
  textWebApi_ (UpdateLibSpotifyUi name p) = textWebApi_ p.
Proof. unfold UpdateLibSpotifyUi. by destruct UpdateBackendUi. Qed.

Lemma UpdateWebApiUi_lib name p :
  libSpotifyStatus_ (UpdateWebApiUi name p) = libSpotifyStatus_ p ∧
  btnLibSpotify_ (UpdateWebApiUi name p) = btnLibSpotify_ p ∧
  textLibSpotify_ (UpdateWebApiUi name p) = textLibSpotify_ p.
Proof. unfold UpdateWebApiUi. by destruct UpdateBackendUi. Qed.

Lemma handle_shows p m : page_shows p → page_shows (handle p m).
Proof.
  intros [Hlib Hweb]. destruct m as [r n|r n|r n|r1 r2 n1 n2]; cbn [handle].
  - unfold OnLibSpotifyLoginClick. split; [apply UpdateLibSpotifyUi_shows|].
    destruct (UpdateLibSpotifyUi_web n
                match libSpotifyStatus_ p with
                | logged_out => set_libSpotifyStatus (if r then logged_in else logged_out) p
                | _ => set_libSpotifyStatus logged_out p
                end) as (-> & -> & ->).
    by destruct (libSpotifyStatus_ p).
  - unfold OnWebApiLoginClick.
    destruct (webApiStatus_ p), r;
      (split; [|apply UpdateWebApiUi_shows]);
      repeat match goal with
             | |- context [libSpotifyStatus_ (UpdateWebApiUi ?n ?q)] =>
                 destruct (UpdateWebApiUi_lib n q) as (-> & -> & ->)
             end; done.
  - unfold OnWebApiLoginResponse. split; [|apply UpdateWebApiUi_shows].
    by destruct (UpdateWebApiUi_lib n
                   (set_webApiStatus (if r then logged_in else logged_out) p)) as (-> & -> & ->).
  - unfold OnStatusUpdateFinish. split; [|apply UpdateWebApiUi_shows].
    match goal with
    | |- context [libSpotifyStatus_ (UpdateWebApiUi ?n ?q)] =>
        destruct (UpdateWebApiUi_lib n q) as (-> & -> & ->)
    end.
    apply UpdateLibSpotifyUi_shows.
Qed.

(** X20: once the dialog is initialised, whatever messages the login part of
    the page handles and whatever the backends answer, each of the two
    login buttons shows the status of its backend: it is enabled exactly
    when the status is logged out or logged in (never while the status is
    being fetched or a login is in progress), it reads [Log out] exactly
    when logged in and [Log in] otherwise, and the status text says
    [logged out] exactly when logged out. *)
Theorem login_buttons_show_status (p0 : t) (lsUsername waUsername : string)
    (messages : list message) :
  let p := run (OnInitDialog lsUsername waUsername p0) messages in
  shows (libSpotifyStatus_ p) (btnLibSpotify_ p) (textLibSpotify_ p) ∧
  shows (webApiStatus_ p) (btnWebApi_ p) (textWebApi_ p).
Proof.
  cbn zeta. unfold run.
  assert (page_shows (OnInitDialog lsUsername waUsername p0)) as Hinit.
  { unfold OnInitDialog. split; [|apply UpdateWebApiUi_shows].
    destruct (UpdateWebApiUi_lib waUsername (UpdateLibSpotifyUi lsUsername p0)) as (-> & -> & ->).
    apply UpdateLibSpotifyUi_shows. }
  revert Hinit. generalize (OnInitDialog lsUsername waUsername p0).
  induction messages as [|m messages IH]; intros p Hp; [exact Hp|].
  cbn [fold_left]. apply IH. by apply handle_shows.
Qed.

(** X21: a click on the Web API button never leaves the page logged in, and
    never back at fetching the status: a login is in progress afterwards
    exactly when the page was logged out and the login could be started,
    and from every other status the click logs out.  The status of the
    other backend stays as it was. *)
Theorem OnWebApiLoginClick_never_logs_in (p : t) (authenticateThrows : bool)
    (getUsername : string) :
  let p' := OnWebApiLoginClick authenticateThrows getUsername p in
  webApiStatus_ p' ≠ logged_in ∧
  webApiStatus_ p' ≠ fetching_login_status ∧
  (webApiStatus_ p' = login_in_progress ↔
     webApiStatus_ p = logged_out ∧ authenticateThrows = false) ∧
  libSpotifyStatus_ p' = libSpotifyStatus_ p.
Proof.
  cbn zeta. unfold OnWebApiLoginClick.
  destruct (webApiStatus_ p) eqn:Hs, authenticateThrows; cbn;
    repeat split; try discriminate; try done; intros []; discriminate.
Qed.

End PreferencesExtras.
